(** * Imagen (src/app.js): batch tracking and gallery state

    A shallow embedding of the application logic of [src/app.js]
    (the first, current revision in the file): the [state] object, the
    generation batches, the gallery collection and the helpers around
    them, followed by the properties proved about them.

    Conventions of the embedding.
    - JavaScript strings are [string]; a string is falsy exactly when it
      is empty.
    - [Date.now()], [new Date()] and [Math.random()] are inputs of the
      event that reads them.  A timestamp is a number of milliseconds
      ([Z]); [createdAt] (an ISO string in the source, compared through
      [new Date(..)]) is kept as that number of milliseconds.
    - Where the source tests a value dynamically ([typeof], [Array.isArray],
      optional chaining, truthiness) the model has a sum or an option;
      elsewhere a field has the type the source uses it at.
    - An [await] splits a function into the part that runs synchronously
      with the call and the continuation that runs when the awaited
      promise settles; each part is one step of the event loop. *)

From Stdlib Require Import ZArith Ascii String List Sorted Permutation Lia Bool.
From stdpp Require Import base list strings.

Open Scope Z_scope.

(** ** JavaScript string primitives *)

Module Js.

(** [s.startsWith(p)] *)
Definition startsWith (s p : string) : bool := String.prefix p s.

(** [s.replace(/c/g, r)] for a one-character pattern [c]. *)
Fixpoint replaceAll (c : ascii) (r : string) (s : string) : string :=
  match s with
  | EmptyString => EmptyString
  | String a s' =>
      if Ascii.eqb a c then r +:+ replaceAll c r s'
      else String a (replaceAll c r s')
  end.

(** [s.includes(p)] *)
Fixpoint includes (s p : string) : bool :=
  String.prefix p s ||
  match s with
  | EmptyString => false
  | String _ s' => includes s' p
  end.

Definition lowerChar (a : ascii) : ascii :=
  let n := nat_of_ascii a in
  if (Nat.leb 65 n && Nat.leb n 90)%bool then ascii_of_nat (n + 32) else a.

(** [s.toLowerCase()] on the ASCII range. *)
Fixpoint toLowerCase (s : string) : string :=
  match s with
  | EmptyString => EmptyString
  | String a s' => String (lowerChar a) (toLowerCase s')
  end.

(** White space removed by [trim]: TAB, LF, VT, FF, CR, SP and NBSP. *)
Definition isSpace (a : ascii) : bool :=
  let n := nat_of_ascii a in
  (Nat.leb 9 n && Nat.leb n 13 || Nat.eqb n 32 || Nat.eqb n 160)%bool.

Fixpoint trimStart (s : string) : string :=
  match s with
  | EmptyString => EmptyString
  | String a s' => if isSpace a then trimStart s' else s
  end.

Fixpoint trimEnd (s : string) : string :=
  match s with
  | EmptyString => EmptyString
  | String a s' =>
      match trimEnd s' with
      | EmptyString => if isSpace a then EmptyString else String a EmptyString
      | t => String a t
      end
  end.

(** [s.trim()] *)
Definition trim (s : string) : string := trimEnd (trimStart s).

(** Truthiness of a string: [!s] is [negb (truthy s)]. *)
Definition truthy (s : string) : bool :=
  match s with EmptyString => false | _ => true end.

(** Truthiness of an optional string field ([undefined] is falsy). *)
Definition truthyOpt (o : option string) : bool :=
  match o with Some s => truthy s | None => false end.

(** Does the character occur in the string? *)
Fixpoint hasChar (c : ascii) (s : string) : bool :=
  match s with
  | EmptyString => false
  | String a s' => Ascii.eqb a c || hasChar c s'
  end.

End Js.

(** ** URL sanitising (sanitizeImageUrl) *)

Definition dquote : ascii := ascii_of_nat 34.
Definition squote : ascii := ascii_of_nat 39.

Definition sanitizeImageUrl (url : string) : string :=
  if negb (Js.truthy url) then EmptyString
  else if Js.startsWith url "data:image/" then url
  else if Js.startsWith url "https://" then
    Js.replaceAll squote "%27" (Js.replaceAll dquote "%22" url)
  else EmptyString.

(** ** Data model *)

(** A JavaScript number of the form [n + r] with [n] an integer and
    [r] a result of [Math.random()] (so [0 <= r < 1]): the integer part
    and the random fraction determine the sum, and two sums are equal
    exactly when both components are.  The rounding of the sum to a double
    can only identify more values and is not represented. *)
Module Num.
Record t := mk { whole : Z; frac : N }.

#[global] Instance eq_dec : EqDecision t.
Proof. solve_decision. Defined.

(** [n + r] *)
Definition plusRandom (n : Z) (r : N) : t := mk n r.
End Num.

(** The image records kept in [state.images] and in the IndexedDB store
    ([imageData] in [generateAndDisplay]). *)
Module Image.
Record t := mk {
  id : Num.t;
  url : string;
  prompt : string;
  model : string;
  modelName : string;
  size : string;
  quality : string;
  aspectRatio : string;
  references : list string;
  createdAt : Z
}.

#[global] Instance eq_dec : EqDecision t.
Proof. solve_decision. Defined.
End Image.

(** The batch objects pushed on [state.pendingBatches]. *)
Module Batch.
Record t := mk {
  id : Num.t;
  prompt : string;
  model : string;
  modelName : string;
  count : Z;
  completed : Z;
  failed : Z
}.

Definition incrCompleted (b : t) : t :=
  mk (id b) (prompt b) (model b) (modelName b) (count b) (completed b + 1) (failed b).

Definition incrFailed (b : t) : t :=
  mk (id b) (prompt b) (model b) (modelName b) (count b) (completed b) (failed b + 1).
End Batch.

(** ** Model configurations (MODEL_CONFIGS) *)

Module Config.
Record t := mk {
  name : string;
  supportsImageSize : bool;
  supportsAspectRatio : bool;
  supportsImageInput : bool;
  maxReferences : Z
}.
End Config.

Definition MODEL_TABLE : list (string * Config.t) :=
  [ ("google/gemini-2.5-flash-image",
      Config.mk "Gemini 2.5 Flash Image" true true true 3);
    ("google/gemini-2.5-flash-image-preview",
      Config.mk "Gemini 2.5 Flash Image (Preview)" true true true 3);
    ("google/gemini-3-pro-image-preview",
      Config.mk "Gemini 3 Pro Image (Preview)" true true true 14);
    ("openai/gpt-5-image", Config.mk "GPT-5 Image" false true true 1);
    ("openai/gpt-5-image-mini", Config.mk "GPT-5 Image Mini" false true true 1);
    ("black-forest-labs/flux.2-pro", Config.mk "Flux 2 Pro" false true false 0);
    ("black-forest-labs/flux.2-max", Config.mk "Flux 2 Max" false true false 0);
    ("black-forest-labs/flux.2-flex", Config.mk "Flux 2 Flex" false true false 0);
    ("black-forest-labs/flux.2-klein-4b",
      Config.mk "Flux 2 Klein 4B" false true false 0);
    ("bytedance-seed/seedream-4.5", Config.mk "Seedream 4.5" false true false 0);
    ("sourceful/riverflow-v2-fast-preview",
      Config.mk "Riverflow V2 Fast" false true false 0);
    ("sourceful/riverflow-v2-standard-preview",
      Config.mk "Riverflow V2 Standard" false true false 0);
    ("sourceful/riverflow-v2-max-preview",
      Config.mk "Riverflow V2 Max" false true false 0) ].

(** [MODEL_CONFIGS[key]] for the keys of the object literal; [None] is
    [undefined].  For a key that names a member inherited from
    [Object.prototype] (['constructor'], ['toString'], ..) the source finds
    that member along the prototype chain; the table does not represent
    these members, and the properties that rest on the lookup are stated
    for the models of the table. *)
Definition MODEL_CONFIGS (key : string) : option Config.t :=
  snd <$> List.find (λ kv, String.eqb (fst kv) key) MODEL_TABLE.

(** ** Outbound request (generateSingleImage, up to [fetch]) *)

Module Request.
(** One element of the [content] array. *)
Inductive part :=
| ImageUrlPart (url detail : string)
| TextPart (text : string).

(** [content.length === 1 ? prompt : content] *)
Inductive content :=
| Text (prompt : string)
| Parts (parts : list part).

Record image_config := mkImageConfig { image_size : string; aspect_ratio_cfg : string }.

Record t := mk {
  authorization : string;        (* the bearer credential *)
  model : string;
  messageContent : content;
  imageConfig : option image_config;
  aspect_ratio : option string
}.
End Request.

(** ** Remote response *)

Module Response.
(** [{ url }] under [image_url]. *)
Record image_url := mkImageUrl { iu_url : option string }.

(** An entry of [message.images]: a bare string or an object. *)
Record img_object := mkImg {
  img_image_url : option image_url;
  img_url : option string;
  img_b64_json : option string
}.
Inductive img := ImgString (s : string) | ImgObject (o : img_object).

Record inline_data := mkInline { data : option string; mimeType : option string }.

(** An element of an array-valued [message.content]. *)
Record part := mkPart {
  type : option string;
  part_image_url : option image_url;
  inlineData : option inline_data;
  image : option string
}.

(** [message.content]: an array, a string, or neither (null, absent). *)
Inductive content_value :=
| ContentArray (parts : list part)
| ContentString (s : string)
| ContentOther.

Record message := mkMessage {
  images : option (list img);
  content : content_value
}.

Record choice := mkChoice { choice_message : option message }.

(** The parsed body: [data.choices]. *)
Record body := mkBody { choices : option (list choice) }.

(** How [fetch] and [response.json()] end. *)
Inductive outcome :=
| FetchRejected                                   (* transport failure *)
| NotOk (status : Z) (errorMessage : option string) (* !response.ok *)
| OkInvalidJson                                   (* response.json() rejects *)
| Ok (d : body).
End Response.

(** Errors thrown by [generateSingleImage]: a rejected [fetch], the error
    built from a response that is not ok, a rejected [response.json()],
    ['No response from model'] and ['No image in response. ..']. *)
Inductive GenError :=
| TransportError
| ApiError (status : Z) (message : option string)
| JsonError
| NoResponseFromModel
| NoImageInResponse.

(** ** generateSingleImage: interpreting the response

    The part of [generateSingleImage] that runs after [await fetch(..)].
    The three response shapes are handled by three consecutive blocks of
    the source; a block that finds an image returns it. *)

(** [x?.url] for [x = img.image_url] or [x = part.image_url] *)
Definition image_url_url (x : option Response.image_url) : option string :=
  x ≫= Response.iu_url.

(** [`data:image/png;base64,${b64}`] *)
Definition pngDataUri (b64 : string) : string := "data:image/png;base64," +:+ b64.

(** [o || d] on optional strings *)
Definition orDefault (o : option string) (d : string) : string :=
  match o with
  | Some s => if Js.truthy s then s else d
  | None => d
  end.

(** [o.type === t] *)
Definition typeIs (o : option string) (t : string) : bool :=
  match o with
  | Some s => String.eqb s t
  | None => false
  end.

(** The first block, on the first entry of [message.images]. *)
Definition imageOfEntry (img : Response.img) : option string :=
  match img with
  | Response.ImgObject o =>
      if Js.truthyOpt (image_url_url (Response.img_image_url o))
      then image_url_url (Response.img_image_url o)
      else if Js.truthyOpt (Response.img_url o) then Response.img_url o
      else if Js.truthyOpt (Response.img_b64_json o)
      then pngDataUri <$> Response.img_b64_json o
      else None
  | Response.ImgString s =>
      if Js.startsWith s "data:" || Js.startsWith s "http" then Some s
      else Some (pngDataUri s)
  end.

(** The body of the loop over the content parts: what it returns for one
    part, [None] when the loop goes on to the next part. *)
Definition imageOfPart (part : Response.part) : option string :=
  if typeIs (Response.type part) "image_url"
     && Js.truthyOpt (image_url_url (Response.part_image_url part))
  then image_url_url (Response.part_image_url part)
  else if Js.truthyOpt (Response.inlineData part ≫= Response.data)
  then
    let mimeType := orDefault (Response.inlineData part ≫= Response.mimeType) "image/png" in
    (λ d, "data:" +:+ mimeType +:+ ";base64," +:+ d)
      <$> (Response.inlineData part ≫= Response.data)
  else if typeIs (Response.type part) "image" && Js.truthyOpt (Response.image part)
  then
    (λ i, if Js.startsWith i "data:" then i else pngDataUri i) <$> Response.image part
  else None.

(** [for (const part of message.content) { .. }] *)
Fixpoint scanParts (parts : list Response.part) : option string :=
  match parts with
  | [] => None
  | part :: rest =>
      match imageOfPart part with
      | Some u => Some u
      | None => scanParts rest
      end
  end.

(** From [const message = ..] to the final [throw]. *)
Definition extractImage (message : Response.message) : string + GenError :=
  match
    match Response.images message with
    | Some (img :: _) => imageOfEntry img        (* images.length > 0 *)
    | _ => None
    end
  with
  | Some u => inl u
  | None =>
      match
        match Response.content message with
        | Response.ContentArray parts => scanParts parts
        | _ => None
        end
      with
      | Some u => inl u
      | None =>
          match Response.content message with
          | Response.ContentString s =>
              if Js.startsWith s "data:image" then inl s else inr NoImageInResponse
          | _ => inr NoImageInResponse
          end
      end
  end.

(** [data.choices?.[0]?.message] *)
Definition firstMessage (d : Response.body) : option Response.message :=
  match Response.choices d with
  | Some (c :: _) => Response.choice_message c
  | _ => None
  end.

(** [generateSingleImage] from the settlement of [fetch] on. *)
Definition generateSingleImage_response (out : Response.outcome) : string + GenError :=
  match out with
  | Response.FetchRejected => inr TransportError
  | Response.NotOk status msg => inr (ApiError status msg)
  | Response.OkInvalidJson => inr JsonError
  | Response.Ok d =>
      match firstMessage d with
      | None => inr NoResponseFromModel
      | Some message => extractImage message
      end
  end.

(** ** Application state *)

(** The buttons and options of the page that the handlers read
    ([.btn-toggle] with [data-size] and [data-quality], [.btn-aspect] with
    [data-ratio], [.custom-select-option] with [data-value]).  The page
    itself (index.html) is not part of the sources; it is a field of the
    state, fixed at start-up. *)
Record Document := mkDocument {
  toggleButtons : list (string * string);   (* (data-size, data-quality) *)
  aspectButtons : list string;              (* data-ratio *)
  modelOptions : list string                (* data-value *)
}.

(** Messages passed to [showToast]. *)
Inductive Toast :=
| ToastEnterPrompt
| ToastEnterApiKey
| ToastQueued (imageCount : Z)
| ToastGenerated (completed : Z)
| ToastGenerateFailed
| ToastGalleryCleared
| ToastImageDeleted
| ToastApiKeySaved
| ToastReferencesCleared
| ToastReferenceAdded
| ToastSettingsRestored.

(** Calls made on [ImagenDB]. *)
Inductive DbCall :=
| SaveImage (imageData : Image.t)
| DeleteImage (id : Num.t)
| ClearAll.

(** What reaches the console; [Uncaught] stands for an exception that
    leaves a handler. *)
Inductive ConsoleEntry :=
| LoadFailed
| GenerateFailed (e : GenError)
| DeleteFailed
| ClearFailed
| Uncaught.

(** The promise of one [generateAndDisplay(i)]: pending on its [fetch],
    or settled. *)
Inductive UnitState :=
| InFlight (request : Request.t)
| Settled.

(** One call of [generateImages] that got as far as creating its batch:
    the batch object and the constants of the closure.  [state.pendingBatches]
    holds references to the batch objects; the reference to the batch of a
    call is the position of the call in [calls]. *)
Module Activation.
Record t := mk {
  batch : Batch.t;
  batchId : Num.t;
  prompt : string;
  modelConfig : Config.t;
  currentReferences : list string;
  currentModel : string;
  currentSize : string;
  currentQuality : string;
  currentAspectRatio : string;
  imageCount : Z;
  units : list UnitState;
  resumed : bool        (* the code after [await Promise.allSettled] has run *)
}.

Definition set_batch (b : Batch.t) (a : t) : t :=
  mk b (batchId a) (prompt a) (modelConfig a) (currentReferences a) (currentModel a)
     (currentSize a) (currentQuality a) (currentAspectRatio a) (imageCount a)
     (units a) (resumed a).

Definition set_units (u : list UnitState) (a : t) : t :=
  mk (batch a) (batchId a) (prompt a) (modelConfig a) (currentReferences a)
     (currentModel a) (currentSize a) (currentQuality a) (currentAspectRatio a)
     (imageCount a) u (resumed a).

Definition set_resumed (r : bool) (a : t) : t :=
  mk (batch a) (batchId a) (prompt a) (modelConfig a) (currentReferences a)
     (currentModel a) (currentSize a) (currentQuality a) (currentAspectRatio a)
     (imageCount a) (units a) r.
End Activation.

(** The [state] object, the prompt field of the page, the suspended calls
    of [generateImages] and the effects observed so far. *)
Record App := mkApp {
  apiKey : string;
  selectedModel : string;
  imageSize : string;
  imageQuality : string;
  aspectRatio : string;
  imageCount : Z;
  references : list string;
  images : list Image.t;
  currentImage : option Image.t;
  pendingBatches : list nat;
  promptInput : string;
  document : Document;
  calls : list Activation.t;
  toasts : list Toast;
  dbCalls : list DbCall;
  console : list ConsoleEntry
}.

Definition set_apiKey (v : string) (s : App) : App :=
  mkApp (v) (selectedModel s) (imageSize s) (imageQuality s) (aspectRatio s) (imageCount s) (references s) (images s) (currentImage s) (pendingBatches s) (promptInput s) (document s) (calls s) (toasts s) (dbCalls s) (console s).

Definition set_selectedModel (v : string) (s : App) : App :=
  mkApp (apiKey s) (v) (imageSize s) (imageQuality s) (aspectRatio s) (imageCount s) (references s) (images s) (currentImage s) (pendingBatches s) (promptInput s) (document s) (calls s) (toasts s) (dbCalls s) (console s).

Definition set_imageSize (v : string) (s : App) : App :=
  mkApp (apiKey s) (selectedModel s) (v) (imageQuality s) (aspectRatio s) (imageCount s) (references s) (images s) (currentImage s) (pendingBatches s) (promptInput s) (document s) (calls s) (toasts s) (dbCalls s) (console s).

Definition set_imageQuality (v : string) (s : App) : App :=
  mkApp (apiKey s) (selectedModel s) (imageSize s) (v) (aspectRatio s) (imageCount s) (references s) (images s) (currentImage s) (pendingBatches s) (promptInput s) (document s) (calls s) (toasts s) (dbCalls s) (console s).

Definition set_aspectRatio (v : string) (s : App) : App :=
  mkApp (apiKey s) (selectedModel s) (imageSize s) (imageQuality s) (v) (imageCount s) (references s) (images s) (currentImage s) (pendingBatches s) (promptInput s) (document s) (calls s) (toasts s) (dbCalls s) (console s).

Definition set_imageCount (v : Z) (s : App) : App :=
  mkApp (apiKey s) (selectedModel s) (imageSize s) (imageQuality s) (aspectRatio s) (v) (references s) (images s) (currentImage s) (pendingBatches s) (promptInput s) (document s) (calls s) (toasts s) (dbCalls s) (console s).

Definition set_references (v : list string) (s : App) : App :=
  mkApp (apiKey s) (selectedModel s) (imageSize s) (imageQuality s) (aspectRatio s) (imageCount s) (v) (images s) (currentImage s) (pendingBatches s) (promptInput s) (document s) (calls s) (toasts s) (dbCalls s) (console s).

Definition set_images (v : list Image.t) (s : App) : App :=
  mkApp (apiKey s) (selectedModel s) (imageSize s) (imageQuality s) (aspectRatio s) (imageCount s) (references s) (v) (currentImage s) (pendingBatches s) (promptInput s) (document s) (calls s) (toasts s) (dbCalls s) (console s).

Definition set_currentImage (v : option Image.t) (s : App) : App :=
  mkApp (apiKey s) (selectedModel s) (imageSize s) (imageQuality s) (aspectRatio s) (imageCount s) (references s) (images s) (v) (pendingBatches s) (promptInput s) (document s) (calls s) (toasts s) (dbCalls s) (console s).

Definition set_pendingBatches (v : list nat) (s : App) : App :=
  mkApp (apiKey s) (selectedModel s) (imageSize s) (imageQuality s) (aspectRatio s) (imageCount s) (references s) (images s) (currentImage s) (v) (promptInput s) (document s) (calls s) (toasts s) (dbCalls s) (console s).

Definition set_promptInput (v : string) (s : App) : App :=
  mkApp (apiKey s) (selectedModel s) (imageSize s) (imageQuality s) (aspectRatio s) (imageCount s) (references s) (images s) (currentImage s) (pendingBatches s) (v) (document s) (calls s) (toasts s) (dbCalls s) (console s).

Definition set_document (v : Document) (s : App) : App :=
  mkApp (apiKey s) (selectedModel s) (imageSize s) (imageQuality s) (aspectRatio s) (imageCount s) (references s) (images s) (currentImage s) (pendingBatches s) (promptInput s) (v) (calls s) (toasts s) (dbCalls s) (console s).

Definition set_calls (v : list Activation.t) (s : App) : App :=
  mkApp (apiKey s) (selectedModel s) (imageSize s) (imageQuality s) (aspectRatio s) (imageCount s) (references s) (images s) (currentImage s) (pendingBatches s) (promptInput s) (document s) (v) (toasts s) (dbCalls s) (console s).

Definition set_toasts (v : list Toast) (s : App) : App :=
  mkApp (apiKey s) (selectedModel s) (imageSize s) (imageQuality s) (aspectRatio s) (imageCount s) (references s) (images s) (currentImage s) (pendingBatches s) (promptInput s) (document s) (calls s) (v) (dbCalls s) (console s).

Definition set_dbCalls (v : list DbCall) (s : App) : App :=
  mkApp (apiKey s) (selectedModel s) (imageSize s) (imageQuality s) (aspectRatio s) (imageCount s) (references s) (images s) (currentImage s) (pendingBatches s) (promptInput s) (document s) (calls s) (toasts s) (v) (console s).

Definition set_console (v : list ConsoleEntry) (s : App) : App :=
  mkApp (apiKey s) (selectedModel s) (imageSize s) (imageQuality s) (aspectRatio s) (imageCount s) (references s) (images s) (currentImage s) (pendingBatches s) (promptInput s) (document s) (calls s) (toasts s) (dbCalls s) (v).

Definition showToast (t : Toast) (s : App) : App := set_toasts (toasts s ++ [t]) s.
Definition callDb (c : DbCall) (s : App) : App := set_dbCalls (dbCalls s ++ [c]) s.
Definition logConsole (e : ConsoleEntry) (s : App) : App := set_console (console s ++ [e]) s.

(** ** The record store (ImagenDB.getAllImages) *)

(** [array.sort(compare)]: the sort is stable; an element goes in front of
    the first element that it does not have to follow. *)
Fixpoint sortInsert {A} (compare : A → A → Z) (x : A) (l : list A) : list A :=
  match l with
  | [] => [x]
  | y :: l' => if compare x y <=? 0 then x :: y :: l' else y :: sortInsert compare x l'
  end.

Fixpoint arraySort {A} (compare : A → A → Z) (l : list A) : list A :=
  match l with
  | [] => []
  | x :: l' => sortInsert compare x (arraySort compare l')
  end.

(** [(a, b) => new Date(b.createdAt) - new Date(a.createdAt)] *)
Definition byCreatedAtDesc (a b : Image.t) : Z := Image.createdAt b - Image.createdAt a.

(** How the read of the object store ends: [request.onerror] (or a failed
    [open]), or [request.onsuccess] with the stored records. *)
Inductive StoreRead :=
| ReadError
| ReadResult (records : list Image.t).

(** [ImagenDB.getAllImages()]: [None] is a rejected promise. *)
Definition getAllImages (r : StoreRead) : option (list Image.t) :=
  match r with
  | ReadError => None
  | ReadResult records => Some (arraySort byCreatedAtDesc records)
  end.

(** ** Start-up (state, init) *)

(** The preference store at start-up; [imagen_count] is the result of
    [parseInt], [None] being NaN. *)
Record LocalStorage := mkLocalStorage {
  imagen_api_key : option string;
  imagen_model : option string;
  imagen_size : option string;
  imagen_quality : option string;
  imagen_aspect_ratio : option string;
  imagen_count : option Z
}.

(** The initial value of [state]. *)
Definition initialState (ls : LocalStorage) (doc : Document) : App :=
  mkApp
    (orDefault (imagen_api_key ls) "")
    (orDefault (imagen_model ls) "google/gemini-2.5-flash-image")
    (orDefault (imagen_size ls) "1024x1024")
    (orDefault (imagen_quality ls) "1K")
    (orDefault (imagen_aspect_ratio ls) "1:1")
    (match imagen_count ls with
     | Some n => if n =? 0 then 1 else n
     | None => 1
     end)
    [] [] None [] "" doc [] [] [] [].

(** [init]: the gallery is loaded before the event listeners are set up. *)
Definition init (ls : LocalStorage) (doc : Document) (r : StoreRead) : App :=
  let s := initialState ls doc in
  match getAllImages r with
  | Some loaded => set_images loaded s
  | None => set_images [] (logConsole LoadFailed s)
  end.

(** ** Settings and references (setupEventListeners) *)

Definition selectModel (i : nat) (s : App) : App :=
  match modelOptions (document s) !! i with
  | Some value => set_selectedModel value s
  | None => s
  end.

Definition clickToggle (i : nat) (s : App) : App :=
  match toggleButtons (document s) !! i with
  | Some (size, quality) => set_imageQuality quality (set_imageSize size s)
  | None => s
  end.

Definition clickAspect (i : nat) (s : App) : App :=
  match aspectButtons (document s) !! i with
  | Some ratio => set_aspectRatio ratio s
  | None => s
  end.

Definition decreaseCount (s : App) : App :=
  if 1 <? imageCount s then set_imageCount (imageCount s - 1) s else s.

Definition increaseCount (s : App) : App :=
  if imageCount s <? 8 then set_imageCount (imageCount s + 1) s else s.

Definition changeCount (parsed : option Z) (s : App) : App :=
  let val := match parsed with
             | Some v => if v <? 1 then 1 else v
             | None => 1
             end in
  let val := if 8 <? val then 8 else val in
  set_imageCount val s.

Definition saveApiKey (text : string) (s : App) : App :=
  showToast ToastApiKeySaved (set_apiKey (Js.trim text) s).

(** [reader.onload] of an uploaded, dropped or pasted file. *)
Definition referenceLoaded (dataUrl : string) (s : App) : App :=
  set_references (references s ++ [dataUrl]) s.

Definition removeReference (index : nat) (s : App) : App :=
  set_references (delete index (references s)) s.

Definition clearAllReferences (s : App) : App :=
  showToast ToastReferencesCleared (set_references [] s).

(** ** Image generation (generateSingleImage, generateImages) *)

(** [generateSingleImage] up to the call of [fetch]: it runs synchronously
    inside the call of [generateAndDisplay] and reads the live [state]. *)
Definition generateSingleImage_request
    (s : App) (prompt : string) (modelConfig : Config.t) : Request.t :=
  let content :=
    (if Config.supportsImageInput modelConfig
     then (λ ref, Request.ImageUrlPart ref "high") <$> List.filter Js.truthy (references s)
     else [])
    ++ [Request.TextPart prompt] in
  let gemini := Js.includes (selectedModel s) "gemini" in
  Request.mk
    (apiKey s)
    (selectedModel s)
    (if (length content =? 1)%nat then Request.Text prompt else Request.Parts content)
    (if Config.supportsImageSize modelConfig && gemini
     then Some (Request.mkImageConfig (Js.toLowerCase (imageQuality s)) (aspectRatio s))
     else None)
    (if Config.supportsAspectRatio modelConfig && negb gemini
     then Some (aspectRatio s)
     else None).

(** [generateImages] up to [await Promise.allSettled(promises)].  With an
    unknown model [modelConfig.name] throws before anything is changed. *)
Definition generateImages (now : Z) (rnd : N) (s : App) : App :=
  let prompt := Js.trim (promptInput s) in
  if negb (Js.truthy prompt) then showToast ToastEnterPrompt s
  else if negb (Js.truthy (apiKey s)) then showToast ToastEnterApiKey s
  else
    match MODEL_CONFIGS (selectedModel s) with
    | None => logConsole Uncaught s
    | Some modelConfig =>
        let currentReferences := references s in
        let currentModel := selectedModel s in
        let currentSize := imageSize s in
        let currentQuality := imageQuality s in
        let currentAspectRatio := aspectRatio s in
        let imageCount := imageCount s in
        let batchId := Num.plusRandom now rnd in
        let batch :=
          Batch.mk batchId prompt currentModel (Config.name modelConfig) imageCount 0 0 in
        let ref := length (calls s) in
        let s := set_pendingBatches (pendingBatches s ++ [ref]) s in
        let s := showToast (ToastQueued imageCount) s in
        (* for (let i = 0; i < imageCount; i++) promises.push(generateAndDisplay(i)) *)
        let promises :=
          (λ _ : nat, InFlight (generateSingleImage_request s prompt modelConfig))
            <$> seq 0 (Z.to_nat imageCount) in
        set_calls
          (calls s ++
           [Activation.mk batch batchId prompt modelConfig currentReferences currentModel
              currentSize currentQuality currentAspectRatio imageCount promises false])
          s
    end.

(** [batch.completed++] / [batch.failed++] on the batch object of a call,
    and the settlement of the promise of unit [i]. *)
Definition settleUnit (f : Batch.t → Batch.t) (i : nat) (a : Activation.t) : Activation.t :=
  Activation.set_units (<[i := Settled]> (Activation.units a))
    (Activation.set_batch (f (Activation.batch a)) a).

(** The record built by a unit that got an image. *)
Definition imageDataOf (a : Activation.t) (index : nat) (result : string)
    (now : Z) (rnd : N) (created : Z) : Image.t :=
  Image.mk
    (Num.plusRandom (now + Z.of_nat index) rnd)
    result
    (Activation.prompt a)
    (Activation.currentModel a)
    (Config.name (Activation.modelConfig a))
    (Activation.currentSize a)
    (Activation.currentQuality a)
    (Activation.currentAspectRatio a)
    (Activation.currentReferences a)
    created.

(** [generateAndDisplay(index)] of call [call] from the settlement of its
    [fetch] on.  [now] and [rnd] are the values of [Date.now()] and
    [Math.random()] in the id, [created] the value of [new Date()]. *)
Definition generateAndDisplay_resume
    (call index : nat) (out : Response.outcome) (now : Z) (rnd : N) (created : Z)
    (s : App) : App :=
  match calls s !! call with
  | Some a =>
      match Activation.units a !! index with
      | Some (InFlight _) =>
          match generateSingleImage_response out with
          | inl result =>
              if Js.truthy result then
                let imageData := imageDataOf a index result now rnd created in
                let s := set_images (imageData :: images s) s in
                let s := set_calls (<[call := settleUnit Batch.incrCompleted index a]> (calls s)) s in
                callDb (SaveImage imageData) s
              else
                set_calls (<[call := settleUnit Batch.incrFailed index a]> (calls s)) s
          | inr error =>
              let s := logConsole (GenerateFailed error) s in
              set_calls (<[call := settleUnit Batch.incrFailed index a]> (calls s)) s
          end
      | _ => s
      end
  | None => s
  end.

(** Are all promises of the call settled? *)
Definition allSettled (a : Activation.t) : bool :=
  forallb (λ u, match u with Settled => true | InFlight _ => false end) (Activation.units a).

(** [b.id] for a reference [r] held in [state.pendingBatches]. *)
Definition batchIdAt (s : App) (r : nat) : option Num.t :=
  (λ a, Batch.id (Activation.batch a)) <$> calls s !! r.

(** [state.pendingBatches.findIndex(b => b.id === batchId)] *)
Definition findBatchIndex (s : App) (batchId : Num.t) : option nat :=
  fst <$> list_find (λ r, batchIdAt s r = Some batchId) (pendingBatches s).

(** [generateImages] after [await Promise.allSettled(promises)]. *)
Definition generateImages_resume (call : nat) (s : App) : App :=
  match calls s !! call with
  | Some a =>
      if allSettled a && negb (Activation.resumed a) then
        let s := set_calls (<[call := Activation.set_resumed true a]> (calls s)) s in
        let s :=
          match findBatchIndex s (Activation.batchId a) with
          | Some batchIndex => set_pendingBatches (delete batchIndex (pendingBatches s)) s
          | None => s
          end in
        if 0 <? Batch.completed (Activation.batch a)
        then showToast (ToastGenerated (Batch.completed (Activation.batch a))) s
        else showToast ToastGenerateFailed s
      else s
  | None => s
  end.

(** ** Gallery (renderGallery, deleteImage, clear) *)

(** What [renderGallery] puts on the page: the empty-state element, or one
    placeholder per pending unit of each batch in [state.pendingBatches]
    followed by one card per image (its sanitised URL). *)
Record Gallery := mkGallery {
  galleryEmpty : bool;
  placeholders : list (string * string);     (* (truncated prompt, modelName) *)
  cards : list string
}.

(** [prompt.length > 60 ? prompt.substring(0, 60) + '...' : prompt] *)
Definition truncatedPrompt (prompt : string) : string :=
  if (60 <? String.length prompt)%nat then String.substring 0 60 prompt +:+ "..."
  else prompt.

Definition renderGallery (s : App) : Gallery :=
  let hasPending := negb (length (pendingBatches s) =? 0)%nat in
  let hasImages := negb (length (images s) =? 0)%nat in
  if negb hasImages && negb hasPending then mkGallery true [] []
  else
    mkGallery false
      (r ← pendingBatches s;
       match Activation.batch <$> calls s !! r with
       | Some batch =>
           let pendingCount :=
             Batch.count batch - Batch.completed batch - Batch.failed batch in
           replicate (Z.to_nat pendingCount)
             (truncatedPrompt (Batch.prompt batch), Batch.modelName batch)
       | None => []
       end)
      ((λ image, sanitizeImageUrl (Image.url image)) <$> images s).

(** [deleteImage(index)].  [storeOk] tells whether [ImagenDB.deleteImage]
    resolves.  Without an image at [index], [imageToDelete.id] throws inside
    the [try] and no call is made. *)
Definition deleteImage (index : nat) (storeOk : bool) (s : App) : App :=
  let imageToDelete := images s !! index in
  let s := set_images (delete index (images s)) s in
  let s :=
    match imageToDelete with
    | Some image =>
        let s := callDb (DeleteImage (Image.id image)) s in
        if storeOk then s else logConsole DeleteFailed s
    | None => logConsole DeleteFailed s
    end in
  showToast ToastImageDeleted s.

(** [deleteImage(index)] split at its [await].  Up to the [await]: the
    record at [index] is taken out of the gallery and the store is called
    with its id.  Without a record at [index], [imageToDelete.id] throws
    before any call; the [catch] logs it and the function runs to its end
    without suspending. *)
Definition deleteImage_request (index : nat) (s : App) : App :=
  let imageToDelete := images s !! index in
  let s := set_images (delete index (images s)) s in
  match imageToDelete with
  | Some image => callDb (DeleteImage (Image.id image)) s
  | None => showToast ToastImageDeleted (logConsole DeleteFailed s)
  end.

(** [deleteImage] from the settlement of [ImagenDB.deleteImage(..)] on. *)
Definition deleteImage_resume (storeOk : bool) (s : App) : App :=
  showToast ToastImageDeleted (if storeOk then s else logConsole DeleteFailed s).

(** The click handler of [elements.clearGallery]; [confirmed] is the
    answer to [confirm(..)], [storeOk] tells whether [ImagenDB.clearAll]
    resolves. *)
Definition clearGallery (confirmed storeOk : bool) (s : App) : App :=
  if confirmed then
    let s := set_images [] s in
    let s := callDb ClearAll s in
    let s := if storeOk then s else logConsole ClearFailed s in
    showToast ToastGalleryCleared s
  else s.

(** ** Modal (openModal, closeModal, useImageAsReference, recreateImage) *)

(** A click on the card of the image at [index]. *)
Definition openModal (index : nat) (s : App) : App :=
  match images s !! index with
  | Some image => set_currentImage (Some image) s
  | None => s
  end.

Definition closeModal (s : App) : App := set_currentImage None s.

Definition useImageAsReference (s : App) : App :=
  match currentImage s with
  | None => s
  | Some image =>
      let s := set_references (references s ++ [Image.url image]) s in
      showToast ToastReferenceAdded (closeModal s)
  end.

(** [document.querySelectorAll('.btn-toggle').forEach(btn => ..)] in
    [recreateImage] *)
Definition restoreQuality (quality : string) (s : App) : App :=
  fold_left
    (λ s btn,
       if String.eqb (snd btn) quality
       then set_imageQuality (snd btn) (set_imageSize (fst btn) s)
       else s)
    (toggleButtons (document s)) s.

(** [document.querySelectorAll('.btn-aspect').forEach(btn => ..)] in
    [recreateImage] *)
Definition restoreAspectRatio (ratio : string) (s : App) : App :=
  fold_left
    (λ s btn, if String.eqb btn ratio then set_aspectRatio ratio s else s)
    (aspectButtons (document s)) s.

Definition recreateImage (s : App) : App :=
  match currentImage s with
  | None => s
  | Some image =>
      let s := set_promptInput (Image.prompt image) s in
      let s := set_selectedModel (Image.model image) s in
      let s := restoreQuality (Image.quality image) s in
      let s := restoreAspectRatio (Image.aspectRatio image) s in
      let s :=
        if (0 <? length (Image.references image))%nat
        then set_references (Image.references image) s
        else set_references [] s in
      showToast ToastSettingsRestored (closeModal s)
  end.

(** ** The event loop *)

(** What can happen next: an action of the user, the settlement of the
    [fetch] of a unit, or the resumption of a call of [generateImages].
    An event that cannot happen in a state leaves it unchanged. *)
Inductive Event :=
| TypePrompt (text : string)
| SelectModel (option : nat)
| ClickToggle (button : nat)
| ClickAspect (button : nat)
| DecreaseCount
| IncreaseCount
| ChangeCount (parsed : option Z)
| SaveApiKey (text : string)
| ReferenceLoaded (dataUrl : string)
| RemoveReference (index : nat)
| ClearReferences
| Generate (now : Z) (rnd : N)
| UnitSettles (call index : nat) (out : Response.outcome) (now : Z) (rnd : N) (created : Z)
| AllSettled (call : nat)
| DeleteImageAt (index : nat) (storeOk : bool)
| ClearGallery (confirmed storeOk : bool)
| OpenModal (index : nat)
| CloseModal
| UseAsReference
| Recreate.

Definition step (e : Event) (s : App) : App :=
  match e with
  | TypePrompt text => set_promptInput text s
  | SelectModel i => selectModel i s
  | ClickToggle i => clickToggle i s
  | ClickAspect i => clickAspect i s
  | DecreaseCount => decreaseCount s
  | IncreaseCount => increaseCount s
  | ChangeCount parsed => changeCount parsed s
  | SaveApiKey text => saveApiKey text s
  | ReferenceLoaded dataUrl => referenceLoaded dataUrl s
  | RemoveReference index => removeReference index s
  | ClearReferences => clearAllReferences s
  | Generate now rnd => generateImages now rnd s
  | UnitSettles call index out now rnd created =>
      generateAndDisplay_resume call index out now rnd created s
  | AllSettled call => generateImages_resume call s
  | DeleteImageAt index storeOk => deleteImage index storeOk s
  | ClearGallery confirmed storeOk => clearGallery confirmed storeOk s
  | OpenModal index => openModal index s
  | CloseModal => closeModal s
  | UseAsReference => useImageAsReference s
  | Recreate => recreateImage s
  end.

(** The state after a sequence of events. *)
Definition run (events : list Event) (s : App) : App :=
  fold_left (λ s e, step e s) events s.

(** * Vocabulary of the properties *)

(** ** The documented response shapes

    What an image arrives as, after the comments of [generateSingleImage]
    and section 4.3 of the specification, stated on the response alone:
    which entry of an images list and which part of a structured content
    bears an image, with the payload it bears, and the order in which the
    three places of a message are looked at.  The extraction of the code
    is compared with [Documented.payload] below. *)

Module Documented.

(** The field is present and holds the non-empty string [u]. *)
Definition holds (field : option string) (u : string) : Prop :=
  field = Some u ∧ u ≠ ""%string.

(** The field is absent or holds the empty string. *)
Definition blank (field : option string) : Prop :=
  field = None ∨ field = Some ""%string.

(** The [url] under an [image_url] object. *)
Definition urlUnder (x : option Response.image_url) : option string :=
  match x with
  | Some o => Response.iu_url o
  | None => None
  end.

(** The [data] and the media type of an [inlineData] object; the media
    type is ['image/png'] when none is given. *)
Definition inlineDataOf (p : Response.part) : option string :=
  match Response.inlineData p with
  | Some o => Response.data o
  | None => None
  end.

Definition mediaTypeOf (p : Response.part) : string :=
  match Response.inlineData p with
  | Some (Response.mkInline _ (Some (String a m))) => String a m
  | _ => "image/png"
  end.

(** An entry of the images list bears the payload [u]. *)
Inductive entryBears : Response.img → string → Prop :=
| entry_image_url o u :
    holds (urlUnder (Response.img_image_url o)) u →
    entryBears (Response.ImgObject o) u
| entry_url o u :
    blank (urlUnder (Response.img_image_url o)) →
    holds (Response.img_url o) u →
    entryBears (Response.ImgObject o) u
| entry_b64_json o b :
    blank (urlUnder (Response.img_image_url o)) →
    blank (Response.img_url o) →
    holds (Response.img_b64_json o) b →
    entryBears (Response.ImgObject o) ("data:image/png;base64," +:+ b)
| entry_reference s :
    String.prefix "data:" s = true ∨ String.prefix "http" s = true →
    entryBears (Response.ImgString s) s
| entry_base64 s :
    String.prefix "data:" s = false →
    String.prefix "http" s = false →
    entryBears (Response.ImgString s) ("data:image/png;base64," +:+ s).

(** The part is an [image_url] part with a URL. *)
Definition isImageUrlPart (p : Response.part) : Prop :=
  Response.type p = Some "image_url"%string
  ∧ ∃ u, holds (urlUnder (Response.part_image_url p)) u.

(** A part of a structured content bears the payload [u]. *)
Inductive partBears : Response.part → string → Prop :=
| part_image_url p u :
    Response.type p = Some "image_url"%string →
    holds (urlUnder (Response.part_image_url p)) u →
    partBears p u
| part_inline_data p d :
    ¬ isImageUrlPart p →
    holds (inlineDataOf p) d →
    partBears p ("data:" +:+ mediaTypeOf p +:+ ";base64," +:+ d)
| part_image_reference p i :
    ¬ isImageUrlPart p →
    blank (inlineDataOf p) →
    Response.type p = Some "image"%string →
    holds (Response.image p) i →
    String.prefix "data:" i = true →
    partBears p i
| part_image_base64 p i :
    ¬ isImageUrlPart p →
    blank (inlineDataOf p) →
    Response.type p = Some "image"%string →
    holds (Response.image p) i →
    String.prefix "data:" i = false →
    partBears p ("data:image/png;base64," +:+ i).

(** The first entry of the images list, when the message has a list that
    is not empty. *)
Definition firstEntry (message : Response.message) : option Response.img :=
  match Response.images message with
  | Some (img :: _) => Some img
  | _ => None
  end.

(** The images list gives no image. *)
Definition noImageInList (message : Response.message) : Prop :=
  ∀ img, firstEntry message = Some img → ∀ v, ¬ entryBears img v.

(** The payload of the message: that of the images list; failing that, of
    the first part of a structured content that bears one; failing that,
    the content itself when it is a string that begins with
    ['data:image']. *)
Inductive payload (message : Response.message) : string → Prop :=
| from_images_list img u :
    firstEntry message = Some img →
    entryBears img u →
    payload message u
| from_content_part before p after u :
    noImageInList message →
    Response.content message = Response.ContentArray (before ++ p :: after) →
    Forall (λ q, ∀ v, ¬ partBears q v) before →
    partBears p u →
    payload message u
| from_whole_content s :
    noImageInList message →
    Response.content message = Response.ContentString s →
    String.prefix "data:image" s = true →
    payload message s.

End Documented.

(** The two kinds of failure of a unit in the error taxonomy of the
    specification: the request failed (transport failure or a status that
    is not a success), or the response was parsed and carries no
    recognisable image. *)
Module Taxonomy.
Inductive kind := RemoteRequestFailed | NoImageInResponse.
End Taxonomy.

Definition errorKind (e : GenError) : Taxonomy.kind :=
  match e with
  | TransportError | ApiError _ _ | JsonError => Taxonomy.RemoteRequestFailed
  | NoResponseFromModel | NoImageInResponse => Taxonomy.NoImageInResponse
  end.

(** ** Gallery order *)

(** Sorted by [createdAt], newest first. *)
Definition newestFirst (l : list Image.t) : Prop :=
  StronglySorted (λ a b, Image.createdAt b <= Image.createdAt a) l.

(** The readings of [new Date()] taken by the units that settle never go
    back, starting from [last]. *)
Fixpoint clockMonotone (last : Z) (events : list Event) : Prop :=
  match events with
  | [] => True
  | UnitSettles _ _ _ _ _ created :: events' =>
      last <= created ∧ clockMonotone created events'
  | _ :: events' => clockMonotone last events'
  end.

(** ** Recreate *)




(** The records handed over by a read of the store (none when it fails). *)
Definition storedRecords (r : StoreRead) : list Image.t :=
  match r with
  | ReadResult records => records
  | ReadError => []
  end.

(** ** Sample data

    A page with the options listed in the README, a preference store, a
    response of the documented form and a stored record, used to run the
    model on concrete inputs. *)

Definition sampleDocument : Document :=
  mkDocument
    [("1024x1024", "1K"); ("2048x2048", "2K"); ("4096x4096", "4K")]%string
    ["1:1"; "16:9"; "9:16"; "4:3"; "3:4"; "3:2"]%string
    (fst <$> MODEL_TABLE).

Definition sampleStorage : LocalStorage :=
  mkLocalStorage (Some "sk-or-sample"%string) None None None None None.

(** [{ choices: [{ message: { images: [{ image_url: { url } }] } }] }] *)
Definition sampleResponse (url : string) : Response.outcome :=
  Response.Ok
    (Response.mkBody
       (Some [Response.mkChoice
                (Some (Response.mkMessage
                         (Some [Response.ImgObject
                                  (Response.mkImg
                                     (Some (Response.mkImageUrl (Some url))) None None)])
                         Response.ContentOther))])).

Definition sampleStored : Image.t :=
  Image.mk (Num.mk 900 1) "https://img.example/0.png" "a lighthouse"
    "openai/gpt-5-image" "GPT-5 Image" "1024x1024" "1K" "1:1" [] 900.


(** An image is generated, the quality is then changed on the page and the
    image is opened. *)
Definition legacyEvents : list Event :=
  [ TypePrompt "a red fox";
    Generate 1000 7;
    UnitSettles 0 0 (sampleResponse "https://img.example/1.png") 1500 3 1500;
    AllSettled 0;
    ClickToggle 1;
    OpenModal 0 ].

(** A record with a quality that no button of [sampleDocument] carries. *)
Definition legacyImage : Image.t :=
  Image.mk (Num.mk 1500 3) "https://img.example/1.png" "a red fox"
    "google/gemini-2.5-flash-image" "Gemini 2.5 Flash Image"
    "1024x1024" "HD" "1:1" [] 1500.

(** ** Batches along a run *)

Definition isSettled (u : UnitState) : bool :=
  match u with
  | Settled => true
  | InFlight _ => false
  end.

(** The number of settled units of a call. *)
Definition settledUnits (a : Activation.t) : nat :=
  length (List.filter isSettled (Activation.units a)).

(** Is unit [i] of call [c] waiting for its [fetch]? *)
Definition unitPending (c i : nat) (s : App) : bool :=
  match calls s !! c with
  | Some a =>
      match Activation.units a !! i with
      | Some (InFlight _) => true
      | _ => false
      end
  | None => false
  end.

(** Does a unit with this outcome of [fetch] fail (an error is thrown, or
    the result is falsy)? *)
Definition outcomeFails (out : Response.outcome) : bool :=
  match generateSingleImage_response out with
  | inl result => negb (Js.truthy result)
  | inr _ => true
  end.

(** The ids of the batch objects created so far. *)
Definition batchIds (s : App) : list Num.t :=
  (λ a, Batch.id (Activation.batch a)) <$> calls s.

(** The call that an accepted submission creates in state [s]. *)
Definition submittedCall (s : App) (now : Z) (rnd : N) (cfg : Config.t) : Activation.t :=
  let prompt := Js.trim (promptInput s) in
  Activation.mk
    (Batch.mk (Num.plusRandom now rnd) prompt (selectedModel s) (Config.name cfg)
       (imageCount s) 0 0)
    (Num.plusRandom now rnd) prompt cfg (references s) (selectedModel s)
    (imageSize s) (imageQuality s) (aspectRatio s) (imageCount s)
    (replicate (Z.to_nat (imageCount s))
       (InFlight (generateSingleImage_request s prompt cfg)))
    false.

(** Observations collected along a run: [f e s] is what is observed when
    event [e] happens in state [s]. *)
Fixpoint observe {X} (f : Event → App → list X) (events : list Event) (s : App) : list X :=
  match events with
  | [] => []
  | e :: events' => f e s ++ observe f events' (step e s)
  end.

(** The records that a unit of call [c] puts at the head of the gallery. *)
Definition insertedBy (c : nat) (e : Event) (s : App) : list Image.t :=
  match e with
  | UnitSettles c' _ _ _ _ _ =>
      if (c' =? c)%nat
      then take (length (images (step e s)) - length (images s)) (images (step e s))
      else []
  | _ => []
  end.

(** The records inserted by the units of call [c] along a run, oldest
    first. *)
Definition recordsInsertedBy (c : nat) : list Event → App → list Image.t :=
  observe (insertedBy c).

(** The unit of call [c] that fails at an event. *)
Definition failedBy (c : nat) (e : Event) (s : App) : list nat :=
  match e with
  | UnitSettles c' i out _ _ _ =>
      if (c' =? c)%nat && unitPending c i s && outcomeFails out then [i] else []
  | _ => []
  end.

(** The number of units of call [c] that fail along a run. *)
Definition failuresOf (c : nat) (events : list Event) (s : App) : nat :=
  length (observe (failedBy c) events s).

(** The value of [Date.now() + index + Math.random()] read by the unit of
    call [c] that succeeds at an event. *)
Definition drawnBy (c : nat) (e : Event) (s : App) : list Num.t :=
  match e with
  | UnitSettles c' i out now rnd _ =>
      if (c' =? c)%nat && unitPending c i s && negb (outcomeFails out)
      then [Num.plusRandom (now + Z.of_nat i) rnd]
      else []
  | _ => []
  end.

(** The values read by the units of call [c] that succeed along a run. *)
Definition idsDrawnBy (c : nat) : list Event → App → list Num.t :=
  observe (drawnBy c).

(** The toasts shown by the resumption of call [c] at an event. *)
Definition toastsBy (c : nat) (e : Event) (s : App) : list Toast :=
  match e with
  | AllSettled c' =>
      if (c' =? c)%nat then drop (length (toasts s)) (toasts (step e s)) else []
  | _ => []
  end.

(** The toasts shown by the resumption of call [c] along a run. *)
Definition completionToasts (c : nat) : list Event → App → list Toast :=
  observe (toastsBy c).

(** The completion notification for [n] successes. *)
Definition completionToast (n : nat) : Toast :=
  if (0 <? n)%nat then ToastGenerated (Z.of_nat n) else ToastGenerateFailed.

(** [a] is a later state of the call [a0]: the constants of the closure and
    the fixed fields of the batch object are those of [a0], and a unit
    still pending in [a] is pending in [a0] on the same request. *)
Definition laterStateOf (a0 a : Activation.t) : Prop :=
  Activation.batchId a = Activation.batchId a0
  ∧ Activation.prompt a = Activation.prompt a0
  ∧ Activation.modelConfig a = Activation.modelConfig a0
  ∧ Activation.currentReferences a = Activation.currentReferences a0
  ∧ Activation.currentModel a = Activation.currentModel a0
  ∧ Activation.currentSize a = Activation.currentSize a0
  ∧ Activation.currentQuality a = Activation.currentQuality a0
  ∧ Activation.currentAspectRatio a = Activation.currentAspectRatio a0
  ∧ Activation.imageCount a = Activation.imageCount a0
  ∧ Batch.id (Activation.batch a) = Batch.id (Activation.batch a0)
  ∧ Batch.prompt (Activation.batch a) = Batch.prompt (Activation.batch a0)
  ∧ Batch.model (Activation.batch a) = Batch.model (Activation.batch a0)
  ∧ Batch.modelName (Activation.batch a) = Batch.modelName (Activation.batch a0)
  ∧ Batch.count (Activation.batch a) = Batch.count (Activation.batch a0)
  ∧ length (Activation.units a) = length (Activation.units a0)
  ∧ ∀ i req,
      Activation.units a !! i = Some (InFlight req) →
      Activation.units a0 !! i = Some (InFlight req).

(** The settings are changed and the prompt is retyped while a batch is in
    flight. *)
Definition settingsChange : list Event :=
  [ SelectModel 3; ClickToggle 2; ClickAspect 1;
    ReferenceLoaded "data:image/png;base64,AAAA"; TypePrompt "a blue whale";
    SaveApiKey "sk-or-other"; IncreaseCount ].

(** ** Invariants of the batches *)

(** The counters of the batch object of a call count its settled units;
    the call has as many units as its loop started; it has resumed only
    if all of them are settled. *)
Definition callInv (a : Activation.t) : Prop :=
  Batch.completed (Activation.batch a) + Batch.failed (Activation.batch a)
  = Z.of_nat (settledUnits a)
  ∧ 0 <= Batch.completed (Activation.batch a)
  ∧ 0 <= Batch.failed (Activation.batch a)
  ∧ length (Activation.units a) = Z.to_nat (Batch.count (Activation.batch a))
  ∧ Batch.id (Activation.batch a) = Activation.batchId a
  ∧ (Activation.resumed a = true → allSettled a = true).

(** The references in [state.pendingBatches] are distinct and point to
    batch objects. *)
Definition pendingInv (s : App) : Prop :=
  NoDup (pendingBatches s)
  ∧ ∀ r, r ∈ pendingBatches s → (r < length (calls s))%nat.

(** A batch object is referenced from [state.pendingBatches] exactly as
    long as its call has not resumed. *)
Definition activeUntilResumed (s : App) : Prop :=
  ∀ c a, calls s !! c = Some a → (c ∈ pendingBatches s ↔ Activation.resumed a = false).

Definition batchesInv (s : App) : Prop :=
  Forall callInv (calls s)
  ∧ pendingInv s
  ∧ (NoDup (batchIds s) → activeUntilResumed s).

(** [batch.completed], [batch.failed] and the resumption flag of call [c]
    (zero and [false] before the call exists). *)
Definition completedOf (c : nat) (s : App) : Z :=
  match calls s !! c with
  | Some a => Batch.completed (Activation.batch a)
  | None => 0
  end.

Definition failedOf (c : nat) (s : App) : Z :=
  match calls s !! c with
  | Some a => Batch.failed (Activation.batch a)
  | None => 0
  end.

Definition resumedOf (c : nat) (s : App) : bool :=
  match calls s !! c with
  | Some a => Activation.resumed a
  | None => false
  end.

(** One image is requested and its unit has settled; the call has not
    resumed yet. *)
Definition lastUnitSettled : list Event :=
  [ TypePrompt "a red fox";
    Generate 1000 7;
    UnitSettles 0 0 (sampleResponse "https://img.example/1.png") 1500 3 1500 ].

(** Two images are requested; unit 1 settles at time 2000 and unit 0 one
    millisecond later, both drawing the same random number. *)
Definition collidingUnits : list Event :=
  [ TypePrompt "a red fox";
    ChangeCount (Some 2);
    Generate 1000 7;
    UnitSettles 0 1 (sampleResponse "https://img.example/b.png") 2000 5 2000;
    UnitSettles 0 0 (sampleResponse "https://img.example/a.png") 2001 5 2001;
    AllSettled 0 ].

(** Three images are requested; one unit gets an image, one gets an HTTP
    error and one a response without image. *)
Definition partialFailure : list Event :=
  [ TypePrompt "a red fox";
    ChangeCount (Some 3);
    Generate 1000 7;
    UnitSettles 0 2 (Response.NotOk 429 (Some "rate limited"%string)) 2000 1 2000;
    DeleteImageAt 0 true;
    UnitSettles 0 0 (sampleResponse "https://img.example/a.png") 2005 2 2005;
    UnitSettles 0 1 (Response.Ok (Response.mkBody (Some []))) 2010 3 2010;
    AllSettled 0 ].

Definition stateAfterLastUnit : App :=
  run lastUnitSettled (init sampleStorage sampleDocument ReadError).

(** Two images are requested and one unit has settled. *)
Definition stateWithPendingUnit : App :=
  run (take 4 collidingUnits) (init sampleStorage sampleDocument ReadError).

(** What the resumption of call [c] has shown in state [s]: nothing
    before it, the completion toast for the successes after it. *)
Definition shownFor (c : nat) (s : App) : list Toast :=
  if resumedOf c s then [completionToast (Z.to_nat (completedOf c s))] else [].

Definition startState : App := init sampleStorage sampleDocument ReadError.





(** ** The cards on the page

    [renderGallery] builds one card per record; the delete button of the
    card at position [index] calls [deleteImage(index)], with the position
    the record had when the card was built.  The cards stay on the page
    until [renderGallery] runs again, which [deleteImage] does only after
    the store has answered. *)
Record Page := mkPage {
  app : App;
  cardsOnPage : list Image.t       (* the records the cards were built from *)
}.

(** The page after [renderGallery]. *)
Definition rendered (s : App) : Page := mkPage s (images s).

(** A click on the delete button of the card at [index]: [deleteImage]
    runs up to its [await], or to its end (and renders) when it finds no
    record. *)
Definition clickDelete (index : nat) (p : Page) : Page :=
  match cardsOnPage p !! index with
  | None => p
  | Some _ =>
      match images (app p) !! index with
      | Some _ => mkPage (deleteImage_request index (app p)) (cardsOnPage p)
      | None => rendered (deleteImage_request index (app p))
      end
  end.

(** The store answers a pending [deleteImage]: the call resumes and
    renders. *)
Definition deleteAnswered (storeOk : bool) (p : Page) : Page :=
  rendered (deleteImage_resume storeOk (app p)).

Definition recordA : Image.t :=
  Image.mk (Num.mk 2000 1) "https://img.example/a.png" "a red fox"
    "openai/gpt-5-image" "GPT-5 Image" "1024x1024" "1K" "1:1" [] 2000.

Definition recordB : Image.t :=
  Image.mk (Num.mk 1000 2) "https://img.example/b.png" "a blue whale"
    "openai/gpt-5-image" "GPT-5 Image" "1024x1024" "1K" "1:1" [] 1000.

(** A gallery that shows [recordA] and [recordB]. *)
Definition galleryAB : App :=
  init sampleStorage sampleDocument (ReadResult [recordA; recordB]).

(** ** Further observations *)

(** The image parts of the content of a request, in order. *)
Definition imageParts (c : Request.content) : list string :=
  match c with
  | Request.Text _ => []
  | Request.Parts parts =>
      omap (λ p, match p with
                 | Request.ImageUrlPart url _ => Some url
                 | Request.TextPart _ => None
                 end) parts
  end.

(** The text that a request carries: the bare prompt, or its text parts. *)
Definition textParts (c : Request.content) : list string :=
  match c with
  | Request.Text prompt => [prompt]
  | Request.Parts parts =>
      omap (λ p, match p with
                 | Request.TextPart text => Some text
                 | Request.ImageUrlPart _ _ => None
                 end) parts
  end.

(** The number of images to request is one the page offers. *)
Definition countInRange (s : App) : Prop := 1 <= imageCount s <= 8.

(** The batch of a call asks for 1 to 8 images and has that many units. *)
Definition callInRange (a : Activation.t) : Prop :=
  1 <= Batch.count (Activation.batch a) <= 8
  ∧ Z.of_nat (length (Activation.units a)) = Batch.count (Activation.batch a).

(** What every request handed to [fetch] satisfies: it carries a
    credential, the model of its batch, which is a model of
    [MODEL_CONFIGS] with the configuration the call holds, and the prompt
    of its batch, not empty, as its only text. *)
Definition requestWellFormed (a : Activation.t) (req : Request.t) : Prop :=
  Js.truthy (Request.authorization req) = true
  ∧ Js.truthy (Activation.prompt a) = true
  ∧ textParts (Request.messageContent req) = [Activation.prompt a]
  ∧ Request.model req = Activation.currentModel a
  ∧ MODEL_CONFIGS (Request.model req) = Some (Activation.modelConfig a).

(** Is the model id a key of [MODEL_CONFIGS]? *)
Definition isKnown (model : string) : bool :=
  match MODEL_CONFIGS model with
  | Some _ => true
  | None => false
  end.

(** Every model id that the state can hand to [generateImages] is a key of
    [MODEL_CONFIGS]: the selected model, the options of the page, the
    models of the records of the gallery and of the open record; and no
    exception has left a handler. *)
Definition modelsKnown (s : App) : Prop :=
  isKnown (selectedModel s) = true
  ∧ Forall (λ m, isKnown m = true) (modelOptions (document s))
  ∧ Forall (λ image, isKnown (Image.model image) = true) (images s)
  ∧ (∀ image, currentImage s = Some image → isKnown (Image.model image) = true)
  ∧ Forall (λ a, isKnown (Activation.currentModel a) = true) (calls s)
  ∧ Uncaught ∉ console s.

(** The records with the time stamp [t], in the order of the list. *)
Definition createdAtTime (t : Z) (l : list Image.t) : list Image.t :=
  List.filter (λ x, Image.createdAt x =? t) l.

(** Three records, the first and the last with the same time stamp. *)
Definition tiedRecords : list Image.t :=
  [ Image.mk (Num.mk 1 0) "https://img.example/a.png" "a" "openai/gpt-5-image"
      "GPT-5 Image" "1024x1024" "1K" "1:1" [] 2000;
    Image.mk (Num.mk 2 0) "https://img.example/b.png" "b" "openai/gpt-5-image"
      "GPT-5 Image" "1024x1024" "1K" "1:1" [] 3000;
    Image.mk (Num.mk 3 0) "https://img.example/c.png" "c" "openai/gpt-5-image"
      "GPT-5 Image" "1024x1024" "1K" "1:1" [] 2000 ]%string.

(** Does the event write [state.references]? *)
Definition editsReferences (e : Event) : bool :=
  match e with
  | ReferenceLoaded _ | RemoveReference _ | ClearReferences | UseAsReference | Recreate =>
      true
  | _ => false
  end.

(** ** The warning before leaving the page (beforeunload) *)

(** The handler of [beforeunload]: [Some n] when it asks for confirmation,
    announcing [n] images still generating, [None] when it lets the page
    go. *)
Definition beforeUnload (s : App) : option Z :=
  if (0 <? length (pendingBatches s))%nat then
    let pendingCount :=
      fold_left
        (λ sum r,
           match Activation.batch <$> calls s !! r with
           | Some batch =>
               sum + (Batch.count batch - Batch.completed batch - Batch.failed batch)
           | None => sum
           end)
        (pendingBatches s) 0 in
    if 0 <? pendingCount then Some pendingCount else None
  else None.

(** The units of a call that are waiting for their [fetch]. *)
Definition inFlightUnits (a : Activation.t) : nat :=
  (length (Activation.units a) - settledUnits a)%nat.

(** The units in flight of the batches of the active set. *)
Definition inFlightOfActive (s : App) : nat :=
  sum_list_with
    (λ r, match calls s !! r with
          | Some a => inFlightUnits a
          | None => 0%nat
          end)
    (pendingBatches s).

(** ** The object store behind ImagenDB

    The store is created with [keyPath: 'id']: [store.put(imageData)]
    replaces the record that has the id of [imageData], if any;
    [store.delete(id)] removes the record with that id; [store.clear()]
    removes every record.  The contents are kept as a list whose order does
    not matter ([getAllImages] sorts what [store.getAll()] returns). *)

Definition storePut (record : Image.t) (store : list Image.t) : list Image.t :=
  record :: filter (λ x, Image.id x ≠ Image.id record) store.

Definition storeDelete (id : Num.t) (store : list Image.t) : list Image.t :=
  filter (λ x, Image.id x ≠ id) store.

(** The effect of a call on [ImagenDB] that succeeds. *)
Definition applyDbCall (c : DbCall) (store : list Image.t) : list Image.t :=
  match c with
  | SaveImage imageData => storePut imageData store
  | DeleteImage id => storeDelete id store
  | ClearAll => []
  end.

(** The store after the calls, in order, each of them succeeding. *)
Definition replayDb (dbcalls : list DbCall) (store : list Image.t) : list Image.t :=
  fold_left (λ store c, applyDbCall c store) dbcalls store.

(** The records of the gallery have pairwise distinct ids, in the state and
    after each event of the run. *)
Fixpoint galleryIdsDistinct (events : list Event) (s : App) : Prop :=
  NoDup (Image.id <$> images s)
  ∧ match events with
    | [] => True
    | e :: events' => galleryIdsDistinct events' (step e s)
    end.

(** ** Dropped and pasted files (handleDrop, handlePaste)

    A file or clipboard item has a media type.  Each file read gets a
    [FileReader] of its own; when a read completes, its [reader.onload]
    pushes the data URL, which is the event [ReferenceLoaded]; the reads
    complete in any order, and a read that fails pushes nothing.  Each
    handler is given as the data URLs of the reads it starts, in the order
    of the files, and the number that its toast announces ([None]: no
    toast). *)

Record DroppedFile := mkDroppedFile { fileType : string; fileDataUrl : string }.

(** A clipboard item; [getAsFile()] may return [null]. *)
Record ClipboardItem := mkClipboardItem { itemType : string; itemFile : option string }.

(** [handleDrop]: the toast counts [files.length]. *)
Definition handleDrop (files : list DroppedFile) : list string * option nat :=
  (fileDataUrl <$> List.filter (λ f, Js.startsWith (fileType f) "image/") files,
   if (0 <? length files)%nat then Some (length files) else None).

(** [handlePaste]: nothing when the focus is in an input that is not a
    text input or when the event carries no clipboard items ([None]);
    [imageCount] counts the image items that gave a file. *)
Definition handlePaste (focusInOtherInput : bool) (items : option (list ClipboardItem))
    : list string * option nat :=
  if focusInOtherInput then ([], None)
  else
    match items with
    | None => ([], None)
    | Some items =>
        let reads :=
          omap (λ item,
                  if Js.startsWith (itemType item) "image/" then itemFile item else None)
            items in
        (reads, if (0 <? length reads)%nat then Some (length reads) else None)
    end.

Definition droppedFiles : list DroppedFile :=
  [ mkDroppedFile "image/png" "data:image/png;base64,AAAA";
    mkDroppedFile "text/plain" "data:text/plain;base64,QUJD";
    mkDroppedFile "image/jpeg" "data:image/jpeg;base64,BBBB" ]%string.

(** ** Opening the database (ImagenDB.open, ImagenDB.ensureOpen)

    [this.db] is kept as a flag (set or [null]), together with the number
    of calls of [indexedDB.open] made so far and the number of those whose
    request is still pending.  Every method of ImagenDB starts with
    [await this.ensureOpen()], which tests [this.db] and, when it is not
    set, calls [open] and suspends; [this.db] is set only when a request
    fires [onsuccess], so a method called while a request is pending calls
    [open] again. *)
Module ImagenDB.
Record t := mk { db : bool; opens : nat; opening : nat }.

(** A method of ImagenDB is called, or a pending request of [open] fires
    [onsuccess] ([ok]) or [onerror]. *)
Inductive event :=
| MethodCall
| OpenSettles (ok : bool).

(** [ensureOpen] up to its [await]. *)
Definition ensureOpen (d : t) : t :=
  if db d then d else mk false (S (opens d)) (S (opening d)).

(** [onsuccess] sets [this.db]; [onerror] leaves it as it is.  Without a
    pending request nothing can fire. *)
Definition step (e : event) (d : t) : t :=
  match e with
  | MethodCall => ensureOpen d
  | OpenSettles ok =>
      match opening d with
      | O => d
      | S n => mk (db d || ok) (opens d) n
      end
  end.

Definition run (events : list event) (d : t) : t :=
  fold_left (λ d e, step e d) events d.

Definition isMethodCall (e : event) : bool :=
  match e with
  | MethodCall => true
  | OpenSettles _ => false
  end.

(** The number of method calls among the events. *)
Definition methodCalls (events : list event) : nat :=
  length (List.filter isMethodCall events).

(** Is the event an [onsuccess]? *)
Definition isSuccess (e : event) : bool :=
  match e with
  | OpenSettles true => true
  | _ => false
  end.
End ImagenDB.

(** ** The options of the Gemini models (updateGeminiOptionsVisibility) *)

(** Is [elements.geminiOptions] displayed? *)
Definition geminiOptionsVisible (s : App) : bool :=
  Js.includes (selectedModel s) "gemini".

(** * Properties *)

(** ** sanitizeImageUrl *)

Section Sanitize.

Lemma hasChar_append c r s :
  Js.hasChar c (r +:+ s) = Js.hasChar c r || Js.hasChar c s.
Proof.
  induction r as [|a r IH]; simpl; [reflexivity|].
  rewrite IH. apply orb_assoc.
Qed.

(** The replaced character is gone when the replacement does not
    contain it. *)
Lemma hasChar_replaceAll_same c r s :
  Js.hasChar c r = false → Js.hasChar c (Js.replaceAll c r s) = false.
Proof.
  intros Hr. induction s as [|a s IH]; simpl; [reflexivity|].
  destruct (Ascii.eqb a c) eqn:E.
  - rewrite hasChar_append, Hr, IH. reflexivity.
  - simpl. rewrite E, IH. reflexivity.
Qed.

(** Replacing another character does not bring a character in. *)
Lemma hasChar_replaceAll_other c c' r s :
  Js.hasChar c r = false → Js.hasChar c s = false →
  Js.hasChar c (Js.replaceAll c' r s) = false.
Proof.
  intros Hr. induction s as [|a s IH]; simpl; [reflexivity|].
  intros Hs. apply orb_false_iff in Hs as [Ha Hs].
  destruct (Ascii.eqb a c').
  - rewrite hasChar_append, Hr, (IH Hs). reflexivity.
  - simpl. rewrite Ha, (IH Hs). reflexivity.
Qed.

(** A prefix free of the replaced character stays a prefix. *)
Lemma startsWith_replaceAll c r p s :
  Js.hasChar c p = false → Js.startsWith s p = true →
  Js.startsWith (Js.replaceAll c r s) p = true.
Proof.
  unfold Js.startsWith. revert s.
  induction p as [|a p IH]; intros s Hp Hs.
  - destruct (Js.replaceAll c r s); reflexivity.
  - simpl in Hp. apply orb_false_iff in Hp as [Ha Hp].
    destruct s as [|b s]; simpl in Hs; [discriminate|].
    destruct (ascii_dec a b) as [->|]; [|discriminate].
    simpl. rewrite Ha. simpl.
    destruct (ascii_dec b b); [|congruence].
    apply IH; assumption.
Qed.

End Sanitize.

(** C10. For every string [url], [sanitizeImageUrl url] is the empty
    string, or begins with [data:image/], or begins with [https://] and
    contains neither a double nor a single quote; and a [url] that begins
    with neither [data:image/] nor [https://] (a [javascript:] or [http:]
    URL for instance) is mapped to the empty string. *)
Theorem sanitizeImageUrl_safe (url : string) :
  (sanitizeImageUrl url = ""%string
   ∨ Js.startsWith (sanitizeImageUrl url) "data:image/" = true
   ∨ (Js.startsWith (sanitizeImageUrl url) "https://" = true
      ∧ Js.hasChar dquote (sanitizeImageUrl url) = false
      ∧ Js.hasChar squote (sanitizeImageUrl url) = false))
  ∧ (Js.startsWith url "data:image/" = false →
     Js.startsWith url "https://" = false →
     sanitizeImageUrl url = ""%string)
  ∧ sanitizeImageUrl "javascript:alert(1)" = ""%string
  ∧ sanitizeImageUrl "http://example.com/a.png" = ""%string.
Proof.
  split; [|split; [|split; reflexivity]].
  - unfold sanitizeImageUrl.
    destruct (negb (Js.truthy url)); [left; reflexivity|].
    destruct (Js.startsWith url "data:image/") eqn:Hd; [right; left; exact Hd|].
    destruct (Js.startsWith url "https://") eqn:Hh; [|left; reflexivity].
    right; right. repeat split.
    + apply startsWith_replaceAll; [reflexivity|].
      apply startsWith_replaceAll; [reflexivity|exact Hh].
    + apply hasChar_replaceAll_other; [reflexivity|].
      apply hasChar_replaceAll_same. reflexivity.
    + apply hasChar_replaceAll_same. reflexivity.
  - intros Hd Hh. unfold sanitizeImageUrl. rewrite Hd, Hh.
    destruct (negb (Js.truthy url)); reflexivity.
Qed.

Lemma sanitizeImageUrl_safe_witness :
  sanitizeImageUrl "ftp://example.com/cat.png" = ""%string.
Proof.
  apply (proj1 (proj2 (sanitizeImageUrl_safe "ftp://example.com/cat.png")));
    reflexivity.
Defined.

(** ** Response interpretation *)

Import Documented.

Lemma truthyOpt_holds o : Js.truthyOpt o = true ↔ ∃ u, holds o u.
Proof.
  unfold holds. destruct o as [[|a s]|]; simpl; split;
    try discriminate; try (intros (u & H & Hu); congruence).
  intros _. eexists. split; [reflexivity|discriminate].
Qed.

Lemma truthyOpt_blank o : Js.truthyOpt o = false ↔ blank o.
Proof.
  unfold blank. destruct o as [[|a s]|]; simpl; split; try tauto; try discriminate.
  intros [H|H]; discriminate.
Qed.

Lemma holds_blank o u : holds o u → blank o → False.
Proof. intros [-> Hu] [H|H]; congruence. Qed.

Lemma holds_inj o u v : holds o u → holds o v → u = v.
Proof. intros [-> _] [H _]. congruence. Qed.

Lemma image_url_url_urlUnder x : image_url_url x = urlUnder x.
Proof. destruct x; reflexivity. Qed.

Lemma imageOfEntry_documented img u : imageOfEntry img = Some u ↔ entryBears img u.
Proof.
  destruct img as [s|o]; simpl.
  - unfold Js.startsWith.
    destruct (String.prefix "data:" s) eqn:Hd; simpl.
    + split.
      * intros [= <-]. apply entry_reference. left. exact Hd.
      * inversion 1 as [| | |? _|? Ha Hb]; subst; [reflexivity|congruence].
    + destruct (String.prefix "http" s) eqn:Hh; split.
      * intros [= <-]. apply entry_reference. right. exact Hh.
      * inversion 1 as [| | |? _|? Ha Hb]; subst; [reflexivity|congruence].
      * intros [= <-]. apply entry_base64; assumption.
      * inversion 1 as [| | |? [Ha|Ha]|? Ha Hb]; subst; try congruence. reflexivity.
  - rewrite image_url_url_urlUnder.
    destruct (Js.truthyOpt (urlUnder (Response.img_image_url o))) eqn:H1.
    { apply truthyOpt_holds in H1 as (w & Hw). split.
      - intros Heq. apply entry_image_url. destruct Hw as [Hw1 Hw2].
        rewrite Hw1 in Heq. injection Heq as <-. split; assumption.
      - inversion 1 as [? ? Ha|? ? Ha Hb|? ? Ha Hb Hc| |]; subst.
        + exact (proj1 Ha).
        + destruct (holds_blank _ _ Hw Ha).
        + destruct (holds_blank _ _ Hw Ha). }
    apply truthyOpt_blank in H1.
    destruct (Js.truthyOpt (Response.img_url o)) eqn:H2.
    { apply truthyOpt_holds in H2 as (w & Hw). split.
      - intros Heq. apply entry_url; [exact H1|]. destruct Hw as [Hw1 Hw2].
        rewrite Hw1 in Heq. injection Heq as <-. split; assumption.
      - inversion 1 as [? ? Ha|? ? Ha Hb|? ? Ha Hb Hc| |]; subst.
        + destruct (holds_blank _ _ Ha H1).
        + exact (proj1 Hb).
        + destruct (holds_blank _ _ Hw Hb). }
    apply truthyOpt_blank in H2.
    destruct (Js.truthyOpt (Response.img_b64_json o)) eqn:H3.
    { apply truthyOpt_holds in H3 as (w & Hw). split.
      - intros Heq. destruct Hw as [Hw1 Hw2]. rewrite Hw1 in Heq. simpl in Heq.
        injection Heq as <-. apply entry_b64_json; [exact H1|exact H2|split; assumption].
      - inversion 1 as [? ? Ha|? ? Ha Hb|? ? Ha Hb Hc| |]; subst.
        + destruct (holds_blank _ _ Ha H1).
        + destruct (holds_blank _ _ Hb H2).
        + destruct Hc as [-> _]. reflexivity. }
    apply truthyOpt_blank in H3. split; [discriminate|].
    inversion 1 as [? ? Ha|? ? Ha Hb|? ? Ha Hb Hc| |]; subst.
    + destruct (holds_blank _ _ Ha H1).
    + destruct (holds_blank _ _ Hb H2).
    + destruct (holds_blank _ _ Hc H3).
Qed.

Lemma typeIs_eq o t : typeIs o t = true ↔ o = Some t.
Proof.
  destruct o as [s|]; simpl; [|split; discriminate].
  rewrite String.eqb_eq. split; congruence.
Qed.

Lemma inlineData_data p : Response.inlineData p ≫= Response.data = inlineDataOf p.
Proof. unfold inlineDataOf. destruct (Response.inlineData p); reflexivity. Qed.

Lemma orDefault_mediaType p :
  orDefault (Response.inlineData p ≫= Response.mimeType) "image/png" = mediaTypeOf p.
Proof.
  unfold mediaTypeOf. destruct (Response.inlineData p) as [[d [[|a m]|]]|]; reflexivity.
Qed.

Lemma imageOfPart_documented p u : imageOfPart p = Some u ↔ partBears p u.
Proof.
  unfold imageOfPart.
  rewrite image_url_url_urlUnder, inlineData_data, orDefault_mediaType.
  destruct (typeIs (Response.type p) "image_url"
            && Js.truthyOpt (urlUnder (Response.part_image_url p))) eqn:H1.
  { apply andb_true_iff in H1 as [Ht Hu]. apply typeIs_eq in Ht.
    apply truthyOpt_holds in Hu as (w & Hw).
    assert (Hurl : isImageUrlPart p) by (split; [exact Ht|exists w; exact Hw]).
    split.
    - intros Heq. destruct Hw as [Hw1 Hw2]. rewrite Hw1 in Heq. injection Heq as <-.
      apply part_image_url; [exact Ht|split; assumption].
    - inversion 1 as [? ? Ha Hb|? ? Ha Hb|? ? Ha Hb Hc Hd He|? ? Ha Hb Hc Hd He]; subst;
        try contradiction.
      exact (proj1 Hb). }
  assert (Hurl : ¬ isImageUrlPart p).
  { intros [Ht Hu]. apply typeIs_eq in Ht. apply truthyOpt_holds in Hu.
    rewrite Ht, Hu in H1. discriminate. }
  assert (Hnot : ∀ v, Response.type p = Some "image_url"%string →
                      holds (urlUnder (Response.part_image_url p)) v → False).
  { intros v Ht Hv. apply Hurl. split; [exact Ht|exists v; exact Hv]. }
  destruct (Js.truthyOpt (inlineDataOf p)) eqn:H2.
  { apply truthyOpt_holds in H2 as (w & Hw). split.
    - intros Heq. destruct Hw as [Hw1 Hw2]. rewrite Hw1 in Heq. simpl in Heq.
      injection Heq as <-. apply part_inline_data; [exact Hurl|split; assumption].
    - inversion 1 as [? ? Ha Hb|? ? Ha Hb|? ? Ha Hb Hc Hd He|? ? Ha Hb Hc Hd He]; subst.
      + destruct (Hnot _ Ha Hb).
      + destruct Hb as [-> _]. reflexivity.
      + destruct (holds_blank _ _ Hw Hb).
      + destruct (holds_blank _ _ Hw Hb). }
  apply truthyOpt_blank in H2.
  destruct (typeIs (Response.type p) "image" && Js.truthyOpt (Response.image p)) eqn:H3.
  { apply andb_true_iff in H3 as [Ht Hi]. apply typeIs_eq in Ht.
    apply truthyOpt_holds in Hi as (w & Hw). split.
    - intros Heq. pose proof Hw as [Hw1 Hw2]. rewrite Hw1 in Heq. simpl in Heq.
      injection Heq as <-. unfold Js.startsWith.
      destruct (String.prefix "data:" w) eqn:Hd.
      + apply part_image_reference; assumption.
      + apply part_image_base64; assumption.
    - inversion 1 as [? ? Ha Hb|? ? Ha Hb|? ? Ha Hb Hc Hd He|? ? Ha Hb Hc Hd He]; subst.
      + destruct (Hnot _ Ha Hb).
      + destruct (holds_blank _ _ Hb H2).
      + destruct Hd as [-> _]. simpl. unfold Js.startsWith. rewrite He. reflexivity.
      + destruct Hd as [-> _]. simpl. unfold Js.startsWith. rewrite He. reflexivity. }
  split; [discriminate|].
  inversion 1 as [? ? Ha Hb|? ? Ha Hb|? ? Ha Hb Hc Hd He|? ? Ha Hb Hc Hd He]; subst.
  - destruct (Hnot _ Ha Hb).
  - destruct (holds_blank _ _ Hb H2).
  - apply typeIs_eq in Hc. assert (Js.truthyOpt (Response.image p) = true)
      by (apply truthyOpt_holds; eexists; exact Hd).
    rewrite Hc in H3. simpl in H3. congruence.
  - apply typeIs_eq in Hc. assert (Js.truthyOpt (Response.image p) = true)
      by (apply truthyOpt_holds; eexists; exact Hd).
    rewrite Hc in H3. simpl in H3. congruence.
Qed.

Lemma imageOfPart_none p : imageOfPart p = None ↔ ∀ v, ¬ partBears p v.
Proof.
  split.
  - intros H v Hv. apply imageOfPart_documented in Hv. congruence.
  - intros H. destruct (imageOfPart p) as [u|] eqn:Hu; [|reflexivity].
    apply imageOfPart_documented in Hu. destruct (H _ Hu).
Qed.

Lemma scanParts_documented parts u :
  scanParts parts = Some u
  ↔ ∃ before p after,
      parts = before ++ p :: after
      ∧ Forall (λ q, ∀ v, ¬ partBears q v) before
      ∧ partBears p u.
Proof.
  induction parts as [|q parts IH]; simpl.
  - split; [discriminate|]. intros (before & p & after & H & _).
    destruct before; discriminate.
  - destruct (imageOfPart q) as [w|] eqn:Hq.
    + split.
      * intros [= <-]. exists [], q, parts. split; [reflexivity|].
        split; [constructor|]. apply imageOfPart_documented. exact Hq.
      * intros (before & p & after & Heq & Hbefore & Hp).
        destruct before as [|b before]; simpl in Heq; injection Heq as <- Heq.
        -- apply imageOfPart_documented in Hp. congruence.
        -- apply Forall_cons in Hbefore as [Hb _].
           apply imageOfPart_documented in Hq. destruct (Hb _ Hq).
    + rewrite IH. split.
      * intros (before & p & after & -> & Hbefore & Hp).
        exists (q :: before), p, after. split; [reflexivity|]. split; [|exact Hp].
        constructor; [apply imageOfPart_none; exact Hq|exact Hbefore].
      * intros (before & p & after & Heq & Hbefore & Hp).
        destruct before as [|b before]; simpl in Heq; injection Heq as <- Heq.
        -- apply imageOfPart_documented in Hp. congruence.
        -- apply Forall_cons in Hbefore as [_ Hbefore].
           exists before, p, after. split; [exact Heq|]. split; assumption.
Qed.

Lemma noImageInList_spec message :
  noImageInList message
  ↔ match Response.images message with
    | Some (img :: _) => imageOfEntry img
    | _ => None
    end = None.
Proof.
  unfold noImageInList, firstEntry.
  destruct (Response.images message) as [[|img imgs]|]; try (split; [reflexivity|discriminate]).
  split.
  - intros H. destruct (imageOfEntry img) as [u|] eqn:Hu; [|reflexivity].
    apply imageOfEntry_documented in Hu. destruct (H img eq_refl _ Hu).
  - intros H img' [= <-] v Hv. apply imageOfEntry_documented in Hv. congruence.
Qed.

(** C4. For every parsed response: the extraction returns a payload
    exactly when the documented shapes give it, the images list being
    looked at first, then the parts of a structured content in their
    order, then the content as a whole when it is a string that begins
    with ['data:image']; the payload is the one of the first place that
    bears an image.  When none bears one, and only then, the extraction
    throws ['No image in response'], its only error; a response without
    message throws ['No response from model']; either way the unit fails
    with an error of the kind [NoImageInResponse]. *)
Theorem extractImage_order (d : Response.body) :
  (∀ message u, extractImage message = inl u ↔ Documented.payload message u)
  ∧ (∀ message,
       extractImage message = inr NoImageInResponse
       ↔ ∀ u, ¬ Documented.payload message u)
  ∧ (∀ message e, extractImage message = inr e → e = NoImageInResponse)
  ∧ (∀ u,
       generateSingleImage_response (Response.Ok d) = inl u
       ↔ ∃ message, firstMessage d = Some message ∧ Documented.payload message u)
  ∧ (firstMessage d = None →
     generateSingleImage_response (Response.Ok d) = inr NoResponseFromModel)
  ∧ match generateSingleImage_response (Response.Ok d) with
    | inl _ => True
    | inr e => errorKind e = Taxonomy.NoImageInResponse
    end.
Proof.
  assert (Hpay : ∀ message u, extractImage message = inl u ↔ payload message u).
  { intros message u. unfold extractImage.
    destruct (match Response.images message with
              | Some (img :: _) => imageOfEntry img
              | _ => None
              end) as [w|] eqn:Hlist.
    { assert (Hfirst : ∃ img, firstEntry message = Some img ∧ entryBears img w).
      { unfold firstEntry. destruct (Response.images message) as [[|img imgs]|];
          try discriminate.
        exists img. split; [reflexivity|]. apply imageOfEntry_documented. exact Hlist. }
      destruct Hfirst as (img & Himg & Hw). split.
      - intros [= <-]. eapply from_images_list; eassumption.
      - inversion 1 as [img' ? Ha Hb|? ? ? ? Ha|? Ha]; subst.
        + rewrite Himg in Ha. injection Ha as <-.
          apply imageOfEntry_documented in Hb, Hw. congruence.
        + destruct (Ha img Himg _ Hw).
        + destruct (Ha img Himg _ Hw). }
    apply noImageInList_spec in Hlist.
    assert (Hno : ∀ img v, firstEntry message = Some img → entryBears img v → False)
      by (intros img v Hi Hv; exact (Hlist img Hi v Hv)).
    destruct (Response.content message) as [parts|s|] eqn:Hcontent.
    - destruct (scanParts parts) as [w|] eqn:Hscan.
      + pose proof (proj1 (scanParts_documented parts w) Hscan)
          as (before & p & after & -> & Hbefore & Hp).
        split.
        * intros [= <-]. eapply from_content_part; eauto.
        * inversion 1 as [img' ? Ha Hb|before' p' after' ? Ha Hb Hc Hd|? Ha Hb]; subst.
          -- destruct (Hno _ _ Ha Hb).
          -- assert (Hscan' : scanParts (before ++ p :: after) = Some u).
             { apply scanParts_documented. exists before', p', after'.
               split; [congruence|]. split; assumption. }
             congruence.
          -- congruence.
      + split; [discriminate|].
        inversion 1 as [img' ? Ha Hb|before' p' after' ? Ha Hb Hc Hd|? Ha Hb]; subst.
        * destruct (Hno _ _ Ha Hb).
        * assert (Hscan' : scanParts parts = Some u).
          { apply scanParts_documented. exists before', p', after'.
            split; [congruence|]. split; assumption. }
          congruence.
        * congruence.
    - unfold Js.startsWith. destruct (String.prefix "data:image" s) eqn:Hs; split.
      + intros [= <-]. apply from_whole_content; assumption.
      + inversion 1 as [img' ? Ha Hb|before' p' after' ? Ha Hb Hc Hd|? Ha Hb Hc]; subst.
        * destruct (Hno _ _ Ha Hb).
        * congruence.
        * congruence.
      + discriminate.
      + inversion 1 as [img' ? Ha Hb|before' p' after' ? Ha Hb Hc Hd|? Ha Hb Hc]; subst.
        * destruct (Hno _ _ Ha Hb).
        * congruence.
        * congruence.
    - split; [discriminate|].
      inversion 1 as [img' ? Ha Hb|before' p' after' ? Ha Hb Hc Hd|? Ha Hb Hc]; subst.
      + destruct (Hno _ _ Ha Hb).
      + congruence.
      + congruence. }
  assert (Herr : ∀ message e, extractImage message = inr e → e = NoImageInResponse).
  { intros message e. unfold extractImage.
    repeat case_match; intros; congruence. }
  assert (Hnone : ∀ message,
            extractImage message = inr NoImageInResponse ↔ ∀ u, ¬ payload message u).
  { intros message. split.
    - intros He u Hu. apply Hpay in Hu. congruence.
    - intros Hno. destruct (extractImage message) as [u|e] eqn:He.
      + apply Hpay in He. destruct (Hno _ He).
      + rewrite (Herr _ _ He). reflexivity. }
  split; [exact Hpay|]. split; [exact Hnone|]. split; [exact Herr|].
  split; [|split].
  - intros u. simpl. destruct (firstMessage d) as [message|]; split.
    + intros He. exists message. split; [reflexivity|]. apply Hpay. exact He.
    + intros (m & [= <-] & Hm). apply Hpay. exact Hm.
    + discriminate.
    + intros (m & Hm & _). discriminate.
  - simpl. intros ->. reflexivity.
  - simpl. destruct (firstMessage d) as [message|]; [|reflexivity].
    destruct (extractImage message) as [u|e] eqn:He; [exact I|].
    rewrite (Herr _ _ He). reflexivity.
Qed.

(** The order of the shapes on a message that matches all three: the
    images list wins over the content parts. *)
Example extractImage_images_first :
  extractImage
    (Response.mkMessage
       (Some [Response.ImgString "https://img.example/a.png"])
       (Response.ContentArray
          [Response.mkPart (Some "image_url"%string)
             (Some (Response.mkImageUrl (Some "https://img.example/b.png"%string)))
             None None]))
  = inl "https://img.example/a.png"%string.
Proof. reflexivity. Qed.

(** A part without image is skipped; an inline part gets its media type. *)
Example extractImage_second_part :
  extractImage
    (Response.mkMessage None
       (Response.ContentArray
          [Response.mkPart (Some "text"%string) None None None;
           Response.mkPart None None
             (Some (Response.mkInline (Some "QUJD"%string) (Some "image/webp"%string)))
             None]))
  = inl "data:image/webp;base64,QUJD"%string.
Proof. reflexivity. Qed.

(** ** Sorting the stored records *)

Section Sorting.

Context {A : Type} (compare : A → A → Z).

Lemma sortInsert_perm x l : Permutation (x :: l) (sortInsert compare x l).
Proof.
  induction l as [|y l IH]; simpl; [reflexivity|].
  destruct (compare x y <=? 0); [reflexivity|].
  rewrite perm_swap. constructor. exact IH.
Qed.

Lemma arraySort_perm l : Permutation l (arraySort compare l).
Proof.
  induction l as [|x l IH]; simpl; [reflexivity|].
  rewrite <- sortInsert_perm. constructor. exact IH.
Qed.

End Sorting.

Lemma sortInsert_newestFirst x l :
  newestFirst l → newestFirst (sortInsert byCreatedAtDesc x l).
Proof.
  unfold newestFirst.
  induction l as [|y l IH]; intros Hl; simpl.
  - repeat constructor.
  - inversion Hl as [|? ? Hl' Hy]; subst.
    unfold byCreatedAtDesc at 1.
    destruct (Z.leb_spec (Image.createdAt y - Image.createdAt x) 0) as [Hle|Hgt].
    + constructor; [exact Hl|].
      constructor; [lia|].
      eapply Forall_impl; [exact Hy|]. simpl. intros b Hb. lia.
    + constructor; [apply IH; exact Hl'|].
      rewrite <- (sortInsert_perm byCreatedAtDesc x l).
      constructor; [lia|exact Hy].
Qed.

Lemma arraySort_newestFirst l : newestFirst (arraySort byCreatedAtDesc l).
Proof.
  induction l as [|x l IH]; simpl.
  - constructor.
  - apply sortInsert_newestFirst, IH.
Qed.

(** C5. At start-up the gallery is the stored records sorted newest first
    (the same records, in the order of [createdAt] descending); when the
    read of the store fails the gallery is empty and no error leaves
    [init]. *)
Theorem init_loads_sorted_or_empty (ls : LocalStorage) (doc : Document) :
  (∀ records,
     images (init ls doc (ReadResult records)) = arraySort byCreatedAtDesc records
     ∧ newestFirst (images (init ls doc (ReadResult records)))
     ∧ Permutation records (images (init ls doc (ReadResult records))))
  ∧ images (init ls doc ReadError) = []
  ∧ console (init ls doc ReadError) = [LoadFailed].
Proof.
  split; [|split; reflexivity].
  intros records. simpl. repeat split.
  - apply arraySort_newestFirst.
  - apply arraySort_perm.
Qed.

(** ** Frame lemmas for the loops of [recreateImage] *)

Lemma fold_left_frame {X B} (proj : App → X) (g : App → B → App) l s :
  (∀ s b, proj (g s b) = proj s) → proj (fold_left g l s) = proj s.
Proof.
  intros Hg. revert s. induction l as [|b l IH]; intros s; simpl; [reflexivity|].
  rewrite IH. apply Hg.
Qed.

Ltac frame_restore :=
  unfold restoreQuality, restoreAspectRatio;
  apply fold_left_frame; intros ? ?; simpl; case_match; reflexivity.

Lemma restoreAspectRatio_document r s : document (restoreAspectRatio r s) = document s.
Proof. frame_restore. Qed.
Lemma restoreQuality_calls q s : calls (restoreQuality q s) = calls s.
Proof. frame_restore. Qed.
Lemma restoreAspectRatio_calls r s : calls (restoreAspectRatio r s) = calls s.
Proof. frame_restore. Qed.
Lemma restoreQuality_pendingBatches q s :
  pendingBatches (restoreQuality q s) = pendingBatches s.
Proof. frame_restore. Qed.
Lemma restoreAspectRatio_pendingBatches r s :
  pendingBatches (restoreAspectRatio r s) = pendingBatches s.
Proof. frame_restore. Qed.
Lemma restoreQuality_toasts q s : toasts (restoreQuality q s) = toasts s.
Proof. frame_restore. Qed.
Lemma restoreAspectRatio_toasts r s : toasts (restoreAspectRatio r s) = toasts s.
Proof. frame_restore. Qed.


(** ** Gallery order *)



Lemma run_cons e events s : run (e :: events) s = run events (step e s).
Proof. reflexivity. Qed.

Lemma run_app events1 events2 s :
  run (events1 ++ events2) s = run events2 (run events1 s).
Proof. unfold run. apply fold_left_app. Qed.

Lemma clockMonotone_weaken events last last' :
  last' <= last → clockMonotone last events → clockMonotone last' events.
Proof.
  revert last last'. induction events as [|e events IH]; intros last last' Hle; simpl;
    [trivial|].
  destruct e; try (apply IH; exact Hle).
  intros [H1 H2]. split; [lia|exact H2].
Qed.


Lemma init_images ls doc r :
  images (init ls doc r) = arraySort byCreatedAtDesc (storedRecords r).
Proof. destruct r; reflexivity. Qed.





(** ** Deleting and clearing *)

(** X23. [deleteImage(index)] works on the position: with a record at
    [index] it removes that record and no other from the gallery and makes
    one store-delete call, with the id of that record; without a record at
    [index] it changes neither the gallery nor the calls on the store, but
    logs a warning; the gallery after a failed store delete is the gallery
    after a successful one, the failure being logged and not thrown; and
    the toast 'Image deleted' is shown in every case. *)
Theorem deleteImage_removes_exactly_one (s : App) (index : nat) (storeOk : bool) :
  match images s !! index with
  | Some image =>
      images s = take index (images s) ++ image :: drop (S index) (images s)
      ∧ images (deleteImage index storeOk s)
        = take index (images s) ++ drop (S index) (images s)
      ∧ dbCalls (deleteImage index storeOk s)
        = dbCalls s ++ [DeleteImage (Image.id image)]
      ∧ console (deleteImage index storeOk s)
        = console s ++ (if storeOk then [] else [DeleteFailed])
  | None =>
      images (deleteImage index storeOk s) = images s
      ∧ dbCalls (deleteImage index storeOk s) = dbCalls s
      ∧ console (deleteImage index storeOk s) = console s ++ [DeleteFailed]
  end
  ∧ images (deleteImage index false s) = images (deleteImage index true s)
  ∧ toasts (deleteImage index storeOk s) = toasts s ++ [ToastImageDeleted].
Proof.
  split; [|split].
  - destruct (images s !! index) as [image|] eqn:Hi.
    + repeat split.
      * symmetry. apply take_drop_middle. exact Hi.
      * unfold deleteImage. rewrite Hi. destruct storeOk; simpl; apply delete_take_drop.
      * unfold deleteImage. rewrite Hi. destruct storeOk; reflexivity.
      * unfold deleteImage. rewrite Hi. destruct storeOk; simpl;
          [rewrite app_nil_r|]; reflexivity.
    + repeat split; unfold deleteImage; rewrite Hi; simpl; try reflexivity.
      apply lookup_ge_None in Hi.
      rewrite delete_take_drop, take_ge, drop_ge by lia. apply app_nil_r.
  - unfold deleteImage. destruct (images s !! index); reflexivity.
  - unfold deleteImage. destruct (images s !! index); [destruct storeOk|]; reflexivity.
Qed.

(** [deleteImage] as one step is its two parts, run one after the other. *)
Lemma deleteImage_split index storeOk s :
  deleteImage index storeOk s
  = match images s !! index with
    | Some _ => deleteImage_resume storeOk (deleteImage_request index s)
    | None => deleteImage_request index s
    end.
Proof.
  unfold deleteImage, deleteImage_request, deleteImage_resume.
  destruct (images s !! index); [destruct storeOk|]; reflexivity.
Qed.

Lemma delete_out_of_range {X} (l : list X) i : l !! i = None → delete i l = l.
Proof.
  intros H. apply lookup_ge_None in H.
  rewrite delete_take_drop, take_ge, drop_ge by lia. apply app_nil_r.
Qed.

(** Without a second click in between, a click and the answer of the store
    make up [deleteImage] as one step. *)
Lemma clickDelete_answered index storeOk s a :
  images s !! index = Some a →
  deleteAnswered storeOk (clickDelete index (rendered s))
  = rendered (deleteImage index storeOk s).
Proof.
  intros Ha. unfold deleteAnswered, clickDelete. simpl. rewrite Ha.
  rewrite deleteImage_split, Ha. reflexivity.
Qed.

(** C7. The claim fails on a second click.  With a record [a] at
    [index], a click on the delete button of its card removes [a] and
    calls the store with the id of [a]; the card of [a] stays on the page
    until the store has answered.  A second click on that button before
    the answer runs [deleteImage(index)] again: when a record [b] followed
    [a], it is [b] that is removed from the gallery and deleted from the
    store, although its card was never clicked; when no record followed
    [a], the call finds nothing to delete and is still not a no-op: it logs
    a warning and shows 'Image deleted'. *)
Theorem deleteImage_second_click (s : App) (index : nat) (a : Image.t)
    (Ha : images s !! index = Some a) :
  cardsOnPage (clickDelete index (rendered s)) !! index = Some a
  ∧ images (app (clickDelete index (rendered s))) = delete index (images s)
  ∧ dbCalls (app (clickDelete index (rendered s)))
    = dbCalls s ++ [DeleteImage (Image.id a)]
  ∧ match images s !! S index with
    | Some b =>
        images (app (clickDelete index (clickDelete index (rendered s))))
        = delete index (delete index (images s))
        ∧ dbCalls (app (clickDelete index (clickDelete index (rendered s))))
          = dbCalls s ++ [DeleteImage (Image.id a); DeleteImage (Image.id b)]
    | None =>
        app (clickDelete index (clickDelete index (rendered s)))
        = showToast ToastImageDeleted
            (logConsole DeleteFailed (app (clickDelete index (rendered s))))
    end.
Proof.
  set (s1 := deleteImage_request index s).
  assert (Himg1 : images s1 = delete index (images s))
    by (unfold s1, deleteImage_request; rewrite Ha; reflexivity).
  assert (Hdb1 : dbCalls s1 = dbCalls s ++ [DeleteImage (Image.id a)])
    by (unfold s1, deleteImage_request; rewrite Ha; reflexivity).
  assert (Hnext : images s1 !! index = images s !! S index)
    by (rewrite Himg1; apply list_lookup_delete_ge; lia).
  assert (H1 : clickDelete index (rendered s) = mkPage s1 (images s))
    by (unfold clickDelete; cbn [rendered cardsOnPage app]; rewrite Ha; reflexivity).
  assert (H2 : clickDelete index (mkPage s1 (images s))
               = match images s1 !! index with
                 | Some _ => mkPage (deleteImage_request index s1) (images s)
                 | None => rendered (deleteImage_request index s1)
                 end)
    by (unfold clickDelete; cbn [cardsOnPage app]; rewrite Ha; reflexivity).
  rewrite H1, H2, Hnext. cbn [cardsOnPage app].
  split; [exact Ha|]. split; [exact Himg1|]. split; [exact Hdb1|].
  destruct (images s !! S index) as [b|] eqn:Hb; cbn [app rendered].
  - unfold deleteImage_request. rewrite Hnext.
    cbn [images dbCalls callDb set_dbCalls set_images].
    rewrite Himg1, Hdb1, <- app_assoc. split; reflexivity.
  - unfold deleteImage_request at 1. rewrite Hnext.
    rewrite (delete_out_of_range (images s1) index) by exact Hnext.
    destruct s1; reflexivity.
Qed.

Lemma deleteImage_second_click_witness :
  images (app (clickDelete 0 (clickDelete 0 (rendered galleryAB)))) = []
  ∧ dbCalls (app (clickDelete 0 (clickDelete 0 (rendered galleryAB))))
    = [DeleteImage (Image.id recordA); DeleteImage (Image.id recordB)].
Proof.
  pose proof (deleteImage_second_click galleryAB 0 recordA eq_refl) as (_ & _ & _ & H).
  exact H.
Defined.

(** The only record of a gallery, deleted with a double click: the second
    call finds no record, logs a warning and shows the toast a second time
    once the store has answered the first. *)
Example deleteImage_double_click_single :
  let page :=
    deleteAnswered true
      (clickDelete 0
         (clickDelete 0
            (rendered (init sampleStorage sampleDocument (ReadResult [recordA]))))) in
  images (app page) = []
  ∧ dbCalls (app page) = [DeleteImage (Image.id recordA)]
  ∧ console (app page) = [DeleteFailed]
  ∧ toasts (app page) = [ToastImageDeleted; ToastImageDeleted].
Proof. vm_compute. repeat split; reflexivity. Qed.

(** C8. Once confirmed, the clear handler leaves the gallery empty whether
    the store-wide clear succeeds or fails; a failure is logged and not
    thrown. *)
Theorem clearGallery_always_empties (s : App) (storeOk : bool) :
  images (clearGallery true storeOk s) = []
  ∧ dbCalls (clearGallery true storeOk s) = dbCalls s ++ [ClearAll]
  ∧ console (clearGallery true storeOk s)
    = console s ++ (if storeOk then [] else [ClearFailed])
  ∧ toasts (clearGallery true storeOk s) = toasts s ++ [ToastGalleryCleared].
Proof.
  destruct storeOk; simpl; rewrite ?app_nil_r; repeat split; reflexivity.
Qed.

(** ** Recreate *)







(** ** The shape of a step on the batches *)

Lemma fmap_const_seq {X} (x : X) n : ∀ k, (λ _ : nat, x) <$> seq k n = replicate n x.
Proof. induction n as [|n IH]; intros k; simpl; [reflexivity|]. f_equal. apply IH. Qed.

(** An accepted submission appends one call and one pending reference. *)
Lemma generateImages_accepted s now rnd cfg :
  Js.truthy (Js.trim (promptInput s)) = true →
  Js.truthy (apiKey s) = true →
  MODEL_CONFIGS (selectedModel s) = Some cfg →
  calls (generateImages now rnd s) = calls s ++ [submittedCall s now rnd cfg]
  ∧ pendingBatches (generateImages now rnd s) = pendingBatches s ++ [length (calls s)]
  ∧ images (generateImages now rnd s) = images s
  ∧ toasts (generateImages now rnd s) = toasts s ++ [ToastQueued (imageCount s)].
Proof.
  intros Hp Hk Hc. unfold generateImages, submittedCall. rewrite Hp, Hk, Hc. simpl.
  rewrite fmap_const_seq. repeat split; reflexivity.
Qed.

(** A rejected submission creates nothing. *)
Lemma generateImages_rejected s now rnd :
  (Js.truthy (Js.trim (promptInput s)) = false
   ∨ Js.truthy (apiKey s) = false
   ∨ MODEL_CONFIGS (selectedModel s) = None) →
  calls (generateImages now rnd s) = calls s
  ∧ pendingBatches (generateImages now rnd s) = pendingBatches s.
Proof.
  intros H. unfold generateImages.
  destruct (Js.truthy (Js.trim (promptInput s))); [|split; reflexivity].
  destruct (Js.truthy (apiKey s)); [|split; reflexivity].
  destruct (MODEL_CONFIGS (selectedModel s)); [|split; reflexivity].
  destruct H as [H|[H|H]]; discriminate.
Qed.

(** What a step does to the calls and to [state.pendingBatches]: nothing,
    a submission, the settlement of a pending unit, or the resumption of a
    call whose units are all settled. *)
Lemma step_shape e s :
  (calls (step e s) = calls s ∧ pendingBatches (step e s) = pendingBatches s)
  ∨ (∃ now rnd cfg,
       e = Generate now rnd
       ∧ Js.truthy (Js.trim (promptInput s)) = true
       ∧ Js.truthy (apiKey s) = true
       ∧ MODEL_CONFIGS (selectedModel s) = Some cfg
       ∧ calls (step e s) = calls s ++ [submittedCall s now rnd cfg]
       ∧ pendingBatches (step e s) = pendingBatches s ++ [length (calls s)])
  ∨ (∃ c i out now rnd created a req f,
       e = UnitSettles c i out now rnd created
       ∧ calls s !! c = Some a
       ∧ Activation.units a !! i = Some (InFlight req)
       ∧ f = (if outcomeFails out then Batch.incrFailed else Batch.incrCompleted)
       ∧ calls (step e s) = <[c := settleUnit f i a]> (calls s)
       ∧ pendingBatches (step e s) = pendingBatches s)
  ∨ (∃ c a,
       e = AllSettled c
       ∧ calls s !! c = Some a
       ∧ allSettled a = true
       ∧ Activation.resumed a = false
       ∧ calls (step e s) = <[c := Activation.set_resumed true a]> (calls s)
       ∧ pendingBatches (step e s)
         = match findBatchIndex
                   (set_calls (<[c := Activation.set_resumed true a]> (calls s)) s)
                   (Activation.batchId a) with
           | Some j => delete j (pendingBatches s)
           | None => pendingBatches s
           end).
Proof.
  destruct e; simpl.
  all: try (left; split; reflexivity).
  - left. unfold selectModel. case_match; split; reflexivity.
  - left. unfold clickToggle. repeat case_match; split; reflexivity.
  - left. unfold clickAspect. case_match; split; reflexivity.
  - left. unfold decreaseCount. case_match; split; reflexivity.
  - left. unfold increaseCount. case_match; split; reflexivity.
  - destruct (Js.truthy (Js.trim (promptInput s))) eqn:Hp;
      [|left; apply generateImages_rejected; auto].
    destruct (Js.truthy (apiKey s)) eqn:Hk;
      [|left; apply generateImages_rejected; auto].
    destruct (MODEL_CONFIGS (selectedModel s)) as [cfg|] eqn:Hc;
      [|left; apply generateImages_rejected; auto].
    right; left. exists now, rnd, cfg.
    destruct (generateImages_accepted s now rnd cfg Hp Hk Hc) as (H1 & H2 & _).
    repeat split; assumption.
  - unfold generateAndDisplay_resume.
    destruct (calls s !! call) as [a|] eqn:Ha; [|left; split; reflexivity].
    destruct (Activation.units a !! index) as [[req|]|] eqn:Hu;
      try (left; split; reflexivity).
    right; right; left.
    exists call, index, out, now, rnd, created, a, req.
    eexists. split; [reflexivity|]. split; [exact Ha|]. split; [exact Hu|].
    split; [reflexivity|].
    unfold outcomeFails.
    destruct (generateSingleImage_response out) as [result|err];
      [destruct (Js.truthy result)|]; split; reflexivity.
  - unfold generateImages_resume.
    destruct (calls s !! call) as [a|] eqn:Ha; [|left; split; reflexivity].
    destruct (allSettled a) eqn:Hall; [|left; split; reflexivity].
    destruct (Activation.resumed a) eqn:Hres; [left; split; reflexivity|].
    right; right; right. exists call, a. simpl.
    split; [reflexivity|]. split; [exact Ha|]. split; [exact Hall|].
    split; [exact Hres|].
    destruct (findBatchIndex _ _); destruct (0 <? _); split; reflexivity.
  - left. unfold deleteImage. repeat case_match; split; reflexivity.
  - left. unfold clearGallery. repeat case_match; split; reflexivity.
  - left. unfold openModal. case_match; split; reflexivity.
  - left. unfold useImageAsReference. case_match; split; reflexivity.
  - left. unfold recreateImage. destruct (currentImage s); [|split; reflexivity].
    case_match; simpl;
      rewrite ?restoreAspectRatio_calls, ?restoreQuality_calls,
        ?restoreAspectRatio_pendingBatches, ?restoreQuality_pendingBatches;
      split; reflexivity.
Qed.

(** ** The values captured at submission *)

Lemma laterStateOf_refl a : laterStateOf a a.
Proof. unfold laterStateOf. repeat split; auto. Qed.

Lemma laterStateOf_settleUnit a0 a f i :
  (f = Batch.incrFailed ∨ f = Batch.incrCompleted) →
  laterStateOf a0 a → laterStateOf a0 (settleUnit f i a).
Proof.
  intros Hf H. unfold laterStateOf in *.
  destruct H as (H1&H2&H3&H4&H5&H6&H7&H8&H9&H10&H11&H12&H13&H14&H15&H16).
  assert (Hb : Batch.id (f (Activation.batch a)) = Batch.id (Activation.batch a)
               ∧ Batch.prompt (f (Activation.batch a)) = Batch.prompt (Activation.batch a)
               ∧ Batch.model (f (Activation.batch a)) = Batch.model (Activation.batch a)
               ∧ Batch.modelName (f (Activation.batch a))
                 = Batch.modelName (Activation.batch a)
               ∧ Batch.count (f (Activation.batch a)) = Batch.count (Activation.batch a))
    by (destruct Hf as [-> | ->]; repeat split; reflexivity).
  destruct Hb as (B1&B2&B3&B4&B5). simpl.
  rewrite B1, B2, B3, B4, B5, length_insert.
  repeat split; try assumption.
  intros j req Hj. apply H16.
  destruct (decide (i = j)) as [->|Hne].
  - destruct (decide (j < length (Activation.units a))%nat) as [Hlt|Hge].
    + rewrite list_lookup_insert_eq in Hj by exact Hlt. discriminate.
    + rewrite list_insert_ge in Hj by lia. exact Hj.
  - rewrite list_lookup_insert_ne in Hj by exact Hne. exact Hj.
Qed.

Lemma laterStateOf_set_resumed a0 a r :
  laterStateOf a0 a → laterStateOf a0 (Activation.set_resumed r a).
Proof. intros H. exact H. Qed.

(** A step keeps every call, in a later state. *)
Lemma step_laterStateOf e s c a0 a :
  calls s !! c = Some a → laterStateOf a0 a →
  ∃ a', calls (step e s) !! c = Some a' ∧ laterStateOf a0 a'.
Proof.
  intros Hc Hl.
  destruct (step_shape e s) as [[Heq _]|[Hgen|[Hset|Hres]]].
  - exists a. rewrite Heq. split; assumption.
  - destruct Hgen as (now & rnd & cfg & _ & _ & _ & _ & Heq & _).
    exists a. rewrite Heq. split; [|exact Hl].
    apply lookup_app_l_Some. exact Hc.
  - destruct Hset as (c' & i & out & now & rnd & created & a1 & req & f
                      & _ & Ha1 & _ & Hf & Heq & _).
    rewrite Heq.
    destruct (decide (c' = c)) as [->|Hne].
    + rewrite Hc in Ha1. injection Ha1 as <-.
      exists (settleUnit f i a). split.
      * apply list_lookup_insert_eq. eapply lookup_lt_Some. exact Hc.
      * apply laterStateOf_settleUnit; [|exact Hl].
        rewrite Hf. destruct (outcomeFails out); auto.
    + exists a. rewrite list_lookup_insert_ne by exact Hne. split; assumption.
  - destruct Hres as (c' & a1 & _ & Ha1 & _ & _ & Heq & _).
    rewrite Heq.
    destruct (decide (c' = c)) as [->|Hne].
    + rewrite Hc in Ha1. injection Ha1 as <-.
      exists (Activation.set_resumed true a). split.
      * apply list_lookup_insert_eq. eapply lookup_lt_Some. exact Hc.
      * apply laterStateOf_set_resumed. exact Hl.
    + exists a. rewrite list_lookup_insert_ne by exact Hne. split; assumption.
Qed.

Lemma run_laterStateOf events : ∀ s c a0 a,
  calls s !! c = Some a → laterStateOf a0 a →
  ∃ a', calls (run events s) !! c = Some a' ∧ laterStateOf a0 a'.
Proof.
  induction events as [|e events IH]; intros s c a0 a Hc Hl.
  - exists a. split; assumption.
  - rewrite run_cons.
    destruct (step_laterStateOf e s c a0 a Hc Hl) as (a1 & Hc1 & Hl1).
    exact (IH _ _ _ _ Hc1 Hl1).
Qed.

(** C3. Let a submission be accepted in state [s], and let any events
    follow (changes of the settings among them).  Every unit of the batch
    has been handed, at submission, the request built from the prompt, the
    model, the references and the sizing parameters of [s]; a unit that is
    still pending later is pending on that request; the record of a unit
    that later settles with an image carries the prompt, the model id, the
    model display name, the size, quality and aspect ratio and the
    references of [s]; and the batch object keeps the prompt, model and
    display name of [s]. *)
Theorem batch_uses_submission_values
    (s : App) (now : Z) (rnd : N) (cfg : Config.t) (events : list Event)
    (Hprompt : Js.truthy (Js.trim (promptInput s)) = true)
    (Hkey : Js.truthy (apiKey s) = true)
    (Hcfg : MODEL_CONFIGS (selectedModel s) = Some cfg) :
  let c := length (calls s) in
  let request := generateSingleImage_request s (Js.trim (promptInput s)) cfg in
  let later := run events (generateImages now rnd s) in
  (∃ a,
     calls (generateImages now rnd s) !! c = Some a
     ∧ Activation.units a = replicate (Z.to_nat (imageCount s)) (InFlight request))
  ∧ (∃ a,
       calls later !! c = Some a
       ∧ Batch.prompt (Activation.batch a) = Js.trim (promptInput s)
       ∧ Batch.model (Activation.batch a) = selectedModel s
       ∧ Batch.modelName (Activation.batch a) = Config.name cfg
       ∧ ∀ i req, Activation.units a !! i = Some (InFlight req) → req = request)
  ∧ (∀ i out now' rnd' created result,
       unitPending c i later = true →
       generateSingleImage_response out = inl result →
       Js.truthy result = true →
       images (step (UnitSettles c i out now' rnd' created) later)
       = Image.mk (Num.plusRandom (now' + Z.of_nat i) rnd') result
           (Js.trim (promptInput s)) (selectedModel s) (Config.name cfg)
           (imageSize s) (imageQuality s) (aspectRatio s) (references s) created
         :: images later).
Proof.
  intros c request later.
  destruct (generateImages_accepted s now rnd cfg Hprompt Hkey Hcfg) as (Hcalls & _).
  assert (H0 : calls (generateImages now rnd s) !! c = Some (submittedCall s now rnd cfg)).
  { rewrite Hcalls. subst c. rewrite lookup_app_r by lia.
    rewrite Nat.sub_diag. reflexivity. }
  destruct (run_laterStateOf events _ c _ _ H0 (laterStateOf_refl _)) as (a & Ha & Hl).
  fold later in Ha.
  destruct Hl as (H1&H2&H3&H4&H5&H6&H7&H8&H9&H10&H11&H12&H13&H14&H15&H16).
  simpl in *.
  assert (Hreq : ∀ i req, Activation.units a !! i = Some (InFlight req) → req = request).
  { intros i req Hi. apply H16 in Hi.
    apply lookup_replicate in Hi as [Hi _]. injection Hi as ->. reflexivity. }
  split; [exists (submittedCall s now rnd cfg); split; [exact H0|reflexivity]|].
  split; [exists a; repeat split; assumption|].
  intros i out now' rnd' created result Hpend Hout Htruthy.
  unfold unitPending in Hpend. rewrite Ha in Hpend.
  simpl. unfold generateAndDisplay_resume. rewrite Ha.
  destruct (Activation.units a !! i) as [[req|]|]; try discriminate.
  rewrite Hout, Htruthy. simpl. unfold imageDataOf.
  rewrite H2, H3, H4, H5, H6, H7, H8. reflexivity.
Qed.

Lemma batch_uses_submission_values_witness :
  images
    (step (UnitSettles 0 0 (sampleResponse "https://img.example/1.png") 1500 3 1500)
       (run settingsChange
          (generateImages 1000 7
             (run [TypePrompt "  a red fox "]
                (init sampleStorage sampleDocument ReadError)))))
  = [ Image.mk (Num.mk 1500 3) "https://img.example/1.png" "a red fox"
        "google/gemini-2.5-flash-image" "Gemini 2.5 Flash Image"
        "1024x1024" "1K" "1:1" [] 1500 ].
Proof.
  exact (proj2 (proj2
           (batch_uses_submission_values
              (run [TypePrompt "  a red fox "] (init sampleStorage sampleDocument ReadError))
              1000 7 (Config.mk "Gemini 2.5 Flash Image" true true true 3)
              settingsChange eq_refl eq_refl eq_refl))
           0%nat (sampleResponse "https://img.example/1.png") 1500 3%N 1500
           "https://img.example/1.png"%string eq_refl eq_refl eq_refl).
Defined.

(** ** Lists: settled units and deletion *)

Lemma settledUnits_replicate n req :
  length (List.filter isSettled (replicate n (InFlight req))) = 0%nat.
Proof. induction n as [|n IH]; simpl; [reflexivity|exact IH]. Qed.

Lemma settled_insert units : ∀ i req,
  units !! i = Some (InFlight req) →
  length (List.filter isSettled (<[i := Settled]> units))
  = S (length (List.filter isSettled units)).
Proof.
  induction units as [|u units IH]; intros i req Hi; [discriminate|].
  destruct i as [|i]; simpl in *.
  - injection Hi as ->. reflexivity.
  - destruct (isSettled u); simpl; rewrite (IH i req Hi); reflexivity.
Qed.

Lemma forallb_settled units :
  forallb isSettled units = true → List.filter isSettled units = units.
Proof.
  induction units as [|u units IH]; simpl; [reflexivity|].
  destruct (isSettled u); [|discriminate].
  simpl. intros H. rewrite (IH H). reflexivity.
Qed.

Lemma forallb_settled_lookup units i req :
  forallb isSettled units = true → units !! i = Some (InFlight req) → False.
Proof.
  revert i. induction units as [|u units IH]; intros i Hall Hi; [discriminate|].
  simpl in Hall. apply andb_true_iff in Hall as [Hu Hall].
  destruct i as [|i]; simpl in Hi.
  - injection Hi as ->. discriminate.
  - exact (IH i Hall Hi).
Qed.

Lemma filter_length_le {X} (p : X → bool) l : (length (List.filter p l) <= length l)%nat.
Proof.
  induction l as [|x l IH]; simpl; [lia|]. destruct (p x); simpl; lia.
Qed.

(** In a list without duplicates, deleting the position of [x] removes
    [x] and nothing else. *)
Lemma elem_of_delete_NoDup {X} (l : list X) : ∀ j x y,
  NoDup l → l !! j = Some x → (y ∈ delete j l ↔ y ∈ l ∧ y ≠ x).
Proof.
  induction l as [|z l IH]; intros j x y Hnd Hj; [discriminate|].
  apply NoDup_cons in Hnd as [Hz Hnd].
  destruct j as [|j]; simpl in *.
  - injection Hj as ->. rewrite elem_of_cons. split.
    + intros Hy. split; [right; exact Hy|]. intros ->. contradiction.
    + intros [[->|Hy] Hne]; [contradiction|exact Hy].
  - rewrite !elem_of_cons, (IH j x y Hnd Hj). split.
    + intros [->|[Hy Hne]].
      * split; [left; reflexivity|]. intros ->.
        apply Hz. eapply list_elem_of_lookup_2. exact Hj.
      * split; [right; exact Hy|exact Hne].
    + intros [[->|Hy] Hne]; [left; reflexivity|right; split; assumption].
Qed.

Lemma NoDup_delete_index {X} (l : list X) j : NoDup l → NoDup (delete j l).
Proof.
  intros H. eapply sublist_NoDup; [exact H|apply sublist_delete].
Qed.

(** ** The invariant of the batches *)

Lemma fmap_insert_same {X Y} (f : X → Y) (l : list X) c a a' :
  l !! c = Some a → f a' = f a → f <$> <[c := a']> l = f <$> l.
Proof.
  intros Hc Hf. rewrite list_fmap_insert. apply list_insert_id.
  rewrite list_lookup_fmap, Hc. simpl. congruence.
Qed.

Lemma callInv_submittedCall s now rnd cfg : callInv (submittedCall s now rnd cfg).
Proof.
  unfold callInv, settledUnits. simpl.
  rewrite settledUnits_replicate, length_replicate.
  repeat split; try lia; try reflexivity.
Qed.

Lemma callInv_settleUnit a i req out :
  Activation.units a !! i = Some (InFlight req) →
  callInv a →
  callInv (settleUnit (if outcomeFails out then Batch.incrFailed else Batch.incrCompleted) i a).
Proof.
  intros Hi (H1 & H2 & H3 & H4 & H5 & H6).
  unfold callInv, settledUnits in *. simpl.
  rewrite (settled_insert _ i req Hi), length_insert.
  assert (Hres : Activation.resumed a = true → False).
  { intros Hr. apply H6 in Hr. unfold allSettled in Hr.
    exact (forallb_settled_lookup _ _ _ Hr Hi). }
  destruct (outcomeFails out); simpl; repeat split; try lia; try assumption;
    intros Hr; destruct (Hres Hr).
Qed.

Lemma callInv_set_resumed a :
  allSettled a = true → callInv a → callInv (Activation.set_resumed true a).
Proof.
  intros Hall (H1 & H2 & H3 & H4 & H5 & H6).
  unfold callInv, settledUnits in *. simpl.
  repeat split; try assumption. intros _. exact Hall.
Qed.

Lemma init_batchesInv ls doc r : batchesInv (init ls doc r).
Proof.
  assert (Hc : calls (init ls doc r) = []) by (destruct r; reflexivity).
  assert (Hp : pendingBatches (init ls doc r) = []) by (destruct r; reflexivity).
  unfold batchesInv, pendingInv, activeUntilResumed. rewrite Hc, Hp.
  split; [constructor|]. split; [split; [constructor|]|].
  - intros r0 Hr0. apply elem_of_nil in Hr0. contradiction.
  - intros _ c a Hca. discriminate.
Qed.

(** The resumption of a call finds its own batch object when the ids of
    the batch objects are distinct. *)
Lemma findBatchIndex_own s c a :
  NoDup (batchIds s) →
  calls s !! c = Some a →
  Batch.id (Activation.batch a) = Activation.batchId a →
  c ∈ pendingBatches s →
  ∃ j, findBatchIndex s (Activation.batchId a) = Some j ∧ pendingBatches s !! j = Some c.
Proof.
  intros Hnd Hc Hid Hin. unfold findBatchIndex.
  assert (Hown : batchIdAt s c = Some (Activation.batchId a)).
  { unfold batchIdAt. rewrite Hc. simpl. congruence. }
  destruct (list_find_elem_of (λ r, batchIdAt s r = Some (Activation.batchId a))
              (pendingBatches s) c Hin Hown) as [[j r] Hfind].
  rewrite Hfind. exists j. split; [reflexivity|].
  apply list_find_Some in Hfind as (Hj & Hr & _).
  rewrite Hj. f_equal.
  unfold batchIdAt in Hr, Hown.
  eapply NoDup_lookup; [exact Hnd| |].
  - unfold batchIds. rewrite list_lookup_fmap. exact Hr.
  - unfold batchIds. rewrite list_lookup_fmap. exact Hown.
Qed.

Lemma step_batchesInv e s : batchesInv s → batchesInv (step e s).
Proof.
  intros (Hcalls & (Hnd & Hvalid) & Hact).
  destruct (step_shape e s) as [[Hc' Hp']|[Hgen|[Hset|Hres]]].
  - unfold batchesInv, pendingInv, activeUntilResumed, batchIds.
    rewrite Hc', Hp'. split; [exact Hcalls|]. split; [split; assumption|exact Hact].
  - destruct Hgen as (now & rnd & cfg & _ & _ & _ & _ & Hc' & Hp').
    unfold batchesInv, pendingInv, activeUntilResumed, batchIds.
    rewrite Hc', Hp'. split; [|split; [split|]].
    + apply Forall_app. split; [exact Hcalls|].
      constructor; [apply callInv_submittedCall|constructor].
    + apply NoDup_app. split; [exact Hnd|]. split; [|apply NoDup_singleton].
      intros x Hx Hx'. apply list_elem_of_singleton in Hx'. subst.
      apply Hvalid in Hx. lia.
    + intros r Hr. rewrite length_app. simpl.
      apply elem_of_app in Hr as [Hr|Hr]; [apply Hvalid in Hr; lia|].
      apply list_elem_of_singleton in Hr. lia.
    + rewrite fmap_app. intros Hnd'. apply NoDup_app in Hnd' as (Hnd0 & _ & _).
      specialize (Hact Hnd0). intros c a Hca.
      rewrite elem_of_app, list_elem_of_singleton.
      destruct (decide (c < length (calls s))%nat) as [Hlt|Hge].
      * rewrite lookup_app_l in Hca by exact Hlt.
        rewrite <- (Hact c a Hca). split; [intros [H|H]; [exact H|lia]|auto].
      * rewrite lookup_app_r in Hca by lia.
        destruct (c - length (calls s))%nat as [|n] eqn:Hn; [|discriminate].
        injection Hca as <-. simpl.
        split; [reflexivity|intros _; right; lia].
  - destruct Hset as (c & i & out & now & rnd & created & a & req & f
                      & _ & Ha & Hi & -> & Hc' & Hp').
    assert (Hlt : (c < length (calls s))%nat) by (eapply lookup_lt_Some; exact Ha).
    assert (Hinv : callInv a) by (eapply Forall_lookup_1; [exact Hcalls|exact Ha]).
    unfold batchesInv, pendingInv, activeUntilResumed, batchIds.
    rewrite Hc', Hp', length_insert. split; [|split; [split; assumption|]].
    + apply Forall_insert; [exact Hcalls|].
      apply (callInv_settleUnit a i req out Hi Hinv).
    + rewrite (fmap_insert_same _ _ c a) by
        (try exact Ha; destruct (outcomeFails out); reflexivity).
      intros Hnd'. specialize (Hact Hnd'). intros c0 a0 Hc0.
      destruct (decide (c = c0)) as [<-|Hne].
      * rewrite list_lookup_insert_eq in Hc0 by exact Hlt. injection Hc0 as <-.
        simpl. apply (Hact c a Ha).
      * rewrite list_lookup_insert_ne in Hc0 by exact Hne. apply (Hact c0 a0 Hc0).
  - destruct Hres as (c & a & _ & Ha & Hall & Hnot & Hc' & Hp').
    assert (Hlt : (c < length (calls s))%nat) by (eapply lookup_lt_Some; exact Ha).
    assert (Hinv : callInv a) by (eapply Forall_lookup_1; [exact Hcalls|exact Ha]).
    assert (Hids : batchIds (set_calls (<[c := Activation.set_resumed true a]> (calls s)) s)
                   = batchIds s).
    { unfold batchIds. simpl. apply (fmap_insert_same _ _ c a); [exact Ha|reflexivity]. }
    unfold batchesInv, pendingInv, activeUntilResumed.
    split; [|split; [split|]].
    + rewrite Hc'. apply Forall_insert; [exact Hcalls|].
      apply callInv_set_resumed; assumption.
    + rewrite Hp'. destruct (findBatchIndex _ _); [|exact Hnd].
      apply NoDup_delete_index. exact Hnd.
    + rewrite Hp', Hc', length_insert. intros r Hr. apply Hvalid.
      destruct (findBatchIndex _ _); [|exact Hr].
      eapply list_elem_of_delete_inv. exact Hr.
    + assert (Hids' : batchIds (step e s) = batchIds s).
      { unfold batchIds. rewrite Hc'.
        apply (fmap_insert_same _ _ c a); [exact Ha|reflexivity]. }
      rewrite Hids'. intros Hnd'. specialize (Hact Hnd').
      assert (Hin : c ∈ pendingBatches s) by (apply (Hact c a Ha); exact Hnot).
      destruct (findBatchIndex_own
                  (set_calls (<[c := Activation.set_resumed true a]> (calls s)) s)
                  c (Activation.set_resumed true a)) as (j & Hfind & Hj).
      { rewrite Hids. exact Hnd'. }
      { simpl. apply list_lookup_insert_eq. exact Hlt. }
      { simpl. apply Hinv. }
      { exact Hin. }
      simpl in Hfind, Hj. rewrite Hfind in Hp'.
      intros c0 a0 Hc0. rewrite Hp', Hc' in *.
      rewrite (elem_of_delete_NoDup _ j c c0 Hnd Hj).
      destruct (decide (c = c0)) as [<-|Hne].
      * rewrite list_lookup_insert_eq in Hc0 by exact Hlt. injection Hc0 as <-.
        simpl. split; [intros [_ H]; congruence|discriminate].
      * rewrite list_lookup_insert_ne in Hc0 by exact Hne.
        rewrite <- (Hact c0 a0 Hc0). split; [intros [H _]; exact H|].
        intros H. split; [exact H|congruence].
Qed.

Lemma run_batchesInv events : ∀ s, batchesInv s → batchesInv (run events s).
Proof.
  induction events as [|e events IH]; intros s Hs; [exact Hs|].
  rewrite run_cons. apply IH, step_batchesInv, Hs.
Qed.

Lemma allSettled_count a :
  callInv a → allSettled a = true →
  Batch.completed (Activation.batch a) + Batch.failed (Activation.batch a)
  = Z.of_nat (length (Activation.units a)).
Proof.
  intros (H1 & _) Hall. rewrite H1. unfold settledUnits.
  rewrite (forallb_settled _ Hall). reflexivity.
Qed.

(** C1 (as amended). For every batch object created along a run from
    start-up: [completed + failed] does not exceed the requested count
    when that count is not negative; provided the ids of the batch objects
    are pairwise distinct, the batch is in the active set exactly as long
    as its call of [generateImages] has not resumed after
    [Promise.allSettled], so a batch with [completed + failed] below the
    requested count is in the active set; and once the call has resumed,
    [completed + failed] is the number of units of the batch. *)
Theorem batch_counts_and_active_set
    (ls : LocalStorage) (doc : Document) (r : StoreRead) (events : list Event)
    (c : nat) (a : Activation.t)
    (Hcall : calls (run events (init ls doc r)) !! c = Some a) :
  (0 <= Batch.count (Activation.batch a) →
   Batch.completed (Activation.batch a) + Batch.failed (Activation.batch a)
   <= Batch.count (Activation.batch a))
  ∧ (NoDup (batchIds (run events (init ls doc r))) →
     (c ∈ pendingBatches (run events (init ls doc r)) ↔ Activation.resumed a = false))
  ∧ (NoDup (batchIds (run events (init ls doc r))) →
     Batch.completed (Activation.batch a) + Batch.failed (Activation.batch a)
     < Batch.count (Activation.batch a) →
     c ∈ pendingBatches (run events (init ls doc r)))
  ∧ (Activation.resumed a = true →
     Batch.completed (Activation.batch a) + Batch.failed (Activation.batch a)
     = Z.of_nat (length (Activation.units a))).
Proof.
  destruct (run_batchesInv events _ (init_batchesInv ls doc r)) as (Hcalls & _ & Hact).
  assert (Hinv : callInv a) by (eapply Forall_lookup_1; [exact Hcalls|exact Hcall]).
  pose proof Hinv as (H1 & H2 & H3 & H4 & H5 & H6).
  assert (Hle : (settledUnits a <= length (Activation.units a))%nat)
    by apply filter_length_le.
  split; [intros Hpos; lia|].
  split; [intros Hnd; exact (Hact Hnd c a Hcall)|].
  split.
  - intros Hnd Hlt. apply (Hact Hnd c a Hcall).
    destruct (Activation.resumed a) eqn:Hres; [|reflexivity].
    pose proof (allSettled_count a Hinv (H6 eq_refl)) as Hsum. lia.
  - intros Hres. apply allSettled_count; [exact Hinv|exact (H6 Hres)].
Qed.

Lemma batch_counts_and_active_set_witness :
  0%nat ∈ pendingBatches stateWithPendingUnit.
Proof.
  unfold stateWithPendingUnit.
  destruct (calls (run (take 4 collidingUnits) (init sampleStorage sampleDocument ReadError))
              !! 0%nat) as [a|] eqn:Ha;
    [|vm_compute in Ha; discriminate].
  pose proof (batch_counts_and_active_set sampleStorage sampleDocument ReadError
               (take 4 collidingUnits) 0 a Ha) as (_ & _ & H & _).
  apply H.
  - vm_compute. apply NoDup_singleton.
  - vm_compute in Ha. injection Ha as <-. vm_compute. reflexivity.
Defined.

(** C1 (as stated) fails: when the only unit of a batch has settled and the
    call has not yet resumed, the batch is in the active set although
    [completed + failed] equals the requested count; [renderGallery], run
    by that unit, shows the gallery for a pending batch without any
    placeholder. *)
Lemma batch_active_with_all_units_settled :
  ∃ a,
    calls stateAfterLastUnit !! 0%nat = Some a
    ∧ Batch.completed (Activation.batch a) + Batch.failed (Activation.batch a)
      = Batch.count (Activation.batch a)
    ∧ 0%nat ∈ pendingBatches stateAfterLastUnit
    ∧ ¬ (0%nat ∈ pendingBatches stateAfterLastUnit
         ↔ Batch.completed (Activation.batch a) + Batch.failed (Activation.batch a)
           < Batch.count (Activation.batch a))
    ∧ renderGallery stateAfterLastUnit
      = mkGallery false [] ["https://img.example/1.png"%string].
Proof.
  assert (Hin : 0%nat ∈ pendingBatches stateAfterLastUnit)
    by (vm_compute; apply list_elem_of_singleton; reflexivity).
  destruct (calls stateAfterLastUnit !! 0%nat) as [a|] eqn:Ha;
    [|vm_compute in Ha; discriminate].
  exists a. split; [reflexivity|].
  vm_compute in Ha. injection Ha as <-.
  split; [reflexivity|]. split; [exact Hin|]. split.
  - intros [H _]. specialize (H Hin). vm_compute in H. discriminate.
  - vm_compute. reflexivity.
Qed.

(** ** Counting along a run *)

Lemma observe_app {X} (f : Event → App → list X) events1 events2 : ∀ s,
  observe f (events1 ++ events2) s
  = observe f events1 s ++ observe f events2 (run events1 s).
Proof.
  induction events1 as [|e events1 IH]; intros s; simpl; [reflexivity|].
  rewrite IH, app_assoc. reflexivity.
Qed.

(** The settlement of a unit: nothing when the unit is not pending; the
    failure counter when it fails; the record and the success counter when
    it gets an image. *)
Lemma settle_cases s c i out now rnd created :
  (unitPending c i s = false
   ∧ step (UnitSettles c i out now rnd created) s = s)
  ∨ (∃ a,
       unitPending c i s = true ∧ calls s !! c = Some a ∧ outcomeFails out = true
       ∧ images (step (UnitSettles c i out now rnd created) s) = images s
       ∧ calls (step (UnitSettles c i out now rnd created) s)
         = <[c := settleUnit Batch.incrFailed i a]> (calls s))
  ∨ (∃ a result,
       unitPending c i s = true ∧ calls s !! c = Some a ∧ outcomeFails out = false
       ∧ images (step (UnitSettles c i out now rnd created) s)
         = imageDataOf a i result now rnd created :: images s
       ∧ calls (step (UnitSettles c i out now rnd created) s)
         = <[c := settleUnit Batch.incrCompleted i a]> (calls s)).
Proof.
  simpl. unfold generateAndDisplay_resume, unitPending, outcomeFails.
  destruct (calls s !! c) as [a|] eqn:Ha; [|left; split; reflexivity].
  destruct (Activation.units a !! i) as [[req|]|] eqn:Hu;
    try (left; split; reflexivity).
  destruct (generateSingleImage_response out) as [result|err].
  - destruct (Js.truthy result).
    + right; right. exists a, result. repeat split; reflexivity.
    + right; left. exists a. repeat split; reflexivity.
  - right; left. exists a. repeat split; reflexivity.
Qed.

Lemma completionToast_of_counter n :
  0 <= n →
  (if 0 <? n then ToastGenerated n else ToastGenerateFailed)
  = completionToast (Z.to_nat n).
Proof.
  intros Hn. unfold completionToast.
  destruct (Z.ltb_spec 0 n) as [H|H]; destruct (Nat.ltb_spec 0 (Z.to_nat n)) as [H'|H'];
    try lia; [|reflexivity].
  rewrite Z2Nat.id by lia. reflexivity.
Qed.

(** The resumption of a call: nothing unless its units are all settled and
    it has not resumed; otherwise the flag and the completion toast. *)
Lemma resume_cases s c :
  step (AllSettled c) s = s
  ∨ (∃ a,
       calls s !! c = Some a ∧ allSettled a = true ∧ Activation.resumed a = false
       ∧ calls (step (AllSettled c) s) = <[c := Activation.set_resumed true a]> (calls s)
       ∧ toasts (step (AllSettled c) s)
         = toasts s ++ [if 0 <? Batch.completed (Activation.batch a)
                        then ToastGenerated (Batch.completed (Activation.batch a))
                        else ToastGenerateFailed]).
Proof.
  simpl. unfold generateImages_resume.
  destruct (calls s !! c) as [a|] eqn:Ha; [|left; reflexivity].
  destruct (allSettled a) eqn:Hall; [|left; reflexivity].
  destruct (Activation.resumed a) eqn:Hres; [left; reflexivity|].
  right. exists a. simpl.
  split; [reflexivity|]. split; [exact Hall|]. split; [exact Hres|].
  destruct (findBatchIndex _ _); destruct (0 <? _); split; reflexivity.
Qed.

Lemma counters_same s s' c :
  calls s' !! c = calls s !! c →
  completedOf c s' = completedOf c s
  ∧ failedOf c s' = failedOf c s
  ∧ shownFor c s' = shownFor c s.
Proof.
  intros H. unfold shownFor, completedOf, failedOf, resumedOf. rewrite H.
  repeat split; reflexivity.
Qed.

(** Events other than a settlement or a resumption leave the counters and
    the flag of every call as they are. *)
Lemma step_counters_quiet e s c :
  (∀ c' i out now rnd created, e ≠ UnitSettles c' i out now rnd created) →
  (∀ c', e ≠ AllSettled c') →
  completedOf c (step e s) = completedOf c s
  ∧ failedOf c (step e s) = failedOf c s
  ∧ shownFor c (step e s) = shownFor c s.
Proof.
  intros Hset Hres.
  destruct (step_shape e s) as [[Hc' _]|[Hgen|[Hs|Hr]]].
  - apply counters_same. rewrite Hc'. reflexivity.
  - destruct Hgen as (now & rnd & cfg & _ & _ & _ & _ & Hc' & _).
    destruct (decide (c < length (calls s))%nat) as [Hlt|Hge].
    + apply counters_same. rewrite Hc'. apply lookup_app_l. exact Hlt.
    + unfold shownFor, completedOf, failedOf, resumedOf. rewrite Hc'.
      rewrite lookup_app_r by lia.
      rewrite (proj2 (lookup_ge_None (calls s) c)) by lia.
      destruct (c - length (calls s))%nat as [|n]; simpl; [repeat split; reflexivity|].
      repeat split; reflexivity.
  - destruct Hs as (c' & i & out & now & rnd & created & _ & _ & _ & He & _).
    destruct (Hset _ _ _ _ _ _ He).
  - destruct Hr as (c' & _ & He & _). destruct (Hres _ He).
Qed.

(** What one step adds to the counters of call [c], to the records it
    inserted, to the ids it drew and to the toasts of its resumption. *)
Lemma step_counters e s c :
  batchesInv s →
  completedOf c (step e s) = completedOf c s + Z.of_nat (length (insertedBy c e s))
  ∧ failedOf c (step e s) = failedOf c s + Z.of_nat (length (failedBy c e s))
  ∧ Image.id <$> insertedBy c e s = drawnBy c e s
  ∧ shownFor c (step e s) = shownFor c s ++ toastsBy c e s.
Proof.
  intros (Hcalls & _ & _).
  assert (Hquiet :
    (∀ c' i out now rnd created, e ≠ UnitSettles c' i out now rnd created) →
    (∀ c', e ≠ AllSettled c') →
    insertedBy c e s = [] → failedBy c e s = [] → drawnBy c e s = [] →
    toastsBy c e s = [] →
    completedOf c (step e s) = completedOf c s + Z.of_nat (length (insertedBy c e s))
    ∧ failedOf c (step e s) = failedOf c s + Z.of_nat (length (failedBy c e s))
    ∧ Image.id <$> insertedBy c e s = drawnBy c e s
    ∧ shownFor c (step e s) = shownFor c s ++ toastsBy c e s).
  { intros H1 H2 -> -> -> ->.
    destruct (step_counters_quiet e s c H1 H2) as (-> & -> & ->).
    rewrite app_nil_r. simpl. repeat split; lia. }
  destruct e; try (apply Hquiet; [discriminate|discriminate|reflexivity..]).
  - (* a unit settles *)
    rename call into c'.
    destruct (Nat.eqb_spec c' c) as [->|Hne].
    + destruct (settle_cases s c index out now rnd created)
        as [[Hp Hs]|[(a & Hp & Ha & Hf & Hi & Hc)|(a & result & Hp & Ha & Hf & Hi & Hc)]].
      * unfold insertedBy, failedBy, drawnBy, toastsBy.
        rewrite Hs, Nat.eqb_refl, Hp, Nat.sub_diag. simpl.
        rewrite app_nil_r. repeat split; lia.
      * assert (Hlt : (c < length (calls s))%nat) by (eapply lookup_lt_Some; exact Ha).
        unfold insertedBy, failedBy, drawnBy, toastsBy, shownFor,
          completedOf, failedOf, resumedOf.
        rewrite Hi, Hc, Nat.eqb_refl, Hp, Hf, Nat.sub_diag, Ha.
        rewrite list_lookup_insert_eq by exact Hlt. simpl.
        rewrite app_nil_r. repeat split; lia.
      * assert (Hlt : (c < length (calls s))%nat) by (eapply lookup_lt_Some; exact Ha).
        assert (Hres : Activation.resumed a = false).
        { destruct (Activation.resumed a) eqn:Hr; [|reflexivity].
          assert (Hinv : callInv a) by (eapply Forall_lookup_1; [exact Hcalls|exact Ha]).
          destruct Hinv as (_ & _ & _ & _ & _ & H6). specialize (H6 Hr).
          unfold unitPending in Hp. rewrite Ha in Hp.
          destruct (Activation.units a !! index) as [[req|]|] eqn:Hu; try discriminate.
          destruct (forallb_settled_lookup _ _ _ H6 Hu). }
        unfold insertedBy, failedBy, drawnBy, toastsBy, shownFor,
          completedOf, failedOf, resumedOf.
        rewrite Hi, Hc, Nat.eqb_refl, Hp, Hf, Ha.
        rewrite list_lookup_insert_eq by exact Hlt. simpl.
        replace (S (length (images s)) - length (images s))%nat with 1%nat by lia.
        rewrite Hres. simpl. repeat split; lia.
    + assert (Hsame : calls (step (UnitSettles c' index out now rnd created) s) !! c
                      = calls s !! c).
      { destruct (settle_cases s c' index out now rnd created)
          as [[_ Hs]|[(a & _ & _ & _ & _ & Hc)|(a & result & _ & _ & _ & _ & Hc)]].
        - rewrite Hs. reflexivity.
        - rewrite Hc. apply list_lookup_insert_ne. exact Hne.
        - rewrite Hc. apply list_lookup_insert_ne. exact Hne. }
      destruct (counters_same _ _ _ Hsame) as (-> & -> & ->).
      unfold insertedBy, failedBy, drawnBy, toastsBy.
      apply Nat.eqb_neq in Hne. rewrite Hne. simpl.
      rewrite app_nil_r. repeat split; lia.
  - (* a call resumes *)
    rename call into c'.
    assert (Hobs : insertedBy c (AllSettled c') s = [] ∧ failedBy c (AllSettled c') s = []
                   ∧ drawnBy c (AllSettled c') s = []) by (repeat split; reflexivity).
    destruct Hobs as (-> & -> & ->).
    destruct (resume_cases s c') as [Hs|(a & Ha & Hall & Hres & Hc & Ht)].
    + unfold toastsBy. rewrite Hs, drop_all. simpl.
      destruct (c' =? c)%nat; rewrite app_nil_r; repeat split; lia.
    + assert (Hlt : (c' < length (calls s))%nat) by (eapply lookup_lt_Some; exact Ha).
      destruct (Nat.eqb_spec c' c) as [->|Hne].
      * assert (Hinv : callInv a) by (eapply Forall_lookup_1; [exact Hcalls|exact Ha]).
        destruct Hinv as (_ & Hpos & _).
        unfold toastsBy, shownFor, completedOf, failedOf, resumedOf.
        rewrite Nat.eqb_refl, Ht, Hc, Ha, Hres.
        rewrite list_lookup_insert_eq by exact Hlt.
        rewrite drop_app_length. simpl.
        rewrite (completionToast_of_counter _ Hpos). repeat split; lia.
      * assert (Hsame : calls (step (AllSettled c') s) !! c = calls s !! c)
          by (rewrite Hc; apply list_lookup_insert_ne; exact Hne).
        destruct (counters_same _ _ _ Hsame) as (-> & -> & ->).
        unfold toastsBy. apply Nat.eqb_neq in Hne. rewrite Hne.
        rewrite app_nil_r. simpl. repeat split; lia.
Qed.

Lemma run_counters events c : ∀ s,
  batchesInv s →
  completedOf c (run events s)
  = completedOf c s + Z.of_nat (length (recordsInsertedBy c events s))
  ∧ failedOf c (run events s) = failedOf c s + Z.of_nat (failuresOf c events s)
  ∧ Image.id <$> recordsInsertedBy c events s = idsDrawnBy c events s
  ∧ shownFor c (run events s) = shownFor c s ++ completionToasts c events s.
Proof.
  unfold recordsInsertedBy, failuresOf, idsDrawnBy, completionToasts.
  induction events as [|e events IH]; intros s Hinv.
  - simpl. rewrite app_nil_r. repeat split; lia.
  - destruct (step_counters e s c Hinv) as (H1 & H2 & H3 & H4).
    destruct (IH (step e s) (step_batchesInv e s Hinv)) as (I1 & I2 & I3 & I4).
    rewrite run_cons. cbn [observe].
    rewrite I1, I2, I4, H1, H2, H4, fmap_app, H3, I3, !length_app, app_assoc.
    repeat split; lia.
Qed.

(** X22. For a batch of N units of which K fail, once all its
    units have settled and its call of [generateImages] has resumed:
    exactly N-K records have been inserted in the gallery by its units,
    their ids being the values of [Date.now() + index + Math.random()]
    read by the units that succeeded; the counters of the batch are N-K
    and K; the batch is out of the active set (the ids of the batch objects
    being pairwise distinct); and the resumption has shown one completion
    toast, reporting N-K images when N-K is positive and the failure of
    the generation when N-K is zero. *)
Theorem batch_outcome
    (ls : LocalStorage) (doc : Document) (r : StoreRead) (events : list Event)
    (c : nat) (a : Activation.t)
    (Hcall : calls (run events (init ls doc r)) !! c = Some a)
    (Hresumed : Activation.resumed a = true) :
  let N := length (Activation.units a) in
  let K := failuresOf c events (init ls doc r) in
  (K <= N)%nat
  ∧ length (recordsInsertedBy c events (init ls doc r)) = (N - K)%nat
  ∧ Image.id <$> recordsInsertedBy c events (init ls doc r)
    = idsDrawnBy c events (init ls doc r)
  ∧ Batch.completed (Activation.batch a) = Z.of_nat (N - K)
  ∧ Batch.failed (Activation.batch a) = Z.of_nat K
  ∧ (NoDup (batchIds (run events (init ls doc r))) →
     c ∉ pendingBatches (run events (init ls doc r)))
  ∧ completionToasts c events (init ls doc r) = [completionToast (N - K)].
Proof.
  intros N K.
  pose proof (init_batchesInv ls doc r) as Hinit.
  destruct (run_batchesInv events _ Hinit) as (Hcalls & _ & Hact).
  assert (Hinv : callInv a) by (eapply Forall_lookup_1; [exact Hcalls|exact Hcall]).
  pose proof Hinv as (_ & Hpos & Hpos' & _ & _ & H6).
  pose proof (allSettled_count a Hinv (H6 Hresumed)) as Hsum. fold N in Hsum.
  destruct (run_counters events c _ Hinit) as (H1 & H2 & H3 & H4).
  assert (Hc0 : calls (init ls doc r) = []) by (destruct r; reflexivity).
  unfold shownFor, completedOf, failedOf, resumedOf in H1, H2, H4.
  rewrite Hcall, Hc0, Hresumed in *. simpl in H1, H2, H4. fold K in H2.
  assert (Hlen : length (recordsInsertedBy c events (init ls doc r)) = (N - K)%nat) by lia.
  split; [lia|]. split; [exact Hlen|]. split; [exact H3|].
  split; [lia|]. split; [lia|]. split.
  - intros Hnd Hin. apply (Hact Hnd c a Hcall) in Hin. congruence.
  - rewrite <- H4. f_equal. f_equal. lia.
Qed.

Lemma batch_outcome_witness :
  length (recordsInsertedBy 0 partialFailure startState) = 1%nat
  ∧ completionToasts 0 partialFailure startState = [ToastGenerated 1].
Proof.
  destruct (calls (run partialFailure startState) !! 0%nat) as [a|] eqn:Ha;
    [|vm_compute in Ha; discriminate].
  assert (Hres : Activation.resumed a = true)
    by (vm_compute in Ha; injection Ha as <-; reflexivity).
  assert (HN : length (Activation.units a) = 3%nat)
    by (vm_compute in Ha; injection Ha as <-; reflexivity).
  assert (HK : failuresOf 0 partialFailure startState = 2%nat)
    by (vm_compute; reflexivity).
  pose proof (batch_outcome sampleStorage sampleDocument ReadError partialFailure
                0 a Ha Hres) as H.
  cbv zeta in H. fold startState in H. rewrite HN, HK in H.
  destruct H as (_ & H1 & _ & _ & _ & _ & H2).
  split; [exact H1|exact H2].
Defined.

(** C2. The records of a batch do not always get distinct ids: both units
    of a batch succeed, the unit of index 1 at time 2000 and the unit of
    index 0 at time 2001, drawing the same random number;
    [2000 + 1 + r] and [2001 + 0 + r] are the same id, so the two inserted
    records share their id.  The gallery shows two records; the store,
    which is keyed on the id, keeps one of them. *)
Lemma batch_records_share_id :
  ∃ a,
    calls (run collidingUnits startState) !! 0%nat = Some a
    ∧ Activation.resumed a = true
    ∧ length (Activation.units a) = 2%nat
    ∧ failuresOf 0 collidingUnits startState = 0%nat
    ∧ length (recordsInsertedBy 0 collidingUnits startState) = 2%nat
    ∧ ¬ NoDup (Image.id <$> recordsInsertedBy 0 collidingUnits startState)
    ∧ length (images (run collidingUnits startState)) = 2%nat
    ∧ length (replayDb (dbCalls (run collidingUnits startState)) []) = 1%nat.
Proof.
  destruct (calls (run collidingUnits startState) !! 0%nat) as [a|] eqn:Ha;
    [|vm_compute in Ha; discriminate].
  exists a. split; [reflexivity|].
  vm_compute in Ha. injection Ha as <-.
  split; [reflexivity|]. split; [reflexivity|].
  split; [vm_compute; reflexivity|]. split; [vm_compute; reflexivity|].
  split.
  - intros Hnd. vm_compute in Hnd.
    apply NoDup_cons in Hnd as [Hnotin _]. apply Hnotin.
    apply list_elem_of_singleton. reflexivity.
  - split; [vm_compute; reflexivity|]. vm_compute. reflexivity.
Qed.

(** * Further properties of the code *)

(** ** sanitizeImageUrl, again *)

Lemma replaceAll_absent c r s : Js.hasChar c s = false → Js.replaceAll c r s = s.
Proof.
  induction s as [|a s IH]; simpl; [reflexivity|].
  intros H. apply orb_false_iff in H as [Ha Hs].
  rewrite Ha, (IH Hs). reflexivity.
Qed.

Lemma startsWith_truthy s p :
  Js.truthy p = true → Js.startsWith s p = true → Js.truthy s = true.
Proof.
  destruct p as [|a p]; [discriminate|]. intros _.
  destruct s as [|b s]; [discriminate|reflexivity].
Qed.

Lemma startsWith_https_not_data s :
  Js.startsWith s "https://" = true → Js.startsWith s "data:image/" = false.
Proof.
  unfold Js.startsWith. destruct s as [|b s]; [discriminate|].
  cbn [String.prefix]. intros H.
  destruct (ascii_dec "h" b) as [Hb|]; [|discriminate]. subst b.
  destruct (ascii_dec "d" "h") as [E|]; [discriminate E|reflexivity].
Qed.

(** X1. [sanitizeImageUrl] is idempotent, and it returns unchanged every
    [data:image/] URL and every [https://] URL without quotes. *)
Theorem sanitizeImageUrl_idempotent (url : string) :
  sanitizeImageUrl (sanitizeImageUrl url) = sanitizeImageUrl url
  ∧ (Js.startsWith url "data:image/" = true → sanitizeImageUrl url = url)
  ∧ (Js.startsWith url "https://" = true →
     Js.hasChar dquote url = false → Js.hasChar squote url = false →
     sanitizeImageUrl url = url).
Proof.
  assert (Hdata : ∀ u, Js.startsWith u "data:image/" = true → sanitizeImageUrl u = u).
  { intros u Hu. unfold sanitizeImageUrl.
    rewrite (startsWith_truthy u "data:image/" eq_refl Hu), Hu. reflexivity. }
  assert (Hhttps : ∀ u, Js.startsWith u "https://" = true →
            Js.hasChar dquote u = false → Js.hasChar squote u = false →
            sanitizeImageUrl u = u).
  { intros u Hu Hd Hs. unfold sanitizeImageUrl.
    rewrite (startsWith_truthy u "https://" eq_refl Hu), (startsWith_https_not_data u Hu), Hu.
    simpl. rewrite (replaceAll_absent dquote _ u Hd). apply replaceAll_absent, Hs. }
  split; [|split; [apply Hdata|apply Hhttps]].
  unfold sanitizeImageUrl at 2 3.
  destruct (negb (Js.truthy url)); [reflexivity|].
  destruct (Js.startsWith url "data:image/") eqn:Hd; [apply Hdata, Hd|].
  destruct (Js.startsWith url "https://") eqn:Hh; [|reflexivity].
  apply Hhttps.
  - apply startsWith_replaceAll; [reflexivity|].
    apply startsWith_replaceAll; [reflexivity|exact Hh].
  - apply hasChar_replaceAll_other; [reflexivity|].
    apply hasChar_replaceAll_same. reflexivity.
  - apply hasChar_replaceAll_same. reflexivity.
Qed.

Lemma sanitizeImageUrl_idempotent_witness :
  sanitizeImageUrl "https://img.example/a.png?x=1" = "https://img.example/a.png?x=1"%string
  ∧ sanitizeImageUrl "data:image/png;base64,QUJD" = "data:image/png;base64,QUJD"%string.
Proof.
  split.
  - apply (proj2 (proj2 (sanitizeImageUrl_idempotent "https://img.example/a.png?x=1")));
      reflexivity.
  - apply (proj1 (proj2 (sanitizeImageUrl_idempotent "data:image/png;base64,QUJD")));
      reflexivity.
Defined.

(** ** The payload of a response *)

Lemma truthy_append_l a b : Js.truthy a = true → Js.truthy (a +:+ b) = true.
Proof. destruct a; [discriminate|reflexivity]. Qed.

Lemma imageOfEntry_truthy img u : imageOfEntry img = Some u → Js.truthy u = true.
Proof.
  destruct img as [s|o]; simpl.
  - destruct (Js.startsWith s "data:") eqn:Hd; simpl.
    + intros [= <-]. exact (startsWith_truthy s "data:" eq_refl Hd).
    + destruct (Js.startsWith s "http") eqn:Hh; intros [= <-];
        [exact (startsWith_truthy s "http" eq_refl Hh)|reflexivity].
  - destruct (Js.truthyOpt (image_url_url (Response.img_image_url o))) eqn:H1.
    + intros H. rewrite H in H1. exact H1.
    + destruct (Js.truthyOpt (Response.img_url o)) eqn:H2.
      * intros H. rewrite H in H2. exact H2.
      * destruct (Js.truthyOpt (Response.img_b64_json o)); [|discriminate].
        destruct (Response.img_b64_json o); simpl; [|discriminate].
        intros [= <-]. reflexivity.
Qed.

Lemma imageOfPart_truthy part u : imageOfPart part = Some u → Js.truthy u = true.
Proof.
  unfold imageOfPart.
  destruct (typeIs (Response.type part) "image_url"
            && Js.truthyOpt (image_url_url (Response.part_image_url part))) eqn:H1.
  - apply andb_true_iff in H1 as [_ H1]. intros H. rewrite H in H1. exact H1.
  - destruct (Js.truthyOpt (Response.inlineData part ≫= Response.data)).
    + destruct (Response.inlineData part ≫= Response.data); simpl; [|discriminate].
      intros [= <-]. reflexivity.
    + destruct (typeIs (Response.type part) "image" && Js.truthyOpt (Response.image part))
        eqn:H3; [|discriminate].
      apply andb_true_iff in H3 as [_ H3].
      destruct (Response.image part) as [i|]; simpl in *; [|discriminate].
      destruct (Js.startsWith i "data:"); intros [= <-]; [exact H3|reflexivity].
Qed.

Lemma scanParts_truthy parts u : scanParts parts = Some u → Js.truthy u = true.
Proof.
  induction parts as [|part rest IH]; simpl; [discriminate|].
  destruct (imageOfPart part) as [v|] eqn:Hp; [|exact IH].
  intros [= <-]. exact (imageOfPart_truthy part v Hp).
Qed.

(** X2. Whatever the response, an image returned by [generateSingleImage]
    is a non-empty string: the branch of [generateAndDisplay] for a falsy
    result is never taken, and a unit fails exactly when
    [generateSingleImage] throws. *)
Theorem generateSingleImage_result_truthy (out : Response.outcome) :
  (∀ result, generateSingleImage_response out = inl result → Js.truthy result = true)
  ∧ (outcomeFails out = true ↔ ∃ e, generateSingleImage_response out = inr e).
Proof.
  assert (H : ∀ result,
            generateSingleImage_response out = inl result → Js.truthy result = true).
  { intros result. destruct out as [| | |d]; simpl; try discriminate.
    destruct (firstMessage d) as [message|]; [|discriminate].
    unfold extractImage.
    destruct (match Response.images message with
              | Some (img :: _) => imageOfEntry img
              | _ => None
              end) as [u|] eqn:H1.
    - intros [= <-].
      destruct (Response.images message) as [[|img imgs]|]; try discriminate.
      exact (imageOfEntry_truthy img u H1).
    - destruct (match Response.content message with
                | Response.ContentArray parts => scanParts parts
                | _ => None
                end) as [u|] eqn:H2.
      + intros [= <-].
        destruct (Response.content message) as [parts| |]; try discriminate.
        exact (scanParts_truthy parts u H2).
      + destruct (Response.content message) as [parts|s|]; try discriminate.
        destruct (Js.startsWith s "data:image") eqn:H3; [|discriminate].
        intros [= <-]. exact (startsWith_truthy s "data:image" eq_refl H3). }
  split; [exact H|].
  unfold outcomeFails.
  destruct (generateSingleImage_response out) as [result|e] eqn:Hr.
  - rewrite (H result eq_refl). simpl. split; [discriminate|intros [e He]; discriminate].
  - split; [intros _; exists e; reflexivity|reflexivity].
Qed.

Lemma generateSingleImage_result_truthy_witness :
  Js.truthy "https://img.example/1.png" = true.
Proof.
  apply (proj1 (generateSingleImage_result_truthy
                  (sampleResponse "https://img.example/1.png"))).
  reflexivity.
Defined.

(** ** The sort of getAllImages, again *)

Lemma arraySort_fixes_sorted l : newestFirst l → arraySort byCreatedAtDesc l = l.
Proof.
  unfold newestFirst. induction l as [|x l IH]; intros Hl; simpl; [reflexivity|].
  inversion Hl as [|? ? Hl' Hx]; subst. rewrite (IH Hl').
  destruct l as [|y l]; simpl; [reflexivity|].
  inversion Hx as [|? ? Hy _]; subst. unfold byCreatedAtDesc.
  destruct (Z.leb_spec (Image.createdAt y - Image.createdAt x) 0); [reflexivity|lia].
Qed.

Lemma sortInsert_stable t x l :
  createdAtTime t (sortInsert byCreatedAtDesc x l) = createdAtTime t (x :: l).
Proof.
  unfold createdAtTime.
  induction l as [|y l IH]; [reflexivity|].
  cbn [sortInsert]. unfold byCreatedAtDesc at 1.
  destruct (Z.leb_spec (Image.createdAt y - Image.createdAt x) 0) as [Hle|Hgt];
    [reflexivity|].
  cbn [List.filter] in *. rewrite IH.
  destruct (Z.eqb_spec (Image.createdAt x) t) as [Hx|Hx];
    destruct (Z.eqb_spec (Image.createdAt y) t) as [Hy|Hy]; try reflexivity.
  lia.
Qed.

Lemma arraySort_stable t l :
  createdAtTime t (arraySort byCreatedAtDesc l) = createdAtTime t l.
Proof.
  induction l as [|x l IH]; [reflexivity|].
  cbn [arraySort]. rewrite sortInsert_stable.
  unfold createdAtTime in *. cbn [List.filter]. rewrite IH. reflexivity.
Qed.

(** X3. The sort of [getAllImages] returns unchanged a list that is
    already newest first; it is stable: for every time stamp, the records
    with that [createdAt] come back in the order in which the store
    returned them (so a list whose records all have the same [createdAt]
    comes back unchanged); and reading back what start-up loaded gives the
    same gallery. *)
Theorem getAllImages_keeps_sorted (records : list Image.t) :
  (newestFirst records → getAllImages (ReadResult records) = Some records)
  ∧ (∃ sorted,
       getAllImages (ReadResult records) = Some sorted
       ∧ ∀ t, createdAtTime t sorted = createdAtTime t records)
  ∧ ((∀ a b, a ∈ records → b ∈ records → Image.createdAt a = Image.createdAt b) →
     getAllImages (ReadResult records) = Some records)
  ∧ (∀ ls doc,
       getAllImages (ReadResult (images (init ls doc (ReadResult records))))
       = Some (images (init ls doc (ReadResult records)))).
Proof.
  split; [|split; [|split]].
  - intros H. simpl. f_equal. apply arraySort_fixes_sorted, H.
  - eexists. split; [reflexivity|]. intros t. apply arraySort_stable.
  - intros H. simpl. f_equal. apply arraySort_fixes_sorted.
    unfold newestFirst. clear -H.
    induction records as [|x l IH]; constructor.
    + apply IH. intros a b Ha Hb. apply H; apply elem_of_cons; right; assumption.
    + apply Forall_forall. intros b Hb.
      rewrite (H x b); [lia|apply elem_of_cons; left; reflexivity|].
      apply elem_of_cons. right. exact Hb.
  - intros ls doc. simpl. f_equal.
    apply arraySort_fixes_sorted, arraySort_newestFirst.
Qed.

(** Two records with the same time stamp around a later one. *)
Example getAllImages_ties :
  (Image.prompt <$> arraySort byCreatedAtDesc tiedRecords) = ["b"; "a"; "c"]%string.
Proof. reflexivity. Qed.

Lemma getAllImages_keeps_sorted_witness :
  getAllImages (ReadResult [legacyImage; sampleStored]) = Some [legacyImage; sampleStored].
Proof.
  apply (proj1 (getAllImages_keeps_sorted [legacyImage; sampleStored])).
  repeat constructor; simpl; lia.
Defined.

(** ** The request of a unit *)

(** The flags of the models of the table: image size goes with the Gemini
    models, every model takes an aspect ratio, and a model without image
    input has no reference slot. *)
Lemma MODEL_CONFIGS_flags key cfg :
  MODEL_CONFIGS key = Some cfg →
  Config.supportsImageSize cfg = Js.includes key "gemini"
  ∧ Config.supportsAspectRatio cfg = true
  ∧ (Config.supportsImageInput cfg = false ↔ Config.maxReferences cfg = 0).
Proof.
  unfold MODEL_CONFIGS.
  destruct (List.find (λ kv, String.eqb (fst kv) key) MODEL_TABLE) as [[k c]|] eqn:Hf;
    [|discriminate].
  intros [= <-]. apply find_some in Hf as [Hin Hk].
  simpl in Hk. apply String.eqb_eq in Hk. subst key.
  unfold MODEL_TABLE in Hin. simpl in Hin.
  repeat (destruct Hin as [Hin|Hin];
          [injection Hin as <- <-; vm_compute; repeat split; congruence|]).
  destruct Hin.
Qed.

Lemma imageParts_of_refs refs prompt :
  omap (λ p, match p with
             | Request.ImageUrlPart url _ => Some url
             | Request.TextPart _ => None
             end)
    (((λ ref, Request.ImageUrlPart ref "high") <$> refs) ++ [Request.TextPart prompt])
  = refs.
Proof. induction refs as [|r refs IH]; simpl; [reflexivity|]. f_equal. exact IH. Qed.

Lemma textParts_of_refs refs prompt :
  omap (λ p, match p with
             | Request.TextPart text => Some text
             | Request.ImageUrlPart _ _ => None
             end)
    (((λ ref, Request.ImageUrlPart ref "high") <$> refs) ++ [Request.TextPart prompt])
  = [prompt].
Proof. induction refs as [|r refs IH]; simpl; [reflexivity|]. exact IH. Qed.

(** X4. The request of a unit carries every non-empty reference of the
    state, in order and however many they are ([maxReferences] is not
    applied), when the model takes image input, and none otherwise; the
    prompt is its only text; and the content is the bare prompt exactly
    when no reference is sent. *)
Theorem generateSingleImage_request_content
    (s : App) (prompt : string) (cfg : Config.t) :
  imageParts (Request.messageContent (generateSingleImage_request s prompt cfg))
  = (if Config.supportsImageInput cfg then List.filter Js.truthy (references s) else [])
  ∧ textParts (Request.messageContent (generateSingleImage_request s prompt cfg))
    = [prompt]
  ∧ (Request.messageContent (generateSingleImage_request s prompt cfg)
     = Request.Text prompt
     ↔ (if Config.supportsImageInput cfg then List.filter Js.truthy (references s) else [])
       = []).
Proof.
  unfold generateSingleImage_request. simpl.
  assert (Hmap : (if Config.supportsImageInput cfg
                  then (λ ref, Request.ImageUrlPart ref "high")
                         <$> List.filter Js.truthy (references s)
                  else [])
                 = (λ ref, Request.ImageUrlPart ref "high")
                     <$> (if Config.supportsImageInput cfg
                          then List.filter Js.truthy (references s) else []))
    by (destruct (Config.supportsImageInput cfg); reflexivity).
  rewrite Hmap. clear Hmap.
  destruct (if Config.supportsImageInput cfg
            then List.filter Js.truthy (references s) else []) as [|r refs].
  - simpl. repeat split; reflexivity.
  - rewrite length_app, length_fmap. simpl.
    replace (length refs + 1)%nat with (S (length refs)) by lia. simpl.
    split; [f_equal; apply imageParts_of_refs|].
    split; [apply textParts_of_refs|].
    split; discriminate.
Qed.

(** X5. A request never carries both [image_config] and [aspect_ratio];
    for a model of [MODEL_CONFIGS] it carries exactly one of them:
    [image_config], with the quality in lower case and the aspect ratio,
    for a Gemini model, and [aspect_ratio] for any other model. *)
Theorem generateSingleImage_request_sizing
    (s : App) (prompt : string) (cfg : Config.t) :
  (Request.imageConfig (generateSingleImage_request s prompt cfg) = None
   ∨ Request.aspect_ratio (generateSingleImage_request s prompt cfg) = None)
  ∧ (MODEL_CONFIGS (selectedModel s) = Some cfg →
     if Js.includes (selectedModel s) "gemini"
     then
       Request.imageConfig (generateSingleImage_request s prompt cfg)
       = Some (Request.mkImageConfig (Js.toLowerCase (imageQuality s)) (aspectRatio s))
       ∧ Request.aspect_ratio (generateSingleImage_request s prompt cfg) = None
     else
       Request.imageConfig (generateSingleImage_request s prompt cfg) = None
       ∧ Request.aspect_ratio (generateSingleImage_request s prompt cfg)
         = Some (aspectRatio s)).
Proof.
  unfold generateSingleImage_request. simpl. split.
  - destruct (Js.includes (selectedModel s) "gemini");
      destruct (Config.supportsImageSize cfg); destruct (Config.supportsAspectRatio cfg);
      simpl; auto.
  - intros Hcfg. destruct (MODEL_CONFIGS_flags _ _ Hcfg) as (-> & -> & _).
    destruct (Js.includes (selectedModel s) "gemini"); simpl; split; reflexivity.
Qed.

Lemma generateSingleImage_request_sizing_witness :
  Request.imageConfig
    (generateSingleImage_request startState "a red fox"
       (Config.mk "Gemini 2.5 Flash Image" true true true 3))
  = Some (Request.mkImageConfig "1k" "1:1")
  ∧ Request.aspect_ratio
      (generateSingleImage_request startState "a red fox"
         (Config.mk "Gemini 2.5 Flash Image" true true true 3))
    = None.
Proof.
  exact (proj2 (generateSingleImage_request_sizing startState "a red fox"
                  (Config.mk "Gemini 2.5 Flash Image" true true true 3)) eq_refl).
Defined.

(** ** The number of images of a batch *)

(** The two loops of [recreateImage] change the size, the quality and the
    aspect ratio only. *)
Lemma restore_frame {X} (proj : App → X) q r s :
  (∀ v s, proj (set_imageQuality v s) = proj s) →
  (∀ v s, proj (set_imageSize v s) = proj s) →
  (∀ v s, proj (set_aspectRatio v s) = proj s) →
  proj (restoreAspectRatio r (restoreQuality q s)) = proj s.
Proof.
  intros Hq Hs Ha. unfold restoreAspectRatio, restoreQuality.
  rewrite fold_left_frame by (intros s0 b; destruct (String.eqb b r); auto).
  apply fold_left_frame.
  intros s0 b. destruct (String.eqb (snd b) q); [|reflexivity].
  rewrite Hq. apply Hs.
Qed.

Lemma recreateImage_imageCount s : imageCount (recreateImage s) = imageCount s.
Proof.
  unfold recreateImage. destruct (currentImage s) as [image|]; [|reflexivity].
  destruct (0 <? length (Image.references image))%nat; simpl;
    rewrite (restore_frame imageCount) by reflexivity; reflexivity.
Qed.

Lemma step_countInRange e s : countInRange s → countInRange (step e s).
Proof.
  unfold countInRange. intros H.
  destruct e; simpl; try exact H.
  - unfold selectModel. case_match; exact H.
  - unfold clickToggle. repeat case_match; exact H.
  - unfold clickAspect. case_match; exact H.
  - unfold decreaseCount. destruct (Z.ltb_spec 1 (imageCount s)); simpl; lia.
  - unfold increaseCount. destruct (Z.ltb_spec (imageCount s) 8); simpl; lia.
  - unfold changeCount. simpl. destruct parsed as [v|]; simpl.
    + destruct (Z.ltb_spec v 1); simpl.
      * destruct (Z.ltb_spec 8 1); lia.
      * destruct (Z.ltb_spec 8 v); lia.
    + lia.
  - unfold generateImages. repeat case_match; exact H.
  - unfold generateAndDisplay_resume. repeat case_match; exact H.
  - unfold generateImages_resume. repeat case_match; exact H.
  - unfold deleteImage. repeat case_match; exact H.
  - unfold clearGallery. repeat case_match; exact H.
  - unfold openModal. case_match; exact H.
  - unfold useImageAsReference. case_match; exact H.
  - rewrite recreateImage_imageCount. exact H.
Qed.

Lemma changeCount_countInRange parsed s : countInRange (changeCount parsed s).
Proof.
  unfold countInRange, changeCount. simpl. destruct parsed as [v|]; simpl.
  - destruct (Z.ltb_spec v 1); simpl.
    + destruct (Z.ltb_spec 8 1); lia.
    + destruct (Z.ltb_spec 8 v); lia.
  - lia.
Qed.

Lemma run_countInRange events : ∀ s, countInRange s → countInRange (run events s).
Proof.
  induction events as [|e events IH]; intros s H; [exact H|].
  rewrite run_cons. apply IH, step_countInRange, H.
Qed.

(** The calls created from position [n] on ask for 1 to 8 images. *)
Lemma step_callsInRange e s n :
  countInRange s →
  (∀ c a, calls s !! c = Some a → (n <= c)%nat → callInRange a) →
  ∀ c a, calls (step e s) !! c = Some a → (n <= c)%nat → callInRange a.
Proof.
  intros Hcount Hcalls c a Hc Hn.
  destruct (step_shape e s) as [[Hc' _]|[Hgen|[Hset|Hres]]].
  - rewrite Hc' in Hc. exact (Hcalls c a Hc Hn).
  - destruct Hgen as (now & rnd & cfg & _ & _ & _ & _ & Hc' & _).
    rewrite Hc' in Hc.
    destruct (decide (c < length (calls s))%nat) as [Hlt|Hge].
    + rewrite lookup_app_l in Hc by exact Hlt. exact (Hcalls c a Hc Hn).
    + rewrite lookup_app_r in Hc by lia.
      destruct (c - length (calls s))%nat; [|discriminate].
      injection Hc as <-. unfold callInRange, countInRange in *. simpl.
      rewrite length_replicate. lia.
  - destruct Hset as (c' & i & out & now & rnd & created & a' & req & f
                      & _ & Ha' & _ & -> & Hc' & _).
    rewrite Hc' in Hc.
    destruct (decide (c' = c)) as [->|Hne].
    + rewrite list_lookup_insert_eq in Hc by (eapply lookup_lt_Some; exact Ha').
      injection Hc as <-. specialize (Hcalls c a' Ha' Hn).
      unfold callInRange in *. simpl. rewrite length_insert.
      destruct (outcomeFails out); exact Hcalls.
    + rewrite list_lookup_insert_ne in Hc by exact Hne. exact (Hcalls c a Hc Hn).
  - destruct Hres as (c' & a' & _ & Ha' & _ & _ & Hc' & _).
    rewrite Hc' in Hc.
    destruct (decide (c' = c)) as [->|Hne].
    + rewrite list_lookup_insert_eq in Hc by (eapply lookup_lt_Some; exact Ha').
      injection Hc as <-. exact (Hcalls c a' Ha' Hn).
    + rewrite list_lookup_insert_ne in Hc by exact Hne. exact (Hcalls c a Hc Hn).
Qed.

Lemma run_callsInRange events n : ∀ s,
  countInRange s →
  (∀ c a, calls s !! c = Some a → (n <= c)%nat → callInRange a) →
  ∀ c a, calls (run events s) !! c = Some a → (n <= c)%nat → callInRange a.
Proof.
  induction events as [|e events IH]; intros s Hcount Hcalls; [exact Hcalls|].
  rewrite run_cons. apply IH.
  - apply step_countInRange, Hcount.
  - apply step_callsInRange; assumption.
Qed.

(** X6. From a state in which the number of images is within 1..8, every
    run keeps it within 1..8, and every batch submitted during the run
    asks for 1 to 8 images and starts exactly that many units. *)
Theorem imageCount_stays_in_range
    (s : App) (events : list Event) (Hstart : 1 <= imageCount s <= 8) :
  1 <= imageCount (run events s) <= 8
  ∧ ∀ c a,
      calls (run events s) !! c = Some a → (length (calls s) <= c)%nat →
      1 <= Batch.count (Activation.batch a) <= 8
      ∧ Z.of_nat (length (Activation.units a)) = Batch.count (Activation.batch a).
Proof.
  split; [exact (run_countInRange events s Hstart)|].
  apply (run_callsInRange events (length (calls s)) s Hstart).
  intros c a Hc Hn. apply lookup_lt_Some in Hc. lia.
Qed.

Lemma imageCount_stays_in_range_witness :
  1 <= imageCount (run partialFailure startState) <= 8.
Proof.
  apply (proj1 (imageCount_stays_in_range startState partialFailure
                  ltac:(vm_compute; split; discriminate))).
Defined.

(** X7. Once the count field has been edited, whatever was typed in it
    (nothing that parses, a negative number, a number above 8) and
    whatever the number of images was before, the number of images is
    within 1..8, and it stays so for the rest of the run. *)
Theorem changeCount_clamps (s : App) (parsed : option Z) (events : list Event) :
  1 <= imageCount (run (ChangeCount parsed :: events) s) <= 8
  ∧ imageCount (changeCount parsed s)
    = match parsed with
      | Some v => Z.max 1 (Z.min 8 v)
      | None => 1
      end.
Proof.
  split.
  - rewrite run_cons. apply run_countInRange. apply changeCount_countInRange.
  - unfold changeCount. simpl. destruct parsed as [v|]; [|reflexivity].
    destruct (Z.ltb_spec v 1); simpl.
    + destruct (Z.ltb_spec 8 1); lia.
    + destruct (Z.ltb_spec 8 v); lia.
Qed.

(** ** The requests in flight *)

Lemma request_textParts s prompt cfg :
  textParts (Request.messageContent (generateSingleImage_request s prompt cfg)) = [prompt].
Proof.
  unfold generateSingleImage_request. simpl.
  destruct (Config.supportsImageInput cfg); [|reflexivity].
  destruct (List.filter Js.truthy (references s)) as [|r refs]; [reflexivity|].
  rewrite length_app, length_fmap. simpl.
  replace (length refs + 1)%nat with (S (length refs)) by lia. simpl.
  apply (textParts_of_refs refs prompt).
Qed.

Lemma requestWellFormed_submitted s now rnd cfg :
  Js.truthy (Js.trim (promptInput s)) = true →
  Js.truthy (apiKey s) = true →
  MODEL_CONFIGS (selectedModel s) = Some cfg →
  requestWellFormed (submittedCall s now rnd cfg)
    (generateSingleImage_request s (Js.trim (promptInput s)) cfg).
Proof.
  intros Hp Hk Hc. unfold requestWellFormed.
  split; [exact Hk|]. split; [exact Hp|].
  split; [apply request_textParts|]. split; [reflexivity|exact Hc].
Qed.

Lemma step_requestsWellFormed e s :
  (∀ c a i req,
     calls s !! c = Some a → Activation.units a !! i = Some (InFlight req) →
     requestWellFormed a req) →
  ∀ c a i req,
    calls (step e s) !! c = Some a → Activation.units a !! i = Some (InFlight req) →
    requestWellFormed a req.
Proof.
  intros Hinv c a i req Hc Hi.
  destruct (step_shape e s) as [[Hc' _]|[Hgen|[Hset|Hres]]].
  - rewrite Hc' in Hc. exact (Hinv c a i req Hc Hi).
  - destruct Hgen as (now & rnd & cfg & _ & Hp & Hk & Hcfg & Hc' & _).
    rewrite Hc' in Hc.
    destruct (decide (c < length (calls s))%nat) as [Hlt|Hge].
    + rewrite lookup_app_l in Hc by exact Hlt. exact (Hinv c a i req Hc Hi).
    + rewrite lookup_app_r in Hc by lia.
      destruct (c - length (calls s))%nat; [|discriminate].
      injection Hc as <-. simpl in Hi.
      apply lookup_replicate in Hi as [Hi _]. injection Hi as ->.
      apply requestWellFormed_submitted; assumption.
  - destruct Hset as (c' & j & out & now & rnd & created & a' & req' & f
                      & _ & Ha' & _ & -> & Hc' & _).
    rewrite Hc' in Hc.
    destruct (decide (c' = c)) as [->|Hne].
    + rewrite list_lookup_insert_eq in Hc by (eapply lookup_lt_Some; exact Ha').
      injection Hc as <-. simpl in Hi.
      assert (Hi' : Activation.units a' !! i = Some (InFlight req)).
      { destruct (decide (j = i)) as [->|Hji].
        - destruct (decide (i < length (Activation.units a'))%nat) as [Hlt|Hge].
          + rewrite list_lookup_insert_eq in Hi by exact Hlt. discriminate.
          + rewrite list_insert_ge in Hi by lia. exact Hi.
        - rewrite list_lookup_insert_ne in Hi by exact Hji. exact Hi. }
      exact (Hinv c a' i req Ha' Hi').
    + rewrite list_lookup_insert_ne in Hc by exact Hne. exact (Hinv c a i req Hc Hi).
  - destruct Hres as (c' & a' & _ & Ha' & _ & _ & Hc' & _).
    rewrite Hc' in Hc.
    destruct (decide (c' = c)) as [->|Hne].
    + rewrite list_lookup_insert_eq in Hc by (eapply lookup_lt_Some; exact Ha').
      injection Hc as <-. exact (Hinv c a' i req Ha' Hi).
    + rewrite list_lookup_insert_ne in Hc by exact Hne. exact (Hinv c a i req Hc Hi).
Qed.

Lemma modelsKnown_startState : modelsKnown startState.
Proof.
  unfold modelsKnown.
  split; [reflexivity|]. split; [repeat constructor|].
  split; [constructor|]. split; [discriminate|].
  split; [constructor|].
  intros H. apply list_elem_of_singleton in H. discriminate.
Qed.

(** X8. When the model ids that start-up finds (the stored model, the
    options of the page, the stored records) are models of the table of
    [MODEL_CONFIGS], then along any run a request that a unit is waiting on
    carries a non-empty API key, the model id of its batch, which is a
    model of the table with the configuration the call holds, and the
    trimmed, non-empty prompt of its batch as its only text. *)
Theorem requests_in_flight_well_formed
    (ls : LocalStorage) (doc : Document) (r : StoreRead) (events : list Event)
    (c i : nat) (a : Activation.t) (req : Request.t)
    (Hknown : modelsKnown (init ls doc r))
    (Hcall : calls (run events (init ls doc r)) !! c = Some a)
    (Hunit : Activation.units a !! i = Some (InFlight req)) :
  Js.truthy (Request.authorization req) = true
  ∧ Js.truthy (Activation.prompt a) = true
  ∧ textParts (Request.messageContent req) = [Activation.prompt a]
  ∧ Request.model req = Activation.currentModel a
  ∧ MODEL_CONFIGS (Request.model req) = Some (Activation.modelConfig a).
Proof.
  assert (Hrun : ∀ events s,
            (∀ c a i req,
               calls s !! c = Some a → Activation.units a !! i = Some (InFlight req) →
               requestWellFormed a req) →
            ∀ c a i req,
              calls (run events s) !! c = Some a →
              Activation.units a !! i = Some (InFlight req) →
              requestWellFormed a req).
  { clear. induction events as [|e events IH]; intros s Hs; [exact Hs|].
    rewrite run_cons. apply IH, step_requestsWellFormed, Hs. }
  apply (Hrun events (init ls doc r)) with (c := c) (i := i); [|exact Hcall|exact Hunit].
  intros c0 a0 i0 req0 Hc0. destruct r; discriminate.
Qed.

Lemma requests_in_flight_well_formed_witness :
  ∃ a req,
    calls stateWithPendingUnit !! 0%nat = Some a
    ∧ Activation.units a !! 0%nat = Some (InFlight req)
    ∧ Js.truthy (Request.authorization req) = true.
Proof.
  unfold stateWithPendingUnit.
  destruct (calls (run (take 4 collidingUnits) (init sampleStorage sampleDocument ReadError))
              !! 0%nat) as [a|] eqn:Ha;
    [|vm_compute in Ha; discriminate].
  destruct (Activation.units a !! 0%nat) as [[req|]|] eqn:Hu.
  - exists a, req. split; [reflexivity|]. split; [exact Hu|].
    exact (proj1 (requests_in_flight_well_formed sampleStorage sampleDocument ReadError
                    (take 4 collidingUnits) 0 0 a req modelsKnown_startState Ha Hu)).
  - vm_compute in Ha. injection Ha as <-. vm_compute in Hu. discriminate.
  - vm_compute in Ha. injection Ha as <-. vm_compute in Hu. discriminate.
Defined.

(** ** Models known to MODEL_CONFIGS *)

(** What [recreateImage] does with a record open, apart from the size, the
    quality and the aspect ratio. *)
Lemma recreateImage_open s image :
  currentImage s = Some image →
  selectedModel (recreateImage s) = Image.model image
  ∧ promptInput (recreateImage s) = Image.prompt image
  ∧ references (recreateImage s) = Image.references image
  ∧ currentImage (recreateImage s) = None
  ∧ images (recreateImage s) = images s
  ∧ calls (recreateImage s) = calls s
  ∧ pendingBatches (recreateImage s) = pendingBatches s
  ∧ console (recreateImage s) = console s
  ∧ document (recreateImage s) = document s
  ∧ apiKey (recreateImage s) = apiKey s
  ∧ dbCalls (recreateImage s) = dbCalls s
  ∧ imageCount (recreateImage s) = imageCount s.
Proof.
  intros Hopen. unfold recreateImage. rewrite Hopen.
  destruct (Image.references image) as [|ref refs] eqn:Hrefs; simpl;
    rewrite (restore_frame selectedModel), (restore_frame promptInput),
      (restore_frame images), (restore_frame calls), (restore_frame pendingBatches),
      (restore_frame console), (restore_frame document), (restore_frame apiKey),
      (restore_frame dbCalls), (restore_frame imageCount) by reflexivity;
    repeat split; reflexivity.
Qed.

Lemma step_modelsKnown e s : modelsKnown s → modelsKnown (step e s).
Proof.
  intros Hs. pose proof Hs as (Hsel & Hopt & Himg & Hcur & Hcalls & Hcon).
  destruct e; simpl.
  - exact Hs.
  - unfold selectModel.
    destruct (modelOptions (document s) !! option) as [value|] eqn:Hv;
      [|exact Hs].
    repeat split; try assumption. simpl.
    exact (proj1 (Forall_lookup _ _) Hopt _ _ Hv).
  - unfold clickToggle. destruct (toggleButtons (document s) !! button) as [[? ?]|];
      exact Hs.
  - unfold clickAspect. destruct (aspectButtons (document s) !! button);
      exact Hs.
  - unfold decreaseCount. destruct (1 <? imageCount s); exact Hs.
  - unfold increaseCount. destruct (imageCount s <? 8); exact Hs.
  - exact Hs.
  - exact Hs.
  - exact Hs.
  - exact Hs.
  - exact Hs.
  - pose proof Hsel as Hsel'. unfold isKnown in Hsel'.
    destruct (MODEL_CONFIGS (selectedModel s)) as [cfg|] eqn:Hcfg; [|discriminate].
    unfold generateImages. rewrite Hcfg.
    destruct (Js.truthy (Js.trim (promptInput s))); simpl; [|exact Hs].
    destruct (Js.truthy (apiKey s)); simpl; [|exact Hs].
    split; [exact Hsel|]. split; [exact Hopt|]. split; [exact Himg|].
    split; [exact Hcur|]. split; [|exact Hcon].
    apply Forall_app. split; [exact Hcalls|].
    constructor; [|constructor]. simpl. exact Hsel.
  - unfold generateAndDisplay_resume.
    destruct (calls s !! call) as [a|] eqn:Ha; [|exact Hs].
    assert (Ka : isKnown (Activation.currentModel a) = true)
      by exact (proj1 (Forall_lookup _ _) Hcalls _ _ Ha).
    destruct (Activation.units a !! index) as [[req|]|];
      try (exact Hs).
    destruct (generateSingleImage_response out) as [result|err].
    + destruct (Js.truthy result); simpl.
      * split; [exact Hsel|]. split; [exact Hopt|].
        split; [constructor; [exact Ka|exact Himg]|].
        split; [exact Hcur|]. split; [|exact Hcon].
        apply Forall_insert; [exact Hcalls|exact Ka].
      * split; [exact Hsel|]. split; [exact Hopt|]. split; [exact Himg|].
        split; [exact Hcur|]. split; [|exact Hcon].
        apply Forall_insert; [exact Hcalls|exact Ka].
    + simpl. split; [exact Hsel|]. split; [exact Hopt|]. split; [exact Himg|].
      split; [exact Hcur|]. split.
      * apply Forall_insert; [exact Hcalls|exact Ka].
      * intros Hin. apply elem_of_app in Hin as [Hin|Hin]; [exact (Hcon Hin)|].
        apply list_elem_of_singleton in Hin. discriminate.
  - unfold generateImages_resume.
    destruct (calls s !! call) as [a|] eqn:Ha; [|exact Hs].
    assert (Ka : isKnown (Activation.currentModel a) = true)
      by exact (proj1 (Forall_lookup _ _) Hcalls _ _ Ha).
    destruct (allSettled a && negb (Activation.resumed a)); [|exact Hs].
    destruct (findBatchIndex _ _); destruct (0 <? _); simpl;
      (split; [exact Hsel|]; split; [exact Hopt|]; split; [exact Himg|];
       split; [exact Hcur|]; split; [|exact Hcon];
       apply Forall_insert; [exact Hcalls|exact Ka]).
  - unfold deleteImage.
    assert (Hdel : Forall (λ image, isKnown (Image.model image) = true)
                     (delete index (images s))) by (apply Forall_delete; exact Himg).
    assert (Hcon' : Uncaught ∉ console s ++ [DeleteFailed]).
    { intros Hin. apply elem_of_app in Hin as [Hin|Hin]; [exact (Hcon Hin)|].
      apply list_elem_of_singleton in Hin. discriminate. }
    destruct (images s !! index); [destruct storeOk|]; simpl;
      (split; [exact Hsel|]; split; [exact Hopt|]; split; [exact Hdel|];
       split; [exact Hcur|]; split; assumption).
  - unfold clearGallery. destruct confirmed; [|exact Hs].
    assert (Hcon' : Uncaught ∉ console s ++ [ClearFailed]).
    { intros Hin. apply elem_of_app in Hin as [Hin|Hin]; [exact (Hcon Hin)|].
      apply list_elem_of_singleton in Hin. discriminate. }
    destruct storeOk; simpl; repeat split; try assumption; constructor.
  - unfold openModal. destruct (images s !! index) as [image|] eqn:Hi;
      [|exact Hs].
    simpl. split; [exact Hsel|]. split; [exact Hopt|]. split; [exact Himg|].
    split; [|split; assumption].
    intros image' [= <-]. exact (proj1 (Forall_lookup _ _) Himg _ _ Hi).
  - simpl. split; [exact Hsel|]. split; [exact Hopt|]. split; [exact Himg|].
    split; [discriminate|split; assumption].
  - unfold useImageAsReference. destruct (currentImage s);
      [|exact Hs].
    simpl. split; [exact Hsel|]. split; [exact Hopt|]. split; [exact Himg|].
    split; [discriminate|split; assumption].
  - destruct (currentImage s) as [image|] eqn:Hopen.
    + destruct (recreateImage_open s image Hopen)
        as (E1 & _ & _ & E4 & E5 & E6 & _ & E8 & E9 & _).
      unfold modelsKnown. rewrite E1, E4, E5, E6, E8, E9.
      split; [exact (Hcur image eq_refl)|]. split; [exact Hopt|].
      split; [exact Himg|]. split; [discriminate|split; assumption].
    + unfold recreateImage. rewrite Hopen. exact Hs.
Qed.

(** X9. When the selected model, the options of the page and the records
    of the gallery all name models of [MODEL_CONFIGS], this stays so along
    every run, through every change of model, every new record and every
    recreate; [generateImages] then always finds its configuration, and no
    exception leaves a handler. *)
Theorem generateImages_never_throws
    (s : App) (events : list Event) (Hknown : modelsKnown s) :
  modelsKnown (run events s)
  ∧ (Uncaught ∉ console (run events s))
  ∧ (∃ cfg, MODEL_CONFIGS (selectedModel (run events s)) = Some cfg).
Proof.
  assert (Hrun : modelsKnown (run events s)).
  { revert s Hknown. induction events as [|e events IH]; intros s Hs; [exact Hs|].
    rewrite run_cons. apply IH, step_modelsKnown, Hs. }
  split; [exact Hrun|]. split; [apply Hrun|].
  destruct Hrun as (Hsel & _). unfold isKnown in Hsel.
  destruct (MODEL_CONFIGS (selectedModel (run events s))) as [cfg|];
    [exists cfg; reflexivity|discriminate].
Qed.

Lemma generateImages_never_throws_witness :
  Uncaught ∉ console (run (legacyEvents ++ [Recreate; Generate 3000 9]) startState).
Proof.
  exact (proj1 (proj2 (generateImages_never_throws startState
                         (legacyEvents ++ [Recreate; Generate 3000 9])
                         modelsKnown_startState))).
Defined.

(** ** What the gallery shows of the batches *)

Lemma length_bind_sum {X Y} (f : X → list Y) (l : list X) :
  length (l ≫= f) = sum_list_with (λ x, length (f x)) l.
Proof.
  induction l as [|x l IH]; [reflexivity|].
  rewrite bind_cons, length_app, IH. reflexivity.
Qed.

Lemma sum_list_with_ext_in {X} (f g : X → nat) (l : list X) :
  (∀ x, x ∈ l → f x = g x) → sum_list_with f l = sum_list_with g l.
Proof.
  induction l as [|x l IH]; intros H; simpl; [reflexivity|].
  rewrite (H x) by (apply elem_of_cons; left; reflexivity).
  rewrite IH; [reflexivity|]. intros y Hy. apply H, elem_of_cons. right. exact Hy.
Qed.

(** The number of placeholders of a batch is the number of its units in
    flight. *)
Lemma pendingCount_inFlight a :
  callInv a →
  Z.to_nat (Batch.count (Activation.batch a) - Batch.completed (Activation.batch a)
            - Batch.failed (Activation.batch a))
  = inFlightUnits a.
Proof.
  intros (H1 & H2 & H3 & H4 & _). unfold inFlightUnits.
  pose proof (filter_length_le isSettled (Activation.units a)) as Hle.
  unfold settledUnits in *. lia.
Qed.

(** X10. Along any run from start-up, [renderGallery] shows one card per
    record of the gallery and one placeholder per unit in flight of the
    batches of the active set, and it shows the empty state exactly when
    the gallery and the active set are both empty. *)
Theorem renderGallery_counts
    (ls : LocalStorage) (doc : Document) (r : StoreRead) (events : list Event) :
  length (cards (renderGallery (run events (init ls doc r))))
  = length (images (run events (init ls doc r)))
  ∧ length (placeholders (renderGallery (run events (init ls doc r))))
    = inFlightOfActive (run events (init ls doc r))
  ∧ (galleryEmpty (renderGallery (run events (init ls doc r))) = true
     ↔ images (run events (init ls doc r)) = []
       ∧ pendingBatches (run events (init ls doc r)) = []).
Proof.
  destruct (run_batchesInv events _ (init_batchesInv ls doc r)) as (Hcalls & _ & _).
  set (s := run events (init ls doc r)) in *.
  unfold renderGallery, inFlightOfActive.
  destruct (images s) as [|image imgs] eqn:Himg;
    destruct (pendingBatches s) as [|p pend] eqn:Hpend; simpl.
  - split; [reflexivity|]. split; [reflexivity|]. split; auto.
  - split; [reflexivity|]. split; [|split; [discriminate|intros [_ H]; discriminate]].
    rewrite length_app, length_bind_sum. f_equal.
    + destruct (calls s !! p) as [a|] eqn:Ha; simpl; [|reflexivity].
      rewrite length_replicate. apply pendingCount_inFlight.
      exact (proj1 (Forall_lookup _ _) Hcalls _ _ Ha).
    + apply sum_list_with_ext_in. intros x _.
      destruct (calls s !! x) as [a|] eqn:Ha; simpl; [|reflexivity].
      rewrite length_replicate. apply pendingCount_inFlight.
      exact (proj1 (Forall_lookup _ _) Hcalls _ _ Ha).
  - split; [rewrite length_fmap; reflexivity|].
    split; [reflexivity|split; [discriminate|intros [H _]; discriminate]].
  - split; [rewrite length_fmap; reflexivity|].
    split; [|split; [discriminate|intros [H _]; discriminate]].
    rewrite length_app, length_bind_sum. f_equal.
    + destruct (calls s !! p) as [a|] eqn:Ha; simpl; [|reflexivity].
      rewrite length_replicate. apply pendingCount_inFlight.
      exact (proj1 (Forall_lookup _ _) Hcalls _ _ Ha).
    + apply sum_list_with_ext_in. intros x _.
      destruct (calls s !! x) as [a|] eqn:Ha; simpl; [|reflexivity].
      rewrite length_replicate. apply pendingCount_inFlight.
      exact (proj1 (Forall_lookup _ _) Hcalls _ _ Ha).
Qed.

(** ** The warning before leaving *)

Lemma fold_pendingCount s l : ∀ acc,
  (∀ r a, r ∈ l → calls s !! r = Some a →
     Batch.count (Activation.batch a) - Batch.completed (Activation.batch a)
     - Batch.failed (Activation.batch a)
     = Z.of_nat (inFlightUnits a)) →
  fold_left
    (λ sum r,
       match Activation.batch <$> calls s !! r with
       | Some batch =>
           sum + (Batch.count batch - Batch.completed batch - Batch.failed batch)
       | None => sum
       end)
    l acc
  = acc + Z.of_nat
            (sum_list_with
               (λ r, match calls s !! r with
                     | Some a => inFlightUnits a
                     | None => 0%nat
                     end) l).
Proof.
  induction l as [|r l IH]; intros acc H; simpl; [lia|].
  rewrite IH by (intros r' a' Hr'; apply H, elem_of_cons; right; exact Hr').
  destruct (calls s !! r) as [a|] eqn:Ha; simpl; [|lia].
  rewrite (H r a) by (try exact Ha; apply elem_of_cons; left; reflexivity). lia.
Qed.

(** X11. When the number of images at start-up is within 1..8, then along
    any run the handler of [beforeunload] asks for confirmation exactly
    when some unit of a batch of the active set is in flight, and the
    number it announces is the number of those units. *)
Theorem beforeUnload_counts_units_in_flight
    (ls : LocalStorage) (doc : Document) (r : StoreRead) (events : list Event)
    (Hcount : 1 <= imageCount (init ls doc r) <= 8) :
  beforeUnload (run events (init ls doc r))
  = if (0 <? inFlightOfActive (run events (init ls doc r)))%nat
    then Some (Z.of_nat (inFlightOfActive (run events (init ls doc r))))
    else None.
Proof.
  destruct (run_batchesInv events _ (init_batchesInv ls doc r)) as (Hcalls & _ & _).
  assert (Hrange : ∀ c a, calls (run events (init ls doc r)) !! c = Some a → callInRange a).
  { intros c a Hc.
    apply (run_callsInRange events 0 (init ls doc r) Hcount) with (c := c);
      [|exact Hc|lia].
    intros c0 a0 Hc0. destruct r; discriminate. }
  set (s := run events (init ls doc r)) in *.
  unfold beforeUnload, inFlightOfActive.
  rewrite fold_pendingCount.
  - destruct (pendingBatches s) as [|p pend]; [reflexivity|].
    cbn [length]. replace (0 <? S (length pend))%nat with true by reflexivity.
    set (n := sum_list_with _ (p :: pend)).
    destruct (Nat.ltb_spec 0 n); destruct (Z.ltb_spec 0 (0 + Z.of_nat n));
      try lia; reflexivity.
  - intros p a _ Ha.
    pose proof (proj1 (Forall_lookup _ _) Hcalls _ _ Ha) as (H1 & _).
    destruct (Hrange p a Ha) as (_ & H2).
    pose proof (filter_length_le isSettled (Activation.units a)) as Hle.
    unfold inFlightUnits, settledUnits in *. lia.
Qed.

Lemma beforeUnload_counts_units_in_flight_witness :
  beforeUnload stateWithPendingUnit = Some 1.
Proof.
  unfold stateWithPendingUnit.
  rewrite (beforeUnload_counts_units_in_flight sampleStorage sampleDocument ReadError
             (take 4 collidingUnits) ltac:(vm_compute; split; discriminate)).
  vm_compute. reflexivity.
Defined.

(** ** The store and the gallery *)

(** What a step does to the gallery together with the calls on ImagenDB:
    nothing; an [unshift] with [saveImage]; a [splice] with [deleteImage]
    of the id of the removed record; or the emptying with [clearAll]. *)
Lemma step_store e s :
  (images (step e s) = images s ∧ dbCalls (step e s) = dbCalls s)
  ∨ (∃ record,
       images (step e s) = record :: images s
       ∧ dbCalls (step e s) = dbCalls s ++ [SaveImage record])
  ∨ (∃ i x,
       images s !! i = Some x
       ∧ images (step e s) = delete i (images s)
       ∧ dbCalls (step e s) = dbCalls s ++ [DeleteImage (Image.id x)])
  ∨ (images (step e s) = [] ∧ dbCalls (step e s) = dbCalls s ++ [ClearAll]).
Proof.
  destruct e; simpl.
  all: try (left; split; reflexivity).
  - left. unfold selectModel. case_match; split; reflexivity.
  - left. unfold clickToggle. repeat case_match; split; reflexivity.
  - left. unfold clickAspect. case_match; split; reflexivity.
  - left. unfold decreaseCount. case_match; split; reflexivity.
  - left. unfold increaseCount. case_match; split; reflexivity.
  - left. unfold generateImages. repeat case_match; split; reflexivity.
  - unfold generateAndDisplay_resume.
    destruct (calls s !! call) as [a|]; [|left; split; reflexivity].
    destruct (Activation.units a !! index) as [[req|]|];
      try (left; split; reflexivity).
    destruct (generateSingleImage_response out) as [result|err];
      [|left; split; reflexivity].
    destruct (Js.truthy result); [|left; split; reflexivity].
    right; left. eexists. split; reflexivity.
  - left. unfold generateImages_resume. repeat case_match; split; reflexivity.
  - unfold deleteImage. destruct (images s !! index) as [x|] eqn:Hx.
    + right; right; left. exists index, x.
      destruct storeOk; repeat split; assumption || reflexivity.
    + left. simpl. split; [|reflexivity].
      apply lookup_ge_None in Hx.
      rewrite delete_take_drop, take_ge, drop_ge by lia. apply app_nil_r.
  - unfold clearGallery. destruct confirmed; [|left; split; reflexivity].
    right; right; right. destruct storeOk; split; reflexivity.
  - left. unfold openModal. case_match; split; reflexivity.
  - left. unfold useImageAsReference. case_match; split; reflexivity.
  - left. destruct (currentImage s) as [image|] eqn:Hopen.
    + destruct (recreateImage_open s image Hopen)
        as (_ & _ & _ & _ & E5 & _ & _ & _ & _ & _ & E11 & _).
      split; assumption.
    + unfold recreateImage. rewrite Hopen. split; reflexivity.
Qed.

Lemma replayDb_snoc dbcalls c store :
  replayDb (dbcalls ++ [c]) store = applyDbCall c (replayDb dbcalls store).
Proof. unfold replayDb. rewrite fold_left_app. reflexivity. Qed.

Lemma filter_other_ids (id : Num.t) (l : list Image.t) :
  id ∉ Image.id <$> l → filter (λ x, Image.id x ≠ id) l = l.
Proof.
  induction l as [|x l IH]; intros H; [reflexivity|].
  rewrite fmap_cons, not_elem_of_cons in H. destruct H as [Hx Hl].
  rewrite filter_cons_True by congruence. f_equal. exact (IH Hl).
Qed.

Lemma filter_own_id (l : list Image.t) : ∀ i x,
  NoDup (Image.id <$> l) → l !! i = Some x →
  filter (λ y, Image.id y ≠ Image.id x) l = delete i l.
Proof.
  induction l as [|z l IH]; intros i x Hnd Hi; [discriminate|].
  rewrite fmap_cons in Hnd. apply NoDup_cons in Hnd as [Hz Hnd].
  destruct i as [|i]; simpl in Hi.
  - injection Hi as ->. rewrite filter_cons_False by (intros H; apply H; reflexivity).
    simpl. apply filter_other_ids. exact Hz.
  - rewrite filter_cons_True.
    + simpl. f_equal. exact (IH i x Hnd Hi).
    + intros Heq. apply Hz. rewrite Heq.
      apply list_elem_of_fmap. exists x. split; [reflexivity|].
      eapply list_elem_of_lookup_2. exact Hi.
Qed.

Lemma galleryIdsDistinct_now events s :
  galleryIdsDistinct events s → NoDup (Image.id <$> images s).
Proof. destruct events; intros [H _]; exact H. Qed.

Lemma run_store_mirror store0 events : ∀ s,
  galleryIdsDistinct events s →
  Permutation (images s) (replayDb (dbCalls s) store0) →
  Permutation (images (run events s)) (replayDb (dbCalls (run events s)) store0).
Proof.
  induction events as [|e events IH]; intros s Hids Hperm; [exact Hperm|].
  rewrite run_cons. destruct Hids as (Hnd & Hnext).
  apply IH; [exact Hnext|].
  apply galleryIdsDistinct_now in Hnext as Hnd'.
  destruct (step_store e s) as [[Hi Hd]|[(record & Hi & Hd)|[(i & x & Hx & Hi & Hd)|[Hi Hd]]]].
  - rewrite Hi, Hd. exact Hperm.
  - rewrite Hi, Hd, replayDb_snoc. simpl. unfold storePut.
    rewrite Hi, fmap_cons in Hnd'. apply NoDup_cons in Hnd' as [Hfresh _].
    rewrite filter_other_ids; [constructor; exact Hperm|].
    rewrite <- Hperm. exact Hfresh.
  - rewrite Hi, Hd, replayDb_snoc. simpl. unfold storeDelete.
    rewrite <- Hperm. rewrite (filter_own_id _ i x Hnd Hx). reflexivity.
  - rewrite Hi, Hd, replayDb_snoc. reflexivity.
Qed.

(** X12. As long as the records of the gallery have pairwise distinct ids,
    the calls made on ImagenDB keep the gallery in step with the records
    that start-up loaded: run through any events, replaying the
    [saveImage], [deleteImage] and [clearAll] calls, each taken to succeed
    and in the order of the calls, on the records loaded gives exactly the
    records of the gallery, and reading them back returns them newest
    first.  After a read that succeeded the records loaded are the contents
    of the store, so the store holds the records of the gallery; after a
    read that failed nothing was loaded, and the store holds, beside them,
    whatever it held. *)
Theorem store_mirrors_gallery
    (ls : LocalStorage) (doc : Document) (r : StoreRead) (events : list Event)
    (Hids : galleryIdsDistinct events (init ls doc r)) :
  Permutation
    (images (run events (init ls doc r)))
    (replayDb (dbCalls (run events (init ls doc r))) (storedRecords r))
  ∧ ∃ reloaded,
      getAllImages
        (ReadResult (replayDb (dbCalls (run events (init ls doc r))) (storedRecords r)))
      = Some reloaded
      ∧ newestFirst reloaded
      ∧ Permutation (images (run events (init ls doc r))) reloaded.
Proof.
  assert (H : Permutation
                (images (run events (init ls doc r)))
                (replayDb (dbCalls (run events (init ls doc r))) (storedRecords r))).
  { apply run_store_mirror; [exact Hids|].
    rewrite init_images.
    replace (dbCalls (init ls doc r)) with (@nil DbCall) by (destruct r; reflexivity).
    simpl. symmetry. apply arraySort_perm. }
  split; [exact H|].
  eexists. split; [reflexivity|]. split; [apply arraySort_newestFirst|].
  rewrite H. apply arraySort_perm.
Qed.

Lemma store_mirrors_gallery_witness :
  Permutation
    (images (run partialFailure (init sampleStorage sampleDocument (ReadResult [sampleStored]))))
    (replayDb
       (dbCalls (run partialFailure
                   (init sampleStorage sampleDocument (ReadResult [sampleStored]))))
       [sampleStored]).
Proof.
  apply (store_mirrors_gallery sampleStorage sampleDocument (ReadResult [sampleStored])
           partialFailure).
  vm_compute. repeat split; repeat constructor;
    try (intros H; apply elem_of_nil in H; exact H);
    try (intros H; apply list_elem_of_singleton in H; discriminate H).
Defined.

(** After a read that failed the store still holds its records: the
    gallery starts empty, and what the calls make of the store differs from
    the gallery by those records. *)
Example store_after_failed_read :
  images (run partialFailure (init sampleStorage sampleDocument ReadError))
  ≠ replayDb (dbCalls (run partialFailure (init sampleStorage sampleDocument ReadError)))
      [sampleStored]
  ∧ length (images (run partialFailure (init sampleStorage sampleDocument ReadError))) = 1%nat
  ∧ length (replayDb
              (dbCalls (run partialFailure (init sampleStorage sampleDocument ReadError)))
              [sampleStored]) = 2%nat.
Proof.
  split; [|split; vm_compute; reflexivity].
  intros H. apply (f_equal length) in H. vm_compute in H. discriminate.
Qed.

(** ** Recreate, references and clearing, composed with generation *)

(** X13. With a record open, recreate followed by an accepted submission
    creates a batch with the trimmed prompt, the model, the configuration
    and the references of the record; the number of images is the current
    one (a record does not keep it). *)
Theorem recreate_then_generate
    (s : App) (image : Image.t) (cfg : Config.t) (now : Z) (rnd : N)
    (Hopen : currentImage s = Some image)
    (Hprompt : Js.truthy (Js.trim (Image.prompt image)) = true)
    (Hkey : Js.truthy (apiKey s) = true)
    (Hcfg : MODEL_CONFIGS (Image.model image) = Some cfg) :
  ∃ a,
    calls (generateImages now rnd (recreateImage s)) !! length (calls s) = Some a
    ∧ Activation.prompt a = Js.trim (Image.prompt image)
    ∧ Activation.currentModel a = Image.model image
    ∧ Activation.modelConfig a = cfg
    ∧ Activation.currentReferences a = Image.references image
    ∧ Batch.count (Activation.batch a) = imageCount s
    ∧ length (Activation.units a) = Z.to_nat (imageCount s).
Proof.
  destruct (recreateImage_open s image Hopen)
    as (E1 & E2 & E3 & _ & _ & E6 & _ & _ & _ & E10 & _ & E12).
  destruct (generateImages_accepted (recreateImage s) now rnd cfg) as (Hcalls & _).
  - rewrite E2. exact Hprompt.
  - rewrite E10. exact Hkey.
  - rewrite E1. exact Hcfg.
  - exists (submittedCall (recreateImage s) now rnd cfg).
    split.
    + rewrite Hcalls, E6, lookup_app_r by lia. rewrite Nat.sub_diag. reflexivity.
    + simpl. rewrite E1, E2, E3, E12, length_replicate. repeat split; reflexivity.
Qed.

Lemma recreate_then_generate_witness :
  ∃ a,
    calls (generateImages 3000 9
             (recreateImage (run legacyEvents startState)))
      !! length (calls (run legacyEvents startState))
    = Some a
    ∧ Activation.prompt a = "a red fox"%string.
Proof.
  destruct (recreate_then_generate (run legacyEvents startState)
              (Image.mk (Num.mk 1500 3) "https://img.example/1.png" "a red fox"
                 "google/gemini-2.5-flash-image" "Gemini 2.5 Flash Image"
                 "1024x1024" "1K" "1:1" [] 1500)
              (Config.mk "Gemini 2.5 Flash Image" true true true 3) 3000 9
              ltac:(vm_compute; reflexivity) eq_refl eq_refl eq_refl)
    as (a & Ha & Hp & _).
  exists a. split; [exact Ha|exact Hp].
Defined.

Lemma request_imageParts s prompt cfg :
  imageParts (Request.messageContent (generateSingleImage_request s prompt cfg))
  = if Config.supportsImageInput cfg then List.filter Js.truthy (references s) else [].
Proof.
  unfold generateSingleImage_request. simpl.
  destruct (Config.supportsImageInput cfg); [|reflexivity].
  destruct (List.filter Js.truthy (references s)) as [|r refs]; [reflexivity|].
  rewrite length_app, length_fmap. simpl.
  replace (length refs + 1)%nat with (S (length refs)) by lia. simpl.
  f_equal. apply (imageParts_of_refs refs prompt).
Qed.

Lemma step_keeps_references e s :
  editsReferences e = false → references (step e s) = references s.
Proof.
  destruct e; simpl; try discriminate; intros _; try reflexivity.
  - unfold selectModel. case_match; reflexivity.
  - unfold clickToggle. repeat case_match; reflexivity.
  - unfold clickAspect. case_match; reflexivity.
  - unfold decreaseCount. case_match; reflexivity.
  - unfold increaseCount. case_match; reflexivity.
  - unfold generateImages. repeat case_match; reflexivity.
  - unfold generateAndDisplay_resume. repeat case_match; reflexivity.
  - unfold generateImages_resume. repeat case_match; reflexivity.
  - unfold deleteImage. repeat case_match; reflexivity.
  - unfold clearGallery. repeat case_match; reflexivity.
  - unfold openModal. case_match; reflexivity.
Qed.

Lemma run_keeps_references events : ∀ s,
  Forall (λ e, editsReferences e = false) events →
  references (run events s) = references s.
Proof.
  induction events as [|e events IH]; intros s H; [reflexivity|].
  apply Forall_cons in H as [He H]. rewrite run_cons, IH by exact H.
  apply step_keeps_references, He.
Qed.

(** X14. Opening a record of the gallery and using it as a reference
    appends its URL to the references and closes the modal; when that URL
    is not empty, every request built afterwards for a model that takes
    image input carries it as its last image, through any events that do
    not write the references (a file read, the removal of a reference, the
    clearing of the references, another image used as reference, a
    recreate). *)
Theorem gallery_image_used_as_reference
    (s : App) (index : nat) (image : Image.t)
    (Himage : images s !! index = Some image) :
  references (useImageAsReference (openModal index s))
  = references s ++ [Image.url image]
  ∧ currentImage (useImageAsReference (openModal index s)) = None
  ∧ (Js.truthy (Image.url image) = true →
     ∀ events prompt cfg,
       Forall (λ e, editsReferences e = false) events →
       Config.supportsImageInput cfg = true →
       last (imageParts
               (Request.messageContent
                  (generateSingleImage_request
                     (run events (useImageAsReference (openModal index s))) prompt cfg)))
       = Some (Image.url image)).
Proof.
  assert (Hrefs : references (useImageAsReference (openModal index s))
                  = references s ++ [Image.url image]).
  { unfold useImageAsReference, openModal. rewrite Himage. reflexivity. }
  split; [exact Hrefs|]. split.
  - unfold useImageAsReference, openModal. rewrite Himage. reflexivity.
  - intros Hurl events prompt cfg Hevents Hcfg.
    rewrite request_imageParts, Hcfg, (run_keeps_references _ _ Hevents), Hrefs,
      List.filter_app.
    simpl. rewrite Hurl. apply last_snoc.
Qed.

Lemma gallery_image_used_as_reference_witness :
  last (imageParts
          (Request.messageContent
             (generateSingleImage_request
                (run [SelectModel 3; TypePrompt "a blue whale"; DeleteImageAt 0 true]
                   (useImageAsReference (openModal 0 stateAfterLastUnit)))
                "a blue whale" (Config.mk "GPT-5 Image" false true true 1))))
  = Some "https://img.example/1.png"%string.
Proof.
  apply (proj2 (proj2 (gallery_image_used_as_reference stateAfterLastUnit 0
                         (Image.mk (Num.mk 1500 3) "https://img.example/1.png" "a red fox"
                            "google/gemini-2.5-flash-image" "Gemini 2.5 Flash Image"
                            "1024x1024" "1K" "1:1" [] 1500)
                         ltac:(vm_compute; reflexivity)))).
  - reflexivity.
  - repeat constructor.
  - reflexivity.
Defined.

(** X15. Clearing the gallery does not cancel the batches in flight: the
    active set and the pending units are as before, and a unit that then
    settles with an image puts its record in the emptied gallery and hands
    it to [saveImage]. *)
Theorem clearGallery_keeps_batches
    (s : App) (storeOk : bool) (c i : nat) (a : Activation.t) (req : Request.t)
    (out : Response.outcome) (result : string) (now : Z) (rnd : N) (created : Z)
    (Hcall : calls s !! c = Some a)
    (Hunit : Activation.units a !! i = Some (InFlight req))
    (Hout : generateSingleImage_response out = inl result) :
  calls (clearGallery true storeOk s) = calls s
  ∧ pendingBatches (clearGallery true storeOk s) = pendingBatches s
  ∧ images (step (UnitSettles c i out now rnd created) (clearGallery true storeOk s))
    = [imageDataOf a i result now rnd created]
  ∧ last (dbCalls (step (UnitSettles c i out now rnd created)
                     (clearGallery true storeOk s)))
    = Some (SaveImage (imageDataOf a i result now rnd created)).
Proof.
  assert (Htruthy : Js.truthy result = true).
  { destruct out as [| | |d]; simpl in Hout; try discriminate.
    destruct (firstMessage d) as [message|]; [|discriminate].
    unfold extractImage in Hout.
    destruct (match Response.images message with
              | Some (img :: _) => imageOfEntry img
              | _ => None
              end) as [u|] eqn:H1.
    - injection Hout as <-.
      destruct (Response.images message) as [[|img imgs]|]; try discriminate.
      exact (imageOfEntry_truthy img u H1).
    - destruct (match Response.content message with
                | Response.ContentArray parts => scanParts parts
                | _ => None
                end) as [u|] eqn:H2.
      + injection Hout as <-.
        destruct (Response.content message) as [parts| |]; try discriminate.
        exact (scanParts_truthy parts u H2).
      + destruct (Response.content message) as [parts|s0|]; try discriminate.
        destruct (Js.startsWith s0 "data:image") eqn:H3; [|discriminate].
        injection Hout as <-. exact (startsWith_truthy s0 "data:image" eq_refl H3). }
  assert (Hc : calls (clearGallery true storeOk s) = calls s)
    by (destruct storeOk; reflexivity).
  split; [exact Hc|]. split; [destruct storeOk; reflexivity|].
  destruct storeOk; simpl; unfold generateAndDisplay_resume; simpl;
    rewrite Hcall, Hunit, Hout, Htruthy; simpl; split; try reflexivity;
    apply last_snoc.
Qed.

Lemma clearGallery_keeps_batches_witness :
  pendingBatches (clearGallery true false stateWithPendingUnit) = [0%nat].
Proof.
  unfold stateWithPendingUnit.
  destruct (calls (run (take 4 collidingUnits) (init sampleStorage sampleDocument ReadError))
              !! 0%nat) as [a|] eqn:Ha;
    [|vm_compute in Ha; discriminate].
  destruct (Activation.units a !! 0%nat) as [[req|]|] eqn:Hu;
    [|vm_compute in Ha; injection Ha as <-; vm_compute in Hu; discriminate..].
  rewrite (proj1 (proj2 (clearGallery_keeps_batches _ false 0 0 a req
                           (sampleResponse "https://img.example/a.png")
                           "https://img.example/a.png" 2001 5 2001 Ha Hu eq_refl))).
  vm_compute. reflexivity.
Defined.

(** ** Start-up defaults *)

Lemma orDefault_truthy o d : Js.truthy d = true → Js.truthy (orDefault o d) = true.
Proof.
  intros Hd. unfold orDefault. destruct o as [s|]; [|exact Hd].
  destruct (Js.truthy s) eqn:Hs; [exact Hs|exact Hd].
Qed.

(** X16. Whatever the preference store holds and however the read of the
    record store ends, after [init] the model, the size, the quality and
    the aspect ratio are not empty and the number of images is not zero
    (a missing or empty entry, or a count that is zero or does not parse,
    falls back to the default); with no model stored the selected model is
    a key of [MODEL_CONFIGS]; and no batch, reference or open record
    exists. *)
Theorem init_defaults (ls : LocalStorage) (doc : Document) (r : StoreRead) :
  Js.truthy (selectedModel (init ls doc r)) = true
  ∧ Js.truthy (imageSize (init ls doc r)) = true
  ∧ Js.truthy (imageQuality (init ls doc r)) = true
  ∧ Js.truthy (aspectRatio (init ls doc r)) = true
  ∧ imageCount (init ls doc r) ≠ 0
  ∧ (Js.truthyOpt (imagen_model ls) = false →
     isKnown (selectedModel (init ls doc r)) = true)
  ∧ (Js.truthy (apiKey (init ls doc r)) = Js.truthyOpt (imagen_api_key ls))
  ∧ calls (init ls doc r) = []
  ∧ pendingBatches (init ls doc r) = []
  ∧ references (init ls doc r) = []
  ∧ currentImage (init ls doc r) = None.
Proof.
  destruct r; simpl.
  all: repeat (split; [try (apply orDefault_truthy; reflexivity)|]);
    try reflexivity.
  all: try (destruct (imagen_count ls) as [n|]; [|discriminate];
            destruct (Z.eqb_spec n 0); [discriminate|assumption]).
  all: try (unfold orDefault, Js.truthyOpt;
            destruct (imagen_model ls) as [m|];
            [destruct (Js.truthy m); [discriminate|reflexivity]|reflexivity]).
  all: unfold orDefault, Js.truthyOpt; destruct (imagen_api_key ls) as [k|];
    [destruct (Js.truthy k) eqn:Hk; [exact Hk|reflexivity]|reflexivity].
Qed.

Lemma init_defaults_witness :
  isKnown (selectedModel (init sampleStorage sampleDocument ReadError)) = true.
Proof.
  apply (proj1 (proj2 (proj2 (proj2 (proj2 (proj2
           (init_defaults sampleStorage sampleDocument ReadError))))))).
  reflexivity.
Defined.

(** ** Positions in the gallery *)

(** X17. [deleteImage] works on positions: after the deletion at position
    [i], a position [j] from [i] on holds the record that was at [j + 1],
    so a second deletion with the position [j] that a card had before the
    first one removes the record that was at [j + 1], with its id in the
    store call; positions before [i] are unaffected. *)
Theorem deleteImage_shifts_positions
    (s : App) (i j : nat) (ok1 ok2 : bool) :
  ((i <= j)%nat →
   images (deleteImage i ok1 s) !! j = images s !! S j
   ∧ images (deleteImage j ok2 (deleteImage i ok1 s)) = delete j (delete i (images s))
   ∧ ∀ x, images s !! S j = Some x → (i < length (images s))%nat →
       last (dbCalls (deleteImage j ok2 (deleteImage i ok1 s)))
       = Some (DeleteImage (Image.id x)))
  ∧ ((j < i)%nat → images (deleteImage i ok1 s) !! j = images s !! j).
Proof.
  assert (Himg : ∀ k ok s0, images (deleteImage k ok s0) = delete k (images s0)).
  { intros k ok s0. unfold deleteImage.
    destruct (images s0 !! k); [destruct ok|]; reflexivity. }
  split.
  - intros Hij. rewrite !Himg. split; [apply list_lookup_delete_ge; exact Hij|].
    split; [reflexivity|].
    intros x Hx Hi.
    unfold deleteImage at 1. rewrite Himg.
    rewrite list_lookup_delete_ge by exact Hij. rewrite Hx.
    destruct ok2; simpl; apply last_snoc.
  - intros Hji. rewrite Himg. apply list_lookup_delete_lt. exact Hji.
Qed.

Lemma deleteImage_shifts_positions_witness :
  images (deleteImage 0 true
            (run [TypePrompt "a red fox"; Generate 1000 7;
                  UnitSettles 0 0 (sampleResponse "https://img.example/1.png") 1500 3 1500]
               (init sampleStorage sampleDocument (ReadResult [sampleStored]))))
    !! 0%nat
  = Some sampleStored.
Proof.
  rewrite (proj1 (proj1 (deleteImage_shifts_positions _ 0 0 true true)
                    ltac:(lia))).
  vm_compute. reflexivity.
Defined.

(** ** Dropped and pasted files *)

Lemma run_referenceLoaded reads : ∀ s,
  references (run (ReferenceLoaded <$> reads) s) = references s ++ reads.
Proof.
  induction reads as [|u reads IH]; intros s; simpl.
  - rewrite app_nil_r. reflexivity.
  - change (run (ReferenceLoaded u :: (ReferenceLoaded <$> reads)) s)
      with (run (ReferenceLoaded <$> reads) (step (ReferenceLoaded u) s)).
    rewrite IH. simpl. rewrite <- app_assoc. reflexivity.
Qed.

Lemma filter_length_all {X} (p : X → bool) (l : list X) :
  length (List.filter p l) = length l ↔ Forall (λ x, p x = true) l.
Proof.
  induction l as [|x l IH]; simpl; [split; [constructor|reflexivity]|].
  pose proof (filter_length_le p l) as Hle.
  destruct (p x) eqn:Hx; simpl.
  - split.
    + intros H. constructor; [exact Hx|]. apply IH. lia.
    + intros H. inversion H; subst. f_equal. apply IH. assumption.
  - split; [lia|]. intros H. inversion H; subst. congruence.
Qed.

(** X18. A drop starts a read for each image file, while its toast
    announces the number of all dropped files; a paste announces the number
    of reads it starts.  The data URLs arrive as the reads complete, in any
    order, and a read may fail: for every arrival [dropped] or [pasted]
    (some of the reads started, in some order) the references are the
    former ones followed by the arrivals in their order; the number
    announced is at least the number of arrivals, and for a drop equal to
    it exactly when every dropped file is an image and every read
    completes, for a paste exactly when every read completes. *)
Theorem handleDrop_handlePaste_counts
    (s : App) (files : list DroppedFile) (focus : bool)
    (items : option (list ClipboardItem)) (dropped pasted : list string)
    (Hdropped : dropped ⊆+ fst (handleDrop files))
    (Hpasted : pasted ⊆+ fst (handlePaste focus items)) :
  references (run (ReferenceLoaded <$> dropped) s) = references s ++ dropped
  ∧ match snd (handleDrop files) with
    | Some n =>
        n = length files
        ∧ (length dropped <= n)%nat
        ∧ (length dropped = n
           ↔ Forall (λ f, Js.startsWith (fileType f) "image/" = true) files
             ∧ dropped ≡ₚ fst (handleDrop files))
    | None => files = [] ∧ dropped = []
    end
  ∧ references (run (ReferenceLoaded <$> pasted) s) = references s ++ pasted
  ∧ match snd (handlePaste focus items) with
    | Some n =>
        n = length (fst (handlePaste focus items))
        ∧ (0 < n)%nat
        ∧ (length pasted <= n)%nat
        ∧ (length pasted = n ↔ pasted ≡ₚ fst (handlePaste focus items))
    | None => pasted = []
    end.
Proof.
  split; [apply run_referenceLoaded|]. split; [|split; [apply run_referenceLoaded|]].
  - pose proof (submseteq_length _ _ Hdropped) as Hlen.
    unfold handleDrop in *. cbn [fst snd] in *.
    rewrite length_fmap in Hlen.
    pose proof (filter_length_le (λ f0, Js.startsWith (fileType f0) "image/") files) as Hle.
    destruct files as [|f files].
    + split; [reflexivity|]. apply submseteq_nil_r. exact Hdropped.
    + change (0 <? length (f :: files))%nat with true. cbn match.
      split; [reflexivity|]. split; [lia|]. split.
      * intros Heq. split.
        -- apply filter_length_all. lia.
        -- apply submseteq_length_Permutation; [exact Hdropped|].
           rewrite length_fmap. lia.
      * intros [Hall Hperm]. rewrite Hperm, length_fmap.
        apply filter_length_all. exact Hall.
  - pose proof (submseteq_length _ _ Hpasted) as Hlen.
    unfold handlePaste in *. destruct focus.
    { apply submseteq_nil_r. exact Hpasted. }
    destruct items as [items|]; [|apply submseteq_nil_r; exact Hpasted].
    cbn [fst snd] in *.
    destruct (omap _ items) as [|u reads] eqn:Hreads.
    + apply submseteq_nil_r. exact Hpasted.
    + change (0 <? length (u :: reads))%nat with true. cbn match.
      split; [reflexivity|]. split; [simpl; lia|]. split; [exact Hlen|]. split.
      * intros Heq. apply submseteq_length_Permutation; [exact Hpasted|]. lia.
      * intros Hperm. rewrite Hperm. reflexivity.
Qed.

Lemma handleDrop_handlePaste_counts_witness :
  references
    (run (ReferenceLoaded <$> ["data:image/jpeg;base64,BBBB"; "data:image/png;base64,AAAA"]%string)
       startState)
  = ["data:image/jpeg;base64,BBBB"; "data:image/png;base64,AAAA"]%string
  ∧ snd (handleDrop droppedFiles) = Some 3%nat.
Proof.
  split; [|reflexivity].
  apply (proj1 (handleDrop_handlePaste_counts startState droppedFiles true None
                  ["data:image/jpeg;base64,BBBB"; "data:image/png;base64,AAAA"]%string []
                  ltac:(apply Permutation_submseteq; apply perm_swap)
                  ltac:(reflexivity))).
Defined.

(** ** The prompt on a placeholder *)

Lemma string_length_append a b :
  String.length (a +:+ b) = (String.length a + String.length b)%nat.
Proof. induction a as [|c a IH]; simpl; [reflexivity|]. rewrite IH. reflexivity. Qed.

Lemma substring0_length n : ∀ s,
  (n <= String.length s)%nat → String.length (String.substring 0 n s) = n.
Proof.
  induction n as [|n IH]; intros s Hn; [destruct s; reflexivity|].
  destruct s as [|c s]; simpl in *; [lia|]. rewrite IH by lia. reflexivity.
Qed.

Lemma substring0_prefix n : ∀ s, String.prefix (String.substring 0 n s) s = true.
Proof.
  induction n as [|n IH]; intros s; [destruct s; reflexivity|].
  destruct s as [|c s]; simpl; [reflexivity|].
  destruct (ascii_dec c c); [apply IH|congruence].
Qed.

(** X19. The prompt shown on a placeholder is the prompt itself when it
    has at most 60 characters, and otherwise its first 60 characters
    followed by three dots; it never has more than 63 characters. *)
Theorem truncatedPrompt_bounds (prompt : string) :
  (String.length (truncatedPrompt prompt) <= 63)%nat
  ∧ ((String.length prompt <= 60)%nat → truncatedPrompt prompt = prompt)
  ∧ ((60 < String.length prompt)%nat →
     ∃ head,
       truncatedPrompt prompt = head +:+ "..."
       ∧ String.length head = 60%nat
       ∧ Js.startsWith prompt head = true).
Proof.
  unfold truncatedPrompt.
  destruct (Nat.ltb_spec 60 (String.length prompt)) as [Hlong|Hshort].
  - split; [|split; [lia|]].
    + rewrite string_length_append, substring0_length by lia. simpl. lia.
    + intros _. exists (String.substring 0 60 prompt).
      split; [reflexivity|]. split; [apply substring0_length; lia|].
      apply substring0_prefix.
  - split; [lia|]. split; [reflexivity|lia].
Qed.

Lemma truncatedPrompt_bounds_witness : truncatedPrompt "a red fox" = "a red fox"%string.
Proof.
  apply (proj1 (proj2 (truncatedPrompt_bounds "a red fox"))). simpl. lia.
Defined.

(** ** Opening the database *)

Lemma ImagenDB_run_open events : ∀ d,
  ImagenDB.db d = true →
  ImagenDB.db (ImagenDB.run events d) = true
  ∧ ImagenDB.opens (ImagenDB.run events d) = ImagenDB.opens d.
Proof.
  induction events as [|e events IH]; intros d Hd; [split; [exact Hd|reflexivity]|].
  change (ImagenDB.run (e :: events) d) with (ImagenDB.run events (ImagenDB.step e d)).
  assert (Hstep : ImagenDB.db (ImagenDB.step e d) = true
                  ∧ ImagenDB.opens (ImagenDB.step e d) = ImagenDB.opens d).
  { destruct e as [|ok]; simpl.
    - unfold ImagenDB.ensureOpen. rewrite Hd. split; [exact Hd|reflexivity].
    - destruct (ImagenDB.opening d); simpl; [split; [exact Hd|reflexivity]|].
      rewrite Hd. split; reflexivity. }
  destruct Hstep as [H1 H2]. destruct (IH _ H1) as [H3 H4].
  split; [exact H3|]. rewrite H4. exact H2.
Qed.

Lemma ImagenDB_run_closed events : ∀ d,
  ImagenDB.db d = false →
  Forall (λ e, ImagenDB.isSuccess e = false) events →
  ImagenDB.db (ImagenDB.run events d) = false
  ∧ ImagenDB.opens (ImagenDB.run events d)
    = (ImagenDB.opens d + ImagenDB.methodCalls events)%nat.
Proof.
  unfold ImagenDB.methodCalls.
  induction events as [|e events IH]; intros d Hd Hall;
    [split; [exact Hd|simpl; lia]|].
  apply Forall_cons in Hall as [He Hall].
  change (ImagenDB.run (e :: events) d) with (ImagenDB.run events (ImagenDB.step e d)).
  destruct e as [|[|]]; try discriminate; cbn [List.filter ImagenDB.isMethodCall length].
  - destruct (IH (ImagenDB.step ImagenDB.MethodCall d)) as [H1 H2].
    + simpl. unfold ImagenDB.ensureOpen. rewrite Hd. reflexivity.
    + exact Hall.
    + split; [exact H1|]. rewrite H2. simpl. unfold ImagenDB.ensureOpen. rewrite Hd.
      simpl. lia.
  - destruct (IH (ImagenDB.step (ImagenDB.OpenSettles false) d)) as [H1 H2].
    + simpl. destruct (ImagenDB.opening d); simpl; [exact Hd|].
      rewrite Hd. reflexivity.
    + exact Hall.
    + split; [exact H1|]. rewrite H2. simpl.
      destruct (ImagenDB.opening d); reflexivity.
Qed.

Lemma ImagenDB_run_app events1 events2 d :
  ImagenDB.run (events1 ++ events2) d = ImagenDB.run events2 (ImagenDB.run events1 d).
Proof. apply fold_left_app. Qed.

(** X20. The database is opened lazily, by the method calls that find
    [this.db] not set: once it is set it stays set and no method call
    calls [open]; while it is not set, every method call calls [open],
    also when a request is already pending, so the calls of [open] are as
    many as the method calls made before the first request succeeds, and
    none are made after it. *)
Theorem ensureOpen_opens_per_call
    (before after : list ImagenDB.event) (d : ImagenDB.t) :
  (ImagenDB.db d = true →
   ImagenDB.db (ImagenDB.run after d) = true
   ∧ ImagenDB.opens (ImagenDB.run after d) = ImagenDB.opens d)
  ∧ (ImagenDB.db d = false →
     Forall (λ e, ImagenDB.isSuccess e = false) before →
     ImagenDB.db (ImagenDB.run before d) = false
     ∧ ImagenDB.opens (ImagenDB.run before d)
       = (ImagenDB.opens d + ImagenDB.methodCalls before)%nat
     ∧ ((0 < ImagenDB.opening (ImagenDB.run before d))%nat →
        ImagenDB.db
          (ImagenDB.run (before ++ ImagenDB.OpenSettles true :: after) d) = true
        ∧ ImagenDB.opens
            (ImagenDB.run (before ++ ImagenDB.OpenSettles true :: after) d)
          = (ImagenDB.opens d + ImagenDB.methodCalls before)%nat)).
Proof.
  split; [apply ImagenDB_run_open|].
  intros Hd Hbefore.
  destruct (ImagenDB_run_closed before d Hd Hbefore) as [H1 H2].
  split; [exact H1|]. split; [exact H2|].
  intros Hpending. rewrite ImagenDB_run_app.
  change (ImagenDB.run (ImagenDB.OpenSettles true :: after) (ImagenDB.run before d))
    with (ImagenDB.run after
            (ImagenDB.step (ImagenDB.OpenSettles true) (ImagenDB.run before d))).
  destruct (ImagenDB_run_open after
              (ImagenDB.step (ImagenDB.OpenSettles true) (ImagenDB.run before d)))
    as [H3 H4].
  - simpl. destruct (ImagenDB.opening (ImagenDB.run before d)); [lia|].
    simpl. apply orb_true_r.
  - split; [exact H3|]. rewrite H4. simpl.
    destruct (ImagenDB.opening (ImagenDB.run before d)); [lia|]. exact H2.
Qed.

(** Two units of a batch save their records before the first [open] has
    succeeded: [indexedDB.open] is called twice; the call made afterwards
    does not open again. *)
Lemma ensureOpen_opens_per_call_witness :
  ImagenDB.opens
    (ImagenDB.run
       ([ImagenDB.MethodCall; ImagenDB.MethodCall]
        ++ ImagenDB.OpenSettles true
           :: [ImagenDB.OpenSettles true; ImagenDB.MethodCall])
       (ImagenDB.mk false 0 0))
  = 2%nat.
Proof.
  apply (proj2 (proj2 (proj2 (ensureOpen_opens_per_call
                                [ImagenDB.MethodCall; ImagenDB.MethodCall]
                                [ImagenDB.OpenSettles true; ImagenDB.MethodCall]
                                (ImagenDB.mk false 0 0))
                         eq_refl ltac:(repeat constructor)))).
  simpl. lia.
Defined.

(** ** The options shown and the request sent *)

(** X21. For every model of [MODEL_CONFIGS], the Gemini options are
    displayed exactly when the requests for the selected model carry
    [image_config], and hidden exactly when they carry the top-level
    [aspect_ratio]. *)
Theorem geminiOptions_match_request
    (s : App) (prompt : string) (cfg : Config.t)
    (Hcfg : MODEL_CONFIGS (selectedModel s) = Some cfg) :
  (geminiOptionsVisible s = true
   ↔ Request.imageConfig (generateSingleImage_request s prompt cfg)
     = Some (Request.mkImageConfig (Js.toLowerCase (imageQuality s)) (aspectRatio s)))
  ∧ (geminiOptionsVisible s = false
     ↔ Request.aspect_ratio (generateSingleImage_request s prompt cfg)
       = Some (aspectRatio s)).
Proof.
  destruct (MODEL_CONFIGS_flags _ _ Hcfg) as (Hsize & Haspect & _).
  unfold geminiOptionsVisible, generateSingleImage_request. simpl.
  rewrite Hsize, Haspect.
  destruct (Js.includes (selectedModel s) "gemini"); simpl;
    split; split; congruence.
Qed.

Lemma geminiOptions_match_request_witness :
  Request.imageConfig
    (generateSingleImage_request startState "a red fox"
       (Config.mk "Gemini 2.5 Flash Image" true true true 3))
  = Some (Request.mkImageConfig "1k" "1:1").
Proof.
  apply (proj1 (proj1 (geminiOptions_match_request startState "a red fox"
                         (Config.mk "Gemini 2.5 Flash Image" true true true 3) eq_refl))).
  reflexivity.
Defined.
